(** * fastflow task tree: a shallow embedding of [pkg/mod/tasktree.go]

    The Go code builds a graph of [*TaskNode] values that point at each other
    and share mutable status fields.  The embedding keeps that sharing: nodes
    live in a [heap] (a list indexed by address), links are addresses, and
    every operation threads the heap explicitly.  Recursion over the graph is
    not structural (the cycle check is disabled in [BuildRootNode]), so the
    recursive walks take a fuel argument bounding the recursion depth; [None]
    stands for a run that does not return (fuel exhausted, or a Go runtime
    panic such as an index out of range). *)

From stdpp Require Import gmap strings list fin_maps relations.

Open Scope string_scope.
Open Scope list_scope.

(** ** Status vocabulary *)

(** Modelled from the spec: the task-instance status vocabulary of package
    [entity], which is imported by the source but not part of it. *)
Inductive TaskInstanceStatus :=
  | TaskInstanceStatusInit
  | TaskInstanceStatusRunning
  | TaskInstanceStatusContinue
  | TaskInstanceStatusEnding
  | TaskInstanceStatusRetrying
  | TaskInstanceStatusSuccess
  | TaskInstanceStatusSkipped
  | TaskInstanceStatusFailed
  | TaskInstanceStatusCanceled
  | TaskInstanceStatusBlocked.

#[global] Instance TaskInstanceStatus_eq_dec : EqDecision TaskInstanceStatus.
Proof. solve_decision. Defined.

(** [TreeStatus] is a Go string type: besides the four constants it has the
    zero value (the empty string) that an unset named result holds. *)
Inductive TreeStatus :=
  | TreeStatusUnset
  | TreeStatusRunning
  | TreeStatusSuccess
  | TreeStatusFailed
  | TreeStatusBlocked.

#[global] Instance TreeStatus_eq_dec : EqDecision TreeStatus.
Proof. solve_decision. Defined.

Definition virtualTaskRootID : string := "_virtual_root".
Definition TaskEndID : string := "End".

(** ** Task descriptors *)

(** The interface [TaskInfoGetter]. *)
Class TaskInfoGetter (T : Type) := {
  GetDepend : T → list string;
  GetID : T → string;
  GetGraphID : T → string;
  GetStatus : T → TaskInstanceStatus
}.

(** Modelled from the spec: the test double [MockTaskInfoGetter], a plain
    record of the four capabilities. *)
Record MockTaskInfoGetter := {
  mockDepend : list string;
  mockID : string;
  mockGraphID : string;
  mockStatus : TaskInstanceStatus
}.

#[global] Instance MockTaskInfoGetter_getter : TaskInfoGetter MockTaskInfoGetter := {
  GetDepend := mockDepend;
  GetID := mockID;
  GetGraphID := mockGraphID;
  GetStatus := mockStatus
}.

(** Modelled from the spec: the fields of [entity.TaskInstance] that the
    source reads. *)
Record TaskInstance := {
  ID : string;
  TaskID : string;
  DagInsID : string;
  DependOn : list string;
  InsStatus : TaskInstanceStatus
}.

#[global] Instance TaskInstance_getter : TaskInfoGetter TaskInstance := {
  GetDepend := DependOn;
  GetID := ID;
  GetGraphID := TaskID;
  GetStatus := InsStatus
}.

(** ** Graph nodes and the heap *)

(** Addresses of nodes in the heap: what a Go [*TaskNode] holds. *)
Abbreviation ptr := nat.

Record TaskNode := {
  TaskInsID : string;
  Status : TaskInstanceStatus;
  children : list ptr;
  parents : list ptr
}.

Abbreviation heap := (list TaskNode).

Definition NewTaskNodeFromGetter `{TaskInfoGetter T} (instance : T) : TaskNode :=
  {| TaskInsID := GetID instance; Status := GetStatus instance;
     children := []; parents := [] |}.

Definition AppendChild (task : ptr) (t : TaskNode) : TaskNode :=
  {| TaskInsID := TaskInsID t; Status := Status t;
     children := children t ++ [task]; parents := parents t |}.

Definition AppendParent (task : ptr) (t : TaskNode) : TaskNode :=
  {| TaskInsID := TaskInsID t; Status := Status t;
     children := children t; parents := parents t ++ [task] |}.

Definition setStatus (s : TaskInstanceStatus) (t : TaskNode) : TaskNode :=
  {| TaskInsID := TaskInsID t; Status := s;
     children := children t; parents := parents t |}.

(** ** Graph builder *)

Inductive BuildError :=
  | ErrRepeat (id : string)
  | ErrMissingDepend (task depend : string)
  | ErrNoStart.

(** Outcome of the builder: a value, a construction error, or a nil
    dereference (a map miss on [m[tasks[i].GetGraphID()]]). *)
Inductive built (A : Type) :=
  | Built (a : A)
  | BuildErr (e : BuildError)
  | BuildPanic.
Arguments Built {A} a.
Arguments BuildErr {A} e.
Arguments BuildPanic {A}.

Definition bbind {A B} (x : built A) (f : A → built B) : built B :=
  match x with
  | Built a => f a
  | BuildErr e => BuildErr e
  | BuildPanic => BuildPanic
  end.

Notation "x ←b y ; z" := (bbind y (λ x, z))
  (at level 20, y at level 100, z at level 200, only parsing).

Section Build.
Context `{TaskInfoGetter T}.

(** [buildGraphNodeMap]: nodes are allocated in input order, after
    whatever the heap already holds. *)
Fixpoint buildGraphNodeMap_from (tasks : list T) (h : heap)
    (m : gmap string ptr) : built (heap * gmap string ptr) :=
  match tasks with
  | [] => Built (h, m)
  | t :: tasks' =>
      match m !! GetGraphID t with
      | Some _ => BuildErr (ErrRepeat (GetGraphID t))
      | None =>
          buildGraphNodeMap_from tasks' (h ++ [NewTaskNodeFromGetter t])
            (<[GetGraphID t := length h]> m)
      end
  end.

Definition buildGraphNodeMap (tasks : list T) (h : heap) :
    built (heap * gmap string ptr) :=
  buildGraphNodeMap_from tasks h ∅.

(** The inner loop [for _, dependId := range tasks[i].GetDepend()]. *)
Fixpoint linkDepends (m : gmap string ptr) (task : string) (n : ptr)
    (deps : list string) (h : heap) : built heap :=
  match deps with
  | [] => Built h
  | dependId :: deps' =>
      match m !! dependId with
      | None => BuildErr (ErrMissingDepend task dependId)
      | Some parent =>
          linkDepends m task n deps'
            (alter (AppendParent parent) n (alter (AppendChild n) parent h))
      end
  end.

(** One iteration of [for i := range tasks]; the map read
    [m[tasks[i].GetGraphID()]] that both branches perform is done once. *)
Definition linkTask (m : gmap string ptr) (root : ptr) (t : T) (h : heap) :
    built heap :=
  match m !! GetGraphID t with
  | None => BuildPanic
  | Some n =>
      match GetDepend t with
      | [] => Built (alter (AppendChild n) root (alter (AppendParent root) n h))
      | deps => linkDepends m (GetGraphID t) n deps h
      end
  end.

Fixpoint linkTasks (m : gmap string ptr) (root : ptr) (tasks : list T)
    (h : heap) : built heap :=
  match tasks with
  | [] => Built h
  | t :: tasks' => h' ←b linkTask m root t h; linkTasks m root tasks' h'
  end.

(** [BuildRootNode]: the root is allocated first, at address 0. *)
Definition BuildRootNode (tasks : list T) : built (heap * ptr) :=
  let root : ptr := 0 in
  let h0 : heap :=
    [ {| TaskInsID := virtualTaskRootID; Status := TaskInstanceStatusSuccess;
         children := []; parents := [] |} ] in
  hm ←b buildGraphNodeMap tasks h0;
  h2 ←b linkTasks hm.2 root tasks hm.1;
  match children <$> h2 !! root with
  | Some (_ :: _) => Built (h2, root)
  | Some [] => BuildErr ErrNoStart
  | None => BuildPanic
  end.
End Build.

(** ** Gating predicates *)

Definition CanExecuteChild (t : TaskNode) : bool :=
  bool_decide (Status t = TaskInstanceStatusSuccess) ||
  bool_decide (Status t = TaskInstanceStatusSkipped).

(** The loop [for _, p := range t.parents] of [CanBeExecuted] and
    [Executable]: it stops at the first parent that blocks. *)
Fixpoint parentsProceed (h : heap) (ps : list ptr) : option bool :=
  match ps with
  | [] => Some true
  | p :: ps' =>
      pn ← h !! p;
      if CanExecuteChild pn then parentsProceed h ps' else Some false
  end.

Definition CanBeExecuted (h : heap) (t : TaskNode) : option bool :=
  match parents t with
  | [] => Some true
  | ps => parentsProceed h ps
  end.

Definition runnableStatus (s : TaskInstanceStatus) : bool :=
  bool_decide (s = TaskInstanceStatusInit) ||
  bool_decide (s = TaskInstanceStatusRetrying) ||
  bool_decide (s = TaskInstanceStatusContinue) ||
  bool_decide (s = TaskInstanceStatusEnding).

Definition Executable (h : heap) (t : TaskNode) : option bool :=
  if runnableStatus (Status t) then
    match parents t with
    | [] => Some true
    | ps => parentsProceed h ps
    end
  else Some false.

(** ** Traversal engine *)

Section Walk.
(** [A] holds the variables captured by the callback closure.  The callback
    receives the address of the node and may update the heap through it;
    [None] is a run-time panic inside the callback. *)
Context {A : Type}.
Variable walkFunc : ptr → heap * A → option ((heap * A) * bool).

(** The test [len(c.parents) > 1 && !c.CanBeExecuted()] on a child. *)
Definition skipChild (h : heap) (c : ptr) : option bool :=
  cn ← h !! c;
  if bool_decide (1 < length (parents cn))
  then negb <$> CanBeExecuted h cn else Some false.

(** The loop [for _, c := range root.children]; [walk] is the recursive
    call of [dfsWalk] one level down. *)
Fixpoint walkChildren (walk : ptr → heap * A → option ((heap * A) * bool))
    (cs : list ptr) (st : heap * A) : option ((heap * A) * bool) :=
  match cs with
  | [] => Some (st, true)
  | c :: cs' =>
      skip ← skipChild st.1 c;
      if (skip : bool) then walkChildren walk cs' st else
      r ← walk c st;
      if (r.2 : bool) then walkChildren walk cs' r.1 else Some (r.1, false)
  end.

Fixpoint dfsWalk (fuel : nat) (walkChildrenIgnoreStatus : bool) (root : ptr)
    (st : heap * A) : option ((heap * A) * bool) :=
  match fuel with
  | 0 => None
  | S fuel' =>
      nd ← st.1 !! root;
      r ← (if bool_decide (TaskInsID nd ≠ virtualTaskRootID)
           then walkFunc root st else Some (st, true));
      if negb r.2 then Some (r.1, false) else
      nd1 ← r.1.1 !! root;
      if negb walkChildrenIgnoreStatus && negb (CanExecuteChild nd1)
      then Some (r.1, true)
      else walkChildren (dfsWalk fuel' walkChildrenIgnoreStatus)
             (children nd1) r.1
  end.

Definition walkNode (fuel : nat) (root : ptr) (walkChildrenIgnoreStatus : bool)
    (st : heap * A) : option (heap * A) :=
  fst <$> dfsWalk fuel walkChildrenIgnoreStatus root st.
End Walk.

(** ** The external store *)

(** Modelled from the spec: the collaborator behind [GetStore()], with the two
    lookups the status fast path performs; [None] is a lookup error. *)
Record ListTaskInstanceInput := {
  inputDagInsID : string;
  inputTaskID : string
}.

Record Store := {
  GetTaskIns : string → option TaskInstance;
  ListTaskInstance : ListTaskInstanceInput → option (list TaskInstance)
}.

(** ** Status aggregator *)

(** The callback of [ComputeStatus]; the captured variables are the named
    results [status] and [srcTaskInsId]. *)
Definition computeStatusFunc (node : ptr) (st : heap * (TreeStatus * string)) :
    option ((heap * (TreeStatus * string)) * bool) :=
  nd ← st.1 !! node;
  match Status nd with
  | TaskInstanceStatusFailed | TaskInstanceStatusCanceled =>
      Some ((st.1, (TreeStatusFailed, TaskInsID nd)), true)
  | TaskInstanceStatusBlocked =>
      Some ((st.1, (TreeStatusBlocked, TaskInsID nd)), true)
  | TaskInstanceStatusSuccess | TaskInstanceStatusSkipped =>
      Some (st, true)
  | _ =>
      Some ((st.1, (TreeStatusRunning, TaskInsID nd)), false)
  end.

(** The fast path: [true] when the end marker of the run is found, alone,
    in status success. *)
Definition endMarkerSucceeded (store : Store) (firstChild : TaskNode) : bool :=
  match GetTaskIns store (TaskInsID firstChild) with
  | None => false
  | Some taskIns =>
      match ListTaskInstance store
              {| inputDagInsID := DagInsID taskIns; inputTaskID := TaskEndID |} with
      | Some [endTask] =>
          bool_decide (InsStatus endTask = TaskInstanceStatusSuccess)
      | _ => false
      end
  end.

(** The full walk of [ComputeStatus], from the call of [walkNode] on. *)
Definition computeStatusWalk (fuel : nat) (h : heap) (t : ptr) :
    option (heap * (TreeStatus * string)) :=
  r ← walkNode computeStatusFunc fuel t false (h, (TreeStatusUnset, ""));
  if bool_decide (r.2.2 ≠ "") then Some r
  else Some (r.1, (TreeStatusSuccess, "")).

(** The fast path of [ComputeStatus]; [t.children[0]] panics on a root
    without children. *)
Definition fastPath (store : Store) (h : heap) (t : ptr) : option bool :=
  tn ← h !! t;
  c0 ← children tn !! 0;
  cn ← h !! c0;
  Some (endMarkerSucceeded store cn).

Definition ComputeStatus (store : Store) (fuel : nat) (h : heap) (t : ptr) :
    option (heap * (TreeStatus * string)) :=
  fast ← fastPath store h t;
  if (fast : bool) then Some (h, (TreeStatusSuccess, ""))
  else computeStatusWalk fuel h t.

(** ** Executable-set finder *)

Definition executableFunc (node : ptr) (st : heap * list string) :
    option ((heap * list string) * bool) :=
  nd ← st.1 !! node;
  e ← Executable st.1 nd;
  Some ((st.1, if (e : bool) then st.2 ++ [TaskInsID nd] else st.2), true).

Definition GetExecutableTaskIds (fuel : nat) (h : heap) (t : ptr) :
    option (heap * list string) :=
  walkNode executableFunc fuel t false (h, []).

(** ** Incremental advancer *)

(** The loop [for i := range node.children] of [GetNextTaskIds]. *)
Fixpoint executableChildren (h : heap) (cs : list ptr) : option (list string) :=
  match cs with
  | [] => Some []
  | c :: cs' =>
      cn ← h !! c;
      e ← Executable h cn;
      rest ← executableChildren h cs';
      Some (if (e : bool) then TaskInsID cn :: rest else rest)
  end.

Definition nextTaskFunc (completedOrRetryTask : TaskInstance) (node : ptr)
    (st : heap * (list string * bool)) :
    option ((heap * (list string * bool)) * bool) :=
  nd ← st.1 !! node;
  if bool_decide (ID completedOrRetryTask = TaskInsID nd) then
    let nd' := setStatus (InsStatus completedOrRetryTask) nd in
    let h' := <[node := nd']> st.1 in
    if bool_decide (Status nd' = TaskInstanceStatusInit) then
      Some ((h', (st.2.1 ++ [TaskInsID nd'], true)), false)
    else if negb (CanExecuteChild nd') then
      Some ((h', (st.2.1, true)), false)
    else
      ids ← executableChildren h' (children nd');
      Some ((h', (st.2.1 ++ ids, true)), false)
  else Some (st, true).

Definition GetNextTaskIds (fuel : nat) (h : heap) (t : ptr)
    (completedOrRetryTask : TaskInstance) :
    option (heap * (list string * bool)) :=
  walkNode (nextTaskFunc completedOrRetryTask) fuel t false (h, ([], false)).

(** ** Cycle detector *)

(** The closure [isParentCompleted]: it stops at the first parent whose
    identity is not in [visited]. *)
Fixpoint isParentCompleted (h : heap) (visited : gset string) (ps : list ptr) :
    option bool :=
  match ps with
  | [] => Some true
  | p :: ps' =>
      pn ← h !! p;
      if bool_decide (TaskInsID pn ∈ visited)
      then isParentCompleted h visited ps' else Some false
  end.

Record cycleState := {
  csVisited : gset string;
  csIncomplete : gmap string ptr;
  csAppended : list ptr
}.

(** The loop [for i := 0; i < queueLen; i++] over one generation of the
    queue; [csAppended] is what the loop appends behind that generation. *)
Fixpoint bfsWave (h : heap) (queue : list ptr) (s : cycleState) :
    option cycleState :=
  match queue with
  | [] => Some s
  | cur :: queue' =>
      cn ← h !! cur;
      ok ← isParentCompleted h (csVisited s) (parents cn);
      if (ok : bool) then
        bfsWave h queue'
          {| csVisited := {[TaskInsID cn]} ∪ csVisited s;
             csIncomplete := delete (TaskInsID cn) (csIncomplete s);
             csAppended := csAppended s ++ children cn |}
      else
        bfsWave h queue'
          {| csVisited := csVisited s;
             csIncomplete := <[TaskInsID cn := cur]> (csIncomplete s);
             csAppended := csAppended s |}
  end.

Fixpoint bfsCheckCycle (fuel : nat) (h : heap) (waitQueue : list ptr)
    (visited : gset string) (incomplete : gmap string ptr) :
    option (gset string * gmap string ptr) :=
  match fuel with
  | 0 => None
  | S fuel' =>
      match waitQueue with
      | [] => Some (visited, incomplete)
      | _ =>
          s ← bfsWave h waitQueue
                 {| csVisited := visited; csIncomplete := incomplete;
                    csAppended := [] |};
          bfsCheckCycle fuel' h (csAppended s) (csVisited s) (csIncomplete s)
      end
  end.

(** [HasCycle] returns the value under whichever key Go's map iteration
    yields first: any entry of [incomplete] is a possible result. *)
Definition HasCycle_incomplete (fuel : nat) (h : heap) (t : ptr) :
    option (gmap string ptr) :=
  snd <$> bfsCheckCycle fuel h [t] ∅ ∅.

Definition HasCycle (fuel : nat) (h : heap) (t : ptr)
    (cycleStart : option ptr) : Prop :=
  ∃ incomplete, HasCycle_incomplete fuel h t = Some incomplete ∧
    match cycleStart with
    | None => incomplete = ∅
    | Some n => ∃ k, incomplete !! k = Some n
    end.

(** ** The walk order *)

(** The callback that records the nodes it is called on and never stops. *)
Definition visitFunc (node : ptr) (st : heap * list ptr) :
    option ((heap * list ptr) * bool) :=
  Some ((st.1, st.2 ++ [node]), true).

(** The nodes the gated walk passes to its callback, in call order. *)
Definition gatedWalk (fuel : nat) (h : heap) (t : ptr) : option (list ptr) :=
  snd <$> walkNode visitFunc fuel t false (h, []).

(** The same order computed without a callback, on a heap that stays fixed. *)
Fixpoint visitsChildren (walk : ptr → option (list ptr)) (h : heap)
    (cs : list ptr) : option (list ptr) :=
  match cs with
  | [] => Some []
  | c :: cs' =>
      skip ← skipChild h c;
      if (skip : bool) then visitsChildren walk h cs' else
      l1 ← walk c;
      l2 ← visitsChildren walk h cs';
      Some (l1 ++ l2)
  end.

Fixpoint visits (fuel : nat) (walkChildrenIgnoreStatus : bool) (h : heap)
    (root : ptr) : option (list ptr) :=
  match fuel with
  | 0 => None
  | S fuel' =>
      nd ← h !! root;
      let own := if bool_decide (TaskInsID nd ≠ virtualTaskRootID)
                 then [root] else [] in
      if negb walkChildrenIgnoreStatus && negb (CanExecuteChild nd)
      then Some own
      else l ← visitsChildren (visits fuel' walkChildrenIgnoreStatus h) h
                 (children nd);
           Some (own ++ l)
  end.

(** A callback run over a fixed list of nodes, stopping where it says so. *)
Fixpoint runStop {A} (walkFunc : ptr → heap * A → option ((heap * A) * bool))
    (l : list ptr) (st : heap * A) : option ((heap * A) * bool) :=
  match l with
  | [] => Some (st, true)
  | p :: l' =>
      r ← walkFunc p st;
      if (r.2 : bool) then runStop walkFunc l' r.1 else Some (r.1, false)
  end.

(** A callback that leaves the heap alone whenever it lets the walk go on. *)
Definition quiet {A} (walkFunc : ptr → heap * A → option ((heap * A) * bool)) :
    Prop :=
  ∀ p st st', walkFunc p st = Some (st', true) → st'.1 = st.1.

(** ** The verdict of the status walk, stated on the walk order *)

Definition nodesAt (h : heap) (l : list ptr) : list TaskNode :=
  omap (λ q, h !! q) l.

Definition isInflight (nd : TaskNode) : bool :=
  match Status nd with
  | TaskInstanceStatusFailed | TaskInstanceStatusCanceled
  | TaskInstanceStatusBlocked
  | TaskInstanceStatusSuccess | TaskInstanceStatusSkipped => false
  | _ => true
  end.

Definition treeStatusOf (s : TaskInstanceStatus) : TreeStatus :=
  match s with
  | TaskInstanceStatusFailed | TaskInstanceStatusCanceled => TreeStatusFailed
  | TaskInstanceStatusBlocked => TreeStatusBlocked
  | TaskInstanceStatusSuccess | TaskInstanceStatusSkipped => TreeStatusSuccess
  | _ => TreeStatusRunning
  end.

(** The node that decides the verdict: the first in-flight node of the walk
    order if there is one, otherwise the last node that is neither Success
    nor Skipped. *)
Definition decider (nodes : list TaskNode) : option TaskNode :=
  match list_find (λ nd, isInflight nd) nodes with
  | Some (_, nd) => Some nd
  | None => last (filter (λ nd, ¬ CanExecuteChild nd) nodes)
  end.

Definition rollup (nodes : list TaskNode) : TreeStatus * string :=
  match decider nodes with
  | Some nd =>
      if bool_decide (TaskInsID nd ≠ "")
      then (treeStatusOf (Status nd), TaskInsID nd)
      else (TreeStatusSuccess, "")
  | None => (TreeStatusSuccess, "")
  end.

(** A store whose lookups all fail. *)
Definition failingStore : Store :=
  {| GetTaskIns := λ _, None; ListTaskInstance := λ _, None |}.

Definition mockTask (id : string) (deps : list string)
    (s : TaskInstanceStatus) : MockTaskInfoGetter :=
  {| mockDepend := deps; mockID := id; mockGraphID := id; mockStatus := s |}.

(** Two independent tasks: A failed, B blocked. *)
Definition failedThenBlocked : list MockTaskInfoGetter :=
  [ mockTask "A" [] TaskInstanceStatusFailed;
    mockTask "B" [] TaskInstanceStatusBlocked ].

(** The heap of a successful build (empty when the build fails). *)
Definition builtHeap (b : built (heap * ptr)) : heap :=
  match b with Built (h, _) => h | _ => [] end.

Definition failedThenBlockedHeap : heap :=
  builtHeap (BuildRootNode failedThenBlocked).

(** A store in which every task instance belongs to run "dag" and the end
    marker of every run is present, alone, in status Success. *)
Definition endedStore : Store :=
  {| GetTaskIns := λ id,
       Some {| ID := id; TaskID := id; DagInsID := "dag"; DependOn := [];
               InsStatus := TaskInstanceStatusRunning |};
     ListTaskInstance := λ input,
       Some [ {| ID := "end-1"; TaskID := inputTaskID input;
                 DagInsID := inputDagInsID input; DependOn := [];
                 InsStatus := TaskInstanceStatusSuccess |} ] |}.

(** ** Sample graphs and well-formedness *)

(** The diamond A→B, A→C, B→D, C→D. *)
Definition diamond (a b c d : TaskInstanceStatus) : list MockTaskInfoGetter :=
  [ mockTask "A" [] a; mockTask "B" ["A"] b;
    mockTask "C" ["A"] c; mockTask "D" ["B"; "C"] d ].

Definition diamondHeap (a b c d : TaskInstanceStatus) : heap :=
  builtHeap (BuildRootNode (diamond a b c d)).

(** The node at [p] lets its children proceed. *)
Definition proceeds (h : heap) (p : ptr) : Prop :=
  ∃ pn, h !! p = Some pn ∧ CanExecuteChild pn.

(** Every link of the heap points at an allocated node. *)
Definition linksValid (h : heap) : Prop :=
  ∀ p nd, h !! p = Some nd →
    Forall (λ c, c < length h) (children nd) ∧
    Forall (λ q, q < length h) (parents nd).

(** [CanExecuteChild] on a bare status. *)
Definition okStatus (s : TaskInstanceStatus) : bool :=
  bool_decide (s = TaskInstanceStatusSuccess) ||
  bool_decide (s = TaskInstanceStatusSkipped).

(** What one call of [GetNextTaskIds] may do to the heap: nothing, or
    overwrite the status of one node that carries the identity of the
    record. *)
Definition advanced (task : TaskInstance) (h h' : heap) : Prop :=
  h' = h ∨
  ∃ p nd, h !! p = Some nd ∧ TaskInsID nd = ID task ∧
          h' = <[p := setStatus (InsStatus task) nd]> h.

(** The record that reports [id] in status [s]. *)
Definition report (id : string) (s : TaskInstanceStatus) : TaskInstance :=
  {| ID := id; TaskID := id; DagInsID := "dag"; DependOn := [];
     InsStatus := s |}.

(** ** The state of the builder between two tasks *)

(** The heap after the first [k] tasks of [tasks] have been linked: the
    root's children are the nodes of the tasks without dependencies among
    them, and the node of such a task has the root as its only parent. *)
Definition linkInv `{TaskInfoGetter T} (tasks : list T) (k : nat) (h : heap) :
    Prop :=
  length h = S (length tasks) ∧
  (∃ rn, h !! 0 = Some rn ∧ TaskInsID rn = virtualTaskRootID ∧
         parents rn = [] ∧
         ∀ c, c ∈ children rn ↔
              ∃ i t, (i < k)%nat ∧ tasks !! i = Some t ∧
                     GetDepend t = [] ∧ c = S i) ∧
  (∀ i t, tasks !! i = Some t → GetDepend t = [] →
          ∃ nd, h !! S i = Some nd ∧
                parents nd = if decide (i < k)%nat then [0] else []) ∧
  linksValid h.

(** ** Graph notions for the cycle detector *)

(** [c] is a child of [p]. *)
Definition edge (h : heap) (p c : ptr) : Prop :=
  ∃ pn, h !! p = Some pn ∧ c ∈ children pn.

(** Child links and parent links describe the same edges. *)
Definition linksSym (h : heap) : Prop :=
  ∀ p c, edge h p c ↔ ∃ cn, h !! c = Some cn ∧ p ∈ parents cn.

(** No two nodes carry the same identity. *)
Definition idsDistinct (h : heap) : Prop :=
  ∀ p q pn qn, h !! p = Some pn → h !! q = Some qn →
               TaskInsID pn = TaskInsID qn → p = q.

(** [t] is allocated and is the only node without parents. *)
Definition rooted (h : heap) (t : ptr) : Prop :=
  is_Some (h !! t) ∧ ∀ p pn, h !! p = Some pn → (parents pn = [] ↔ p = t).

Definition onCycle (h : heap) (c : ptr) : Prop := tc (edge h) c c.

(** [n] is on a cycle or is a descendant of a node on a cycle. *)
Definition underCycle (h : heap) (n : ptr) : Prop :=
  ∃ c, onCycle h c ∧ rtc (edge h) c n.

(** The state of the cycle check between two queue elements: [vs] lists the
    nodes marked visited, in the order they were first marked; [pending] is
    what is left of the queue, followed by what was appended to it. *)
Record cycleInv (h : heap) (vs : list ptr) (visited : gset string)
    (incomplete : gmap string ptr) (pending : list ptr) : Prop := {
  ci_nodup : NoDup vs;
  ci_valid : Forall (λ p, p < length h)%nat vs;
  ci_visited : ∀ s, s ∈ visited ↔
                    ∃ p pn, p ∈ vs ∧ h !! p = Some pn ∧ TaskInsID pn = s;
  ci_order : ∀ i p q, vs !! i = Some p → edge h q p →
                      ∃ j, (j < i)%nat ∧ vs !! j = Some q;
  ci_pending : Forall (λ p, p < length h)%nat pending;
  ci_ready : ∀ c, (c < length h)%nat → (∀ q, edge h q c → q ∈ vs) →
                  c ∈ vs ∨ c ∈ pending;
  ci_incomplete : ∀ k n, incomplete !! k = Some n →
                         ∃ nn, h !! n = Some nn ∧ TaskInsID nn = k ∧ n ∉ vs;
  ci_frontier : ∀ p c, p ∈ vs → edge h p c →
                       c ∈ vs ∨ c ∈ pending ∨
                       ∃ cn, h !! c = Some cn ∧
                             incomplete !! TaskInsID cn = Some c
}.

(** Every element of the [k]-th generation of the queue is a child of a
    node whose position in [vs] is at least [k - 1]. *)
Definition waveInv (h : heap) (vs : list ptr) (k : nat) (queue : list ptr) :
    Prop :=
  ∀ x, x ∈ queue →
       k = 0 ∨ ∃ i u, vs !! i = Some u ∧ (k ≤ S i)%nat ∧ edge h u x.

(** Consecutive elements of [l] are linked parent to child. *)
Fixpoint isPath (h : heap) (l : list ptr) : Prop :=
  match l with
  | x :: ((y :: _) as l') => edge h x y ∧ isPath h l'
  | _ => True
  end.

(** The two updates that link child [c] under parent [p]. *)
Definition addEdge (p c : ptr) (h : heap) : heap :=
  alter (AppendParent p) c (alter (AppendChild c) p h).

(** What else holds of the heap after the first [k] tasks have been linked:
    links are symmetric, identities are those of the tasks, and the node of
    a task that has been linked has a parent. *)
Definition linkShape `{TaskInfoGetter T} (tasks : list T) (k : nat) (h : heap) :
    Prop :=
  linksSym h ∧
  TaskInsID <$> h = virtualTaskRootID :: (GetID <$> tasks) ∧
  ∀ i t, tasks !! i = Some t → (i < k)%nat →
         ∃ nd, h !! S i = Some nd ∧ parents nd ≠ [].

(** A start task S and, apart from it, the cycle A→B→A. *)
Definition unreachableCycle : list MockTaskInfoGetter :=
  [ mockTask "S" [] TaskInstanceStatusSuccess;
    mockTask "A" ["B"] TaskInstanceStatusInit;
    mockTask "B" ["A"] TaskInstanceStatusInit ].

(** A start task S with the cycle A→B→A below it. *)
Definition reachableCycle : list MockTaskInfoGetter :=
  [ mockTask "S" [] TaskInstanceStatusSuccess;
    mockTask "A" ["S"; "B"] TaskInstanceStatusInit;
    mockTask "B" ["A"] TaskInstanceStatusInit ].

(** The same graph, built from tasks that all report the identity "x". *)
Definition sharedIdentityCycle : list MockTaskInfoGetter :=
  [ {| mockDepend := []; mockID := "x"; mockGraphID := "S";
       mockStatus := TaskInstanceStatusSuccess |};
    {| mockDepend := ["S"; "B"]; mockID := "x"; mockGraphID := "A";
       mockStatus := TaskInstanceStatusInit |};
    {| mockDepend := ["A"]; mockID := "x"; mockGraphID := "B";
       mockStatus := TaskInstanceStatusInit |} ].

Definition unreachableCycleHeap : heap :=
  builtHeap (BuildRootNode unreachableCycle).

Definition reachableCycleHeap : heap :=
  builtHeap (BuildRootNode reachableCycle).

Definition sharedIdentityHeap : heap :=
  builtHeap (BuildRootNode sharedIdentityCycle).

(** [rk] decreases along every child link: the graph has no cycle. *)
Definition ranked (h : heap) (rk : ptr → nat) : Prop :=
  ∀ p c, edge h p c → (rk c < rk p)%nat.

(** Proves [edge h p c] on a concrete heap. *)
Ltac solve_edge :=
  eexists; split; [vm_compute; reflexivity|]; simpl;
  repeat first [by apply list_elem_of_here | apply list_elem_of_further].

(** ** Further notions for the builder *)

(** [q] is the address of the node built for the task whose graph identity
    is [d]. *)
Definition isNodeOf `{TaskInfoGetter T} (tasks : list T) (q : ptr)
    (d : string) : Prop :=
  ∃ j tj, q = S j ∧ tasks !! j = Some tj ∧ GetGraphID tj = d.

(** What holds of statuses and parent lists after the first [k] tasks have
    been linked. *)
Definition linkExact `{TaskInfoGetter T} (tasks : list T)
    (m : gmap string ptr) (k : nat) (h : heap) : Prop :=
  Status <$> h = TaskInstanceStatusSuccess :: (GetStatus <$> tasks) ∧
  children <$> h !! 0 =
    Some (omap (λ t, match GetDepend t with
                     | [] => m !! GetGraphID t | _ => None end)
            (take k tasks)) ∧
  ∀ i t, tasks !! i = Some t →
    ∃ nd, h !! S i = Some nd ∧
      if decide (i < k)%nat
      then match GetDepend t with
           | [] => parents nd = [0]
           | deps => Forall2 (λ p d, m !! d = Some p) (parents nd) deps
           end
      else parents nd = [].

(** [MustBuildRootNode] returns the root or panics with the error of
    [BuildRootNode] wrapped in its message. *)
Inductive mustBuilt :=
  | MustRoot (r : heap * ptr)
  | MustPanic (cause : option BuildError).

Definition MustBuildRootNode `{TaskInfoGetter T} (tasks : list T) : mustBuilt :=
  match BuildRootNode tasks with
  | Built r => MustRoot r
  | BuildErr e => MustPanic (Some e)
  | BuildPanic => MustPanic None
  end.

(** The diamond once A, B and C have succeeded and D waits. *)
Definition readyDiamond : list MockTaskInfoGetter :=
  diamond TaskInstanceStatusSuccess TaskInstanceStatusSuccess
    TaskInstanceStatusSuccess TaskInstanceStatusInit.

Definition readyDiamondHeap : heap := builtHeap (BuildRootNode readyDiamond).

(** ** Paths the walk can take *)

(** The nodes the walk passes to its callback, in call order, with the
    gating flag as given. *)
Definition walkOrder (fuel : nat) (walkChildrenIgnoreStatus : bool) (h : heap)
    (t : ptr) : option (list ptr) :=
  snd <$> walkNode visitFunc fuel t walkChildrenIgnoreStatus (h, []).

(** The walk may enter [c] from a parent: [c] has at most one parent, or all
    its parents let their children proceed. *)
Definition joinOpen (h : heap) (c : ptr) : Prop :=
  ∃ cn, h !! c = Some cn ∧
        ((length (parents cn) ≤ 1)%nat ∨ Forall (proceeds h) (parents cn)).

(** A path of child links from [t] to [c] along which the walk descends:
    every node it leaves lets its children proceed (unless statuses are
    ignored) and every node it enters has its join open. *)
Inductive gatedPath (ign : bool) (h : heap) : ptr → ptr → Prop :=
  | gatedPath_here t : is_Some (h !! t) → gatedPath ign h t t
  | gatedPath_step t nd a c :
      h !! t = Some nd → ign = true ∨ CanExecuteChild nd →
      a ∈ children nd → joinOpen h a →
      gatedPath ign h a c → gatedPath ign h t c.

(** The node status [st] accounts for the run status [s]. *)
Definition accountsFor (s : TreeStatus) (st : TaskInstanceStatus) : Prop :=
  (s = TreeStatusFailed ∧
   st ∈ [TaskInstanceStatusFailed; TaskInstanceStatusCanceled]) ∨
  (s = TreeStatusBlocked ∧ st = TaskInstanceStatusBlocked) ∨
  (s = TreeStatusRunning ∧
   st ∈ [TaskInstanceStatusInit; TaskInstanceStatusRunning;
         TaskInstanceStatusContinue; TaskInstanceStatusEnding;
         TaskInstanceStatusRetrying]).

(** ** Descending for ever *)

(** One step the walk takes from [t] down to its child [a]. *)
Definition gatedStep (ign : bool) (h : heap) (t a : ptr) : Prop :=
  ∃ nd, h !! t = Some nd ∧ (ign = true ∨ CanExecuteChild nd) ∧
        a ∈ children nd ∧ joinOpen h a.

(** The walk can descend [n] levels below [t]. *)
Inductive descends (ign : bool) (h : heap) : nat → ptr → Prop :=
  | descends_O t : descends ign h 0 t
  | descends_S n t a :
      gatedStep ign h t a → descends ign h n a → descends ign h (S n) t.

(** A start task S with the cycle A→B→A below it, all tasks done. *)
Definition doneCycle : list MockTaskInfoGetter :=
  [ mockTask "S" [] TaskInstanceStatusSuccess;
    mockTask "A" ["S"; "B"] TaskInstanceStatusSuccess;
    mockTask "B" ["A"] TaskInstanceStatusSuccess ].

Definition doneCycleHeap : heap := builtHeap (BuildRootNode doneCycle).

(** ** Start nodes *)

(** [c] is a node that waits directly under the root at address 0: the
    root is its only parent, its status is runnable and its identity is
    not the reserved one. *)
Definition startNode (h : heap) (c : ptr) : Prop :=
  ∃ nd, h !! c = Some nd ∧ parents nd = [0] ∧
        runnableStatus (Status nd) = true ∧
        TaskInsID nd ≠ virtualTaskRootID.

(** Two start tasks, S waiting and R retrying, with the cycle A→B→A below
    S; nothing has run yet. *)
Definition freshCycle : list MockTaskInfoGetter :=
  [ mockTask "S" [] TaskInstanceStatusInit;
    mockTask "A" ["S"; "B"] TaskInstanceStatusInit;
    mockTask "R" [] TaskInstanceStatusRetrying;
    mockTask "B" ["A"] TaskInstanceStatusInit ].

Definition freshCycleHeap : heap := builtHeap (BuildRootNode freshCycle).

(** * Properties of the walk *)

Section WalkFacts.
Context {A : Type}.
Variable walkFunc : ptr → heap * A → option ((heap * A) * bool).
Hypothesis walkFunc_quiet : quiet walkFunc.

Lemma runStop_app l1 l2 st :
  runStop walkFunc (l1 ++ l2) st =
    r ← runStop walkFunc l1 st;
    if (r.2 : bool) then runStop walkFunc l2 r.1 else Some (r.1, false).
Proof.
  revert st. induction l1 as [|p l1 IH]; intros st; simpl; [done|].
  destruct (walkFunc p st) as [[st' [|]]|]; simpl; auto.
Qed.

Lemma runStop_quiet l st st' :
  runStop walkFunc l st = Some (st', true) → st'.1 = st.1.
Proof.
  revert st. induction l as [|p l IH]; intros st; simpl.
  - by intros [= ->].
  - destruct (walkFunc p st) as [[st1 [|]]|] eqn:E; simpl; try done.
    intros Hr. rewrite (IH _ Hr). by apply (walkFunc_quiet p).
Qed.

Lemma walkChildren_runStop walk vwalk h cs l :
  (∀ c a l', vwalk c = Some l' → walk c (h, a) = runStop walkFunc l' (h, a)) →
  visitsChildren vwalk h cs = Some l →
  ∀ a, walkChildren walk cs (h, a) = runStop walkFunc l (h, a).
Proof.
  intros Hwalk. revert l.
  induction cs as [|c cs IH]; intros l; simpl.
  - by intros [= <-].
  - destruct (skipChild h c) as [[|]|]; simpl; try done; [by apply IH|].
    destruct (vwalk c) as [l1|] eqn:E1; simpl; [|done].
    destruct (visitsChildren vwalk h cs) as [l2|]; simpl; [|done].
    intros [= <-] a.
    rewrite (Hwalk _ a _ E1), runStop_app.
    destruct (runStop walkFunc l1 (h, a)) as [[[h1 a1] [|]]|] eqn:E; simpl; auto.
    apply runStop_quiet in E. simpl in E. subst h1. by apply IH.
Qed.

(** Any quiet callback sees exactly the nodes of [visits], in that order,
    up to the node where it stops the walk. *)
Lemma dfsWalk_runStop fuel ign h root l :
  visits fuel ign h root = Some l →
  ∀ a, dfsWalk walkFunc fuel ign root (h, a) = runStop walkFunc l (h, a).
Proof.
  revert root l. induction fuel as [|fuel IH]; intros root l; simpl; [done|].
  destruct (h !! root) as [nd|] eqn:Hnd; simpl; [|done].
  intros Hv a. case_bool_decide as Hid.
  - assert (∃ l', l = root :: l' ∧
             if negb ign && negb (CanExecuteChild nd) then l' = []
             else visitsChildren (visits fuel ign h) h (children nd) = Some l')
      as (l' & -> & Hl').
    { destruct (negb ign && negb (CanExecuteChild nd)).
      - injection Hv as <-. eauto.
      - destruct (visitsChildren _ h (children nd)) as [l'|]; [|done].
        injection Hv as <-. eauto. }
    simpl. destruct (walkFunc root (h, a)) as [[[h1 a1] [|]]|] eqn:E; simpl; auto.
    apply walkFunc_quiet in E. simpl in E. subst h1. rewrite Hnd. simpl.
    destruct (negb ign && negb (CanExecuteChild nd)); [by subst|].
    eapply walkChildren_runStop; [|done]. intros c a' l0 Hc. by apply IH.
  - simpl. rewrite Hnd. simpl.
    destruct (negb ign && negb (CanExecuteChild nd)).
    + by injection Hv as <-.
    + destruct (visitsChildren _ h (children nd)) as [l'|] eqn:E; [|done].
      injection Hv as <-. simpl.
      eapply walkChildren_runStop; [|done]. intros c a' l0 Hc. by apply IH.
Qed.
End WalkFacts.

Lemma visitFunc_quiet : quiet visitFunc.
Proof. intros p st st'. unfold visitFunc. by intros [= <-]. Qed.

Lemma runStop_visitFunc l h acc :
  runStop visitFunc l (h, acc) = Some ((h, acc ++ l), true).
Proof.
  revert acc. induction l as [|p l IH]; intros acc; simpl.
  - by rewrite app_nil_r.
  - rewrite IH. by rewrite <- app_assoc.
Qed.

Lemma walkChildren_visits_is_Some fuel ign h cs acc r :
  (∀ c acc r, dfsWalk visitFunc fuel ign c (h, acc) = Some r →
              is_Some (visits fuel ign h c)) →
  walkChildren (dfsWalk visitFunc fuel ign) cs (h, acc) = Some r →
  is_Some (visitsChildren (visits fuel ign h) h cs).
Proof.
  intros IH. revert acc.
  induction cs as [|c cs IHcs]; intros acc; simpl; [by eauto|].
  destruct (skipChild h c) as [[|]|]; simpl; try done; [by apply IHcs|].
  destruct (dfsWalk visitFunc fuel ign c (h, acc)) as [r'|] eqn:E; simpl; [|done].
  destruct (IH _ _ _ E) as [l1 Hl1]. rewrite Hl1. simpl.
  rewrite (dfsWalk_runStop _ visitFunc_quiet _ _ _ _ _ Hl1), runStop_visitFunc in E.
  injection E as <-. simpl. intros Hr.
  destruct (IHcs _ Hr) as [l2 ->]. simpl. eauto.
Qed.

Lemma dfsWalk_visits_is_Some fuel ign h root acc r :
  dfsWalk visitFunc fuel ign root (h, acc) = Some r →
  is_Some (visits fuel ign h root).
Proof.
  revert root acc r. induction fuel as [|fuel IH]; intros root acc r; simpl; [done|].
  destruct (h !! root) as [nd|] eqn:Hnd; simpl; [|done].
  assert (∀ acc1 : list ptr,
    (nd1 ← h !! root;
     if negb ign && negb (CanExecuteChild nd1) then Some ((h, acc1), true)
     else walkChildren (dfsWalk visitFunc fuel ign) (children nd1) (h, acc1))
      = Some r →
    is_Some (if negb ign && negb (CanExecuteChild nd)
             then Some (if bool_decide (TaskInsID nd ≠ virtualTaskRootID)
                        then [root] else [])
             else l ← visitsChildren (visits fuel ign h) h (children nd);
                  Some ((if bool_decide (TaskInsID nd ≠ virtualTaskRootID)
                         then [root] else []) ++ l))) as Hrest.
  { intros acc1. rewrite Hnd. simpl.
    destruct (negb ign && negb (CanExecuteChild nd)); [by eauto|].
    intros Hr. eapply walkChildren_visits_is_Some in Hr as [l ->]; [|done].
    simpl. eauto. }
  case_bool_decide; simpl; apply Hrest.
Qed.

(** [visits] is the call order of the source walk. *)
Lemma gatedWalk_visits fuel h t l :
  gatedWalk fuel h t = Some l ↔ visits fuel false h t = Some l.
Proof.
  unfold gatedWalk, walkNode. split.
  - destruct (dfsWalk visitFunc fuel false t (h, [])) as [r|] eqn:E; [|done].
    destruct (dfsWalk_visits_is_Some _ _ _ _ _ _ E) as [l' Hl'].
    rewrite (dfsWalk_runStop _ visitFunc_quiet _ _ _ _ _ Hl'), runStop_visitFunc in E.
    injection E as <-. simpl. by intros [= <-].
  - intros Hv.
    by rewrite (dfsWalk_runStop _ visitFunc_quiet _ _ _ _ _ Hv), runStop_visitFunc.
Qed.

(** Every node handed to the callback is allocated. *)
Lemma visitsChildren_valid walk h cs l :
  (∀ c l', walk c = Some l' → Forall (λ q, is_Some (h !! q)) l') →
  visitsChildren walk h cs = Some l → Forall (λ q, is_Some (h !! q)) l.
Proof.
  intros Hwalk. revert l. induction cs as [|c cs IH]; intros l; simpl.
  - by intros [= <-].
  - destruct (skipChild h c) as [[|]|]; simpl; try done; [by apply IH|].
    destruct (walk c) as [l1|] eqn:E1; simpl; [|done].
    destruct (visitsChildren walk h cs) as [l2|]; simpl; [|done].
    intros [= <-]. apply Forall_app; eauto.
Qed.

Lemma visits_valid fuel ign h root l :
  visits fuel ign h root = Some l → Forall (λ q, is_Some (h !! q)) l.
Proof.
  revert root l. induction fuel as [|fuel IH]; intros root l; simpl; [done|].
  destruct (h !! root) as [nd|] eqn:Hnd; simpl; [|done].
  assert (Forall (λ q, is_Some (h !! q))
            (if bool_decide (TaskInsID nd ≠ virtualTaskRootID) then [root] else []))
    as Hown.
  { case_bool_decide; [|done]. apply Forall_singleton. by rewrite Hnd. }
  destruct (negb ign && negb (CanExecuteChild nd)); [by intros [= <-]|].
  destruct (visitsChildren _ h (children nd)) as [l'|] eqn:E; simpl; [|done].
  intros [= <-]. apply Forall_app. split; [done|].
  eapply visitsChildren_valid; [|done]. intros c l0. apply IH.
Qed.

(** * The status aggregator *)

Lemma decider_cons nd nodes :
  decider (nd :: nodes) =
    if isInflight nd then Some nd else
    match decider nodes with
    | Some x => Some x
    | None => if CanExecuteChild nd then None else Some nd
    end.
Proof.
  unfold decider. rewrite filter_cons. cbn [list_find].
  destruct (isInflight nd) eqn:Hi.
  - by rewrite decide_True.
  - rewrite decide_False by (by intros []).
    destruct (list_find _ nodes) as [[i x]|]; simpl; [done|].
    destruct (CanExecuteChild nd) eqn:Hc; simpl.
    + by destruct (last _).
    + rewrite last_cons. by destruct (last _).
Qed.

Lemma computeStatusFunc_step h q nd acc :
  h !! q = Some nd →
  computeStatusFunc q (h, acc) =
    Some ((h, if isInflight nd || negb (CanExecuteChild nd)
              then (treeStatusOf (Status nd), TaskInsID nd) else acc),
          negb (isInflight nd)).
Proof.
  intros Hq. unfold computeStatusFunc, isInflight, CanExecuteChild. simpl.
  rewrite Hq. simpl. by destruct (Status nd).
Qed.

Lemma runStop_computeStatusFunc h l acc :
  Forall (λ q, is_Some (h !! q)) l →
  ∃ b, runStop computeStatusFunc l (h, acc) =
    Some ((h, match decider (nodesAt h l) with
              | Some nd => (treeStatusOf (Status nd), TaskInsID nd)
              | None => acc
              end), b).
Proof.
  intros Hl. revert acc. induction Hl as [|q l [nd Hq] _ IH]; intros acc.
  - simpl. eauto.
  - unfold nodesAt in *. cbn [runStop omap list_omap]. rewrite Hq.
    rewrite decider_cons, (computeStatusFunc_step _ _ _ _ Hq). simpl.
    destruct (isInflight nd) eqn:Hi; simpl; [by eauto|].
    destruct (IH (if negb (CanExecuteChild nd)
                  then (treeStatusOf (Status nd), TaskInsID nd) else acc))
      as [b ->].
    exists b. do 3 f_equal.
    destruct (decider _); [done|]. by destruct (CanExecuteChild nd).
Qed.

Lemma computeStatusFunc_quiet : quiet computeStatusFunc.
Proof.
  intros q [h acc] st'. unfold computeStatusFunc. simpl.
  destruct (h !! q) as [nd|]; simpl; [|done].
  destruct (Status nd); by intros [= <-].
Qed.

(** C1 (as amended): the verdict of the full walk is decided by the first
    in-flight node of the walk order, or, when no visited node is in flight,
    by the last visited node that is Failed, Canceled or Blocked. *)
Theorem ComputeStatus_walk_verdict store fuel h t l :
  fastPath store h t = Some false →
  gatedWalk fuel h t = Some l →
  ComputeStatus store fuel h t = Some (h, rollup (nodesAt h l)).
Proof.
  intros Hfast Hl%gatedWalk_visits. unfold ComputeStatus. rewrite Hfast. simpl.
  unfold computeStatusWalk, walkNode.
  rewrite (dfsWalk_runStop _ computeStatusFunc_quiet _ _ _ _ _ Hl).
  destruct (runStop_computeStatusFunc h l (TreeStatusUnset, "")
              (visits_valid _ _ _ _ _ Hl)) as [b ->].
  simpl. unfold rollup. destruct (decider _) as [nd|]; simpl; [|done].
  case_bool_decide; by rewrite ?bool_decide_eq_true_2, ?bool_decide_eq_false_2.
Qed.

Lemma ComputeStatus_walk_verdict_witness :
  fastPath failingStore failedThenBlockedHeap 0 = Some false ∧
  gatedWalk 3 failedThenBlockedHeap 0 = Some [1; 2] ∧
  ComputeStatus failingStore 3 failedThenBlockedHeap 0 =
    Some (failedThenBlockedHeap, rollup (nodesAt failedThenBlockedHeap [1; 2])) ∧
  rollup (nodesAt failedThenBlockedHeap [1; 2]) = (TreeStatusBlocked, "B").
Proof.
  split; [by vm_compute|]. split; [by vm_compute|]. split; [|by vm_compute].
  apply (ComputeStatus_walk_verdict failingStore 3 failedThenBlockedHeap 0 [1; 2]);
    by vm_compute.
Defined.

(** C1 (as stated) fails: the walk reaches the Failed node A first and the
    Blocked node B second, and the result is Blocked sourced at B. *)
Lemma ComputeStatus_failed_overwritten :
  BuildRootNode failedThenBlocked = Built (failedThenBlockedHeap, 0) ∧
  gatedWalk 3 failedThenBlockedHeap 0 = Some [1; 2] ∧
  (TaskInsID <$> failedThenBlockedHeap !! 1) = Some "A" ∧
  (Status <$> failedThenBlockedHeap !! 1) = Some TaskInstanceStatusFailed ∧
  fastPath failingStore failedThenBlockedHeap 0 = Some false ∧
  ComputeStatus failingStore 3 failedThenBlockedHeap 0 =
    Some (failedThenBlockedHeap, (TreeStatusBlocked, "B")) ∧
  ComputeStatus failingStore 3 failedThenBlockedHeap 0 ≠
    Some (failedThenBlockedHeap, (TreeStatusFailed, "A")).
Proof. repeat split; by vm_compute. Qed.

(** The full walk of [ComputeStatus] returns the verdict of the walk order. *)
Lemma computeStatusWalk_rollup fuel h t l :
  gatedWalk fuel h t = Some l →
  computeStatusWalk fuel h t = Some (h, rollup (nodesAt h l)).
Proof.
  intros Hl%gatedWalk_visits. unfold computeStatusWalk, walkNode.
  rewrite (dfsWalk_runStop _ computeStatusFunc_quiet _ _ _ _ _ Hl).
  destruct (runStop_computeStatusFunc h l (TreeStatusUnset, "")
              (visits_valid _ _ _ _ _ Hl)) as [b ->].
  simpl. unfold rollup. destruct (decider _) as [nd|]; simpl; [|done].
  case_bool_decide; by rewrite ?bool_decide_eq_true_2, ?bool_decide_eq_false_2.
Qed.

(** C7: a failed or unsuccessful end-marker lookup is no error:
    [ComputeStatus] then returns what the full gated walk gives, the
    verdict decided along the walk order whenever that walk returns; and a
    lookup that finds the end marker alone in status Success makes it
    return Success with an empty source, whatever the heap holds and for
    any fuel. *)
Theorem ComputeStatus_fast_path store fuel (h : heap) (t c0 : ptr) tn cn :
  h !! t = Some tn → children tn !! 0 = Some c0 → h !! c0 = Some cn →
  ((GetTaskIns store (TaskInsID cn) = None ∨
    ∃ taskIns, GetTaskIns store (TaskInsID cn) = Some taskIns ∧
      let input := {| inputDagInsID := DagInsID taskIns;
                      inputTaskID := TaskEndID |} in
      (ListTaskInstance store input = None ∨
       ListTaskInstance store input = Some [] ∨
       (∃ e1 e2 es, ListTaskInstance store input = Some (e1 :: e2 :: es)) ∨
       ∃ endTask, ListTaskInstance store input = Some [endTask] ∧
                  InsStatus endTask ≠ TaskInstanceStatusSuccess)) →
   ComputeStatus store fuel h t = computeStatusWalk fuel h t ∧
   ∀ l, gatedWalk fuel h t = Some l →
        ComputeStatus store fuel h t = Some (h, rollup (nodesAt h l))) ∧
  (∀ taskIns endTask,
     GetTaskIns store (TaskInsID cn) = Some taskIns →
     ListTaskInstance store
       {| inputDagInsID := DagInsID taskIns; inputTaskID := TaskEndID |}
       = Some [endTask] →
     InsStatus endTask = TaskInstanceStatusSuccess →
     ComputeStatus store fuel h t = Some (h, (TreeStatusSuccess, ""))).
Proof.
  intros Ht Hc0 Hcn.
  assert (ComputeStatus store fuel h t =
            if endMarkerSucceeded store cn
            then Some (h, (TreeStatusSuccess, ""))
            else computeStatusWalk fuel h t) as ->.
  { unfold ComputeStatus, fastPath.
    rewrite Ht. cbn [mbind option_bind]. rewrite Hc0. cbn [mbind option_bind].
    by rewrite Hcn. }
  unfold endMarkerSucceeded. split.
  - intros Hfail.
    assert (match GetTaskIns store (TaskInsID cn) with
            | Some taskIns =>
                match ListTaskInstance store
                        {| inputDagInsID := DagInsID taskIns;
                           inputTaskID := TaskEndID |} with
                | Some [endTask] =>
                    bool_decide (InsStatus endTask = TaskInstanceStatusSuccess)
                | _ => false
                end
            | None => false
            end = false) as ->.
    { destruct Hfail as [->|(taskIns & -> & Hlist)]; [done|]. simpl in Hlist.
      destruct Hlist as [->|[->|[(e1 & e2 & es & ->)|(endTask & -> & Hs)]]];
        try done.
      by rewrite bool_decide_eq_false_2. }
    split; [done|]. intros l Hl. by apply computeStatusWalk_rollup.
  - intros taskIns endTask -> -> Hs. by rewrite bool_decide_eq_true_2.
Qed.

Lemma ComputeStatus_fast_path_witness :
  (ComputeStatus failingStore 3 failedThenBlockedHeap 0 =
     computeStatusWalk 3 failedThenBlockedHeap 0 ∧
   ComputeStatus failingStore 3 failedThenBlockedHeap 0 =
     Some (failedThenBlockedHeap,
           rollup (nodesAt failedThenBlockedHeap [1; 2]))) ∧
  rollup (nodesAt failedThenBlockedHeap [1; 2]) = (TreeStatusBlocked, "B") ∧
  ComputeStatus endedStore 0 failedThenBlockedHeap 0 =
    Some (failedThenBlockedHeap, (TreeStatusSuccess, "")).
Proof.
  split; [|split; [by vm_compute|]].
  - assert (gatedWalk 3 failedThenBlockedHeap 0 = Some [1; 2]) as Hl
      by (by vm_compute).
    destruct (ComputeStatus_fast_path failingStore 3 failedThenBlockedHeap 0 1
                {| TaskInsID := virtualTaskRootID;
                   Status := TaskInstanceStatusSuccess;
                   children := [1; 2]; parents := [] |}
                {| TaskInsID := "A"; Status := TaskInstanceStatusFailed;
                   children := []; parents := [0] |})
      as [Hfall _]; [by vm_compute..|].
    destruct Hfall as [Hwalk Hverdict]; [by left|].
    split; [done|]. by apply Hverdict.
  - eapply (ComputeStatus_fast_path endedStore 0 failedThenBlockedHeap 0);
      by vm_compute.
Defined.

(** * Fuel *)

Section Mono.
Context {A : Type}.
Variable walkFunc : ptr → heap * A → option ((heap * A) * bool).

Lemma walkChildren_mono
    (walk walk' : ptr → heap * A → option ((heap * A) * bool)) cs st r :
  (∀ c st r, walk c st = Some r → walk' c st = Some r) →
  walkChildren walk cs st = Some r → walkChildren walk' cs st = Some r.
Proof.
  intros Hw. revert st. induction cs as [|c cs IH]; intros st; simpl; [done|].
  destruct (skipChild st.1 c) as [[|]|]; simpl; try done; [by apply IH|].
  destruct (walk c st) as [[st1 b]|] eqn:E; simpl; [|done].
  rewrite (Hw _ _ _ E). simpl. destruct b; [by apply IH|done].
Qed.

(** More fuel never changes a result. *)
Lemma dfsWalk_mono (fuel fuel' : nat) ign root st r :
  (fuel ≤ fuel')%nat →
  dfsWalk walkFunc fuel ign root st = Some r →
  dfsWalk walkFunc fuel' ign root st = Some r.
Proof.
  revert fuel' root st r. induction fuel as [|fuel IH]; intros fuel' root st r Hle;
    simpl; [done|].
  destruct fuel' as [|fuel']; [lia|]. simpl.
  destruct (st.1 !! root) as [nd|]; simpl; [|done].
  destruct (if bool_decide (TaskInsID nd ≠ virtualTaskRootID)
            then walkFunc root st else Some (st, true)) as [[st1 b]|];
    simpl; [|done].
  destruct b; simpl; [|done].
  destruct (st1.1 !! root) as [nd1|]; simpl; [|done].
  destruct (negb ign && negb (CanExecuteChild nd1)); [done|].
  apply walkChildren_mono. intros c st' r'. apply IH. lia.
Qed.
End Mono.

Lemma diamondHeap_eq a b c d :
  diamondHeap a b c d =
    [ {| TaskInsID := virtualTaskRootID; Status := TaskInstanceStatusSuccess;
         children := [1]; parents := [] |};
      {| TaskInsID := "A"; Status := a; children := [2; 3]; parents := [0] |};
      {| TaskInsID := "B"; Status := b; children := [4]; parents := [1] |};
      {| TaskInsID := "C"; Status := c; children := [4]; parents := [1] |};
      {| TaskInsID := "D"; Status := d; children := []; parents := [2; 3] |} ].
Proof. by vm_compute. Qed.

Lemma diamond_built a b c d :
  BuildRootNode (diamond a b c d) = Built (diamondHeap a b c d, 0).
Proof. by vm_compute. Qed.

(** * Executable nodes *)

Lemma parentsProceed_true h ps :
  parentsProceed h ps = Some true ↔ Forall (proceeds h) ps.
Proof.
  induction ps as [|p ps IH]; simpl; [by split|].
  rewrite Forall_cons, <- IH. unfold proceeds.
  destruct (h !! p) as [pn|]; simpl.
  - destruct (CanExecuteChild pn) eqn:E.
    + split; [by eauto|tauto].
    + split; [done|]. intros [(pn' & [= <-] & Hp) _]. by rewrite E in Hp.
  - split; [done|]. by intros [(pn' & [=] & _) _].
Qed.

Lemma runnableStatus_elem_of s :
  runnableStatus s = true ↔
    s ∈ [TaskInstanceStatusInit; TaskInstanceStatusRetrying;
         TaskInstanceStatusContinue; TaskInstanceStatusEnding].
Proof.
  rewrite !elem_of_cons, elem_of_nil.
  destruct s; (split; [by eauto 10|done]) ||
              (split; [done|by intros [?|[?|[?|[?|[]]]]]]).
Qed.

Lemma Executable_true h nd :
  Executable h nd = Some true ↔
    Status nd ∈ [TaskInstanceStatusInit; TaskInstanceStatusRetrying;
                 TaskInstanceStatusContinue; TaskInstanceStatusEnding] ∧
    (parents nd = [] ∨ Forall (proceeds h) (parents nd)).
Proof.
  rewrite <- runnableStatus_elem_of. unfold Executable.
  destruct (runnableStatus (Status nd)); [|by split; [|intros []]].
  destruct (parents nd) as [|p ps] eqn:Hps; [by split; eauto|].
  rewrite parentsProceed_true. split; [by eauto|by intros [_ [?|?]]].
Qed.

Lemma diamond_finder a b c :
  ∃ ids, GetExecutableTaskIds 4 (diamondHeap a b c TaskInstanceStatusInit) 0
           = Some (diamondHeap a b c TaskInstanceStatusInit, ids) ∧
         bool_decide ("D" ∈ ids) = okStatus a && okStatus b && okStatus c.
Proof.
  rewrite diamondHeap_eq.
  destruct a, b, c; vm_compute; eexists; split; reflexivity.
Qed.

Lemma GetExecutableTaskIds_mono (fuel fuel' : nat) h t r :
  (fuel ≤ fuel')%nat →
  GetExecutableTaskIds fuel h t = Some r → GetExecutableTaskIds fuel' h t = Some r.
Proof.
  unfold GetExecutableTaskIds, walkNode. intros Hle.
  destruct (dfsWalk executableFunc fuel false t (h, [])) as [r'|] eqn:E; [|done].
  by rewrite (dfsWalk_mono _ _ _ _ _ _ _ Hle E).
Qed.

(** C4 (as amended): the executable predicate holds exactly for a node whose
    status is Init, Retrying, Continue or Ending and whose parents, if it
    has any, all have status Success or Skipped.  In the diamond with D in
    status Init, D satisfies the predicate exactly when B and C both have
    status Success or Skipped, and the finder called on the root lists D
    exactly when A, B and C all have status Success or Skipped: the walk
    has to get past A to reach D. *)
Theorem Executable_iff_diamond :
  (∀ h nd,
     Executable h nd = Some true ↔
       Status nd ∈ [TaskInstanceStatusInit; TaskInstanceStatusRetrying;
                    TaskInstanceStatusContinue; TaskInstanceStatusEnding] ∧
       (parents nd = [] ∨ Forall (proceeds h) (parents nd))) ∧
  (∀ a b c,
     let h := diamondHeap a b c TaskInstanceStatusInit in
     BuildRootNode (diamond a b c TaskInstanceStatusInit) = Built (h, 0) ∧
     (∃ nodeB nodeC nodeD,
        h !! 2 = Some nodeB ∧ TaskInsID nodeB = "B" ∧ Status nodeB = b ∧
        h !! 3 = Some nodeC ∧ TaskInsID nodeC = "C" ∧ Status nodeC = c ∧
        h !! 4 = Some nodeD ∧ TaskInsID nodeD = "D" ∧
        Status nodeD = TaskInstanceStatusInit ∧ parents nodeD = [2; 3] ∧
        Executable h nodeD = Some (okStatus b && okStatus c)) ∧
     (∃ ids, GetExecutableTaskIds 4 h 0 = Some (h, ids) ∧
             ("D" ∈ ids ↔ okStatus a ∧ okStatus b ∧ okStatus c)) ∧
     (∀ fuel r, GetExecutableTaskIds fuel h 0 = Some r →
                ("D" ∈ r.2 ↔ okStatus a ∧ okStatus b ∧ okStatus c))).
Proof.
  split; [apply Executable_true|]. intros a b c h.
  split; [apply diamond_built|].
  destruct (diamond_finder a b c) as (ids & Hids & Hin). fold h in Hids.
  assert ("D" ∈ ids ↔ okStatus a ∧ okStatus b ∧ okStatus c) as Hiff.
  { rewrite <- (bool_decide_spec ("D" ∈ ids)), Hin.
    destruct (okStatus a), (okStatus b), (okStatus c); simpl; tauto. }
  split; [|split].
  - subst h. rewrite diamondHeap_eq. do 3 eexists.
    repeat (split; [reflexivity|]). by destruct b, c.
  - by exists ids.
  - intros fuel r Hr.
    apply (GetExecutableTaskIds_mono _ (fuel `max` 4)) in Hr; [|lia].
    apply (GetExecutableTaskIds_mono _ (fuel `max` 4)) in Hids; [|lia].
    rewrite Hr in Hids. by injection Hids as ->.
Qed.

(** C4 (as stated) fails: with A Failed and B and C succeeded, D satisfies
    the executable predicate, yet the walk stops at A and the finder
    returns no identity, whatever the fuel. *)
Lemma GetExecutableTaskIds_diamond_stops_above :
  BuildRootNode (diamond TaskInstanceStatusFailed TaskInstanceStatusSuccess
                   TaskInstanceStatusSuccess TaskInstanceStatusInit) =
    Built (diamondHeap TaskInstanceStatusFailed TaskInstanceStatusSuccess
             TaskInstanceStatusSuccess TaskInstanceStatusInit, 0) ∧
  (Status <$> diamondHeap TaskInstanceStatusFailed TaskInstanceStatusSuccess
                TaskInstanceStatusSuccess TaskInstanceStatusInit !! 2) =
    Some TaskInstanceStatusSuccess ∧
  (Status <$> diamondHeap TaskInstanceStatusFailed TaskInstanceStatusSuccess
                TaskInstanceStatusSuccess TaskInstanceStatusInit !! 3) =
    Some TaskInstanceStatusSuccess ∧
  (∃ nodeD,
     diamondHeap TaskInstanceStatusFailed TaskInstanceStatusSuccess
       TaskInstanceStatusSuccess TaskInstanceStatusInit !! 4 = Some nodeD ∧
     TaskInsID nodeD = "D" ∧ Status nodeD = TaskInstanceStatusInit ∧
     parents nodeD = [2; 3] ∧
     Executable (diamondHeap TaskInstanceStatusFailed TaskInstanceStatusSuccess
                   TaskInstanceStatusSuccess TaskInstanceStatusInit) nodeD =
       Some true) ∧
  GetExecutableTaskIds 4
    (diamondHeap TaskInstanceStatusFailed TaskInstanceStatusSuccess
       TaskInstanceStatusSuccess TaskInstanceStatusInit) 0 =
    Some (diamondHeap TaskInstanceStatusFailed TaskInstanceStatusSuccess
            TaskInstanceStatusSuccess TaskInstanceStatusInit, []) ∧
  (∀ fuel r,
     GetExecutableTaskIds fuel
       (diamondHeap TaskInstanceStatusFailed TaskInstanceStatusSuccess
          TaskInstanceStatusSuccess TaskInstanceStatusInit) 0 = Some r →
     r.2 = []).
Proof.
  assert (GetExecutableTaskIds 4
            (diamondHeap TaskInstanceStatusFailed TaskInstanceStatusSuccess
               TaskInstanceStatusSuccess TaskInstanceStatusInit) 0 =
          Some (diamondHeap TaskInstanceStatusFailed TaskInstanceStatusSuccess
                  TaskInstanceStatusSuccess TaskInstanceStatusInit, []))
    as Hrun by (by vm_compute).
  split; [by vm_compute|]. split; [by vm_compute|]. split; [by vm_compute|].
  split; [|split; [done|]].
  - rewrite diamondHeap_eq. eexists. by repeat (split; [reflexivity|]).
  - intros fuel r Hr.
    apply (GetExecutableTaskIds_mono _ (fuel `max` 4)) in Hr; [|lia].
    apply (GetExecutableTaskIds_mono _ (fuel `max` 4)) in Hrun; [|lia].
    rewrite Hr in Hrun. by injection Hrun as ->.
Qed.

(** C2, evaluated on the diamond whose tasks A, B and C have succeeded: the
    walk reaches D once through B and once through C, and lists it twice. *)
Theorem GetExecutableTaskIds_diamond_twice :
  BuildRootNode (diamond TaskInstanceStatusSuccess TaskInstanceStatusSuccess
                   TaskInstanceStatusSuccess TaskInstanceStatusInit)
    = Built (diamondHeap TaskInstanceStatusSuccess TaskInstanceStatusSuccess
               TaskInstanceStatusSuccess TaskInstanceStatusInit, 0) ∧
  GetExecutableTaskIds 4
    (diamondHeap TaskInstanceStatusSuccess TaskInstanceStatusSuccess
       TaskInstanceStatusSuccess TaskInstanceStatusInit) 0
    = Some (diamondHeap TaskInstanceStatusSuccess TaskInstanceStatusSuccess
              TaskInstanceStatusSuccess TaskInstanceStatusInit, ["D"; "D"]) ∧
  ¬ NoDup ["D"; "D"].
Proof.
  split; [by vm_compute|]. split; [by vm_compute|].
  intros Hnd. apply NoDup_cons in Hnd as [Hnin _]. apply Hnin. by left.
Qed.

(** * The incremental advancer *)

Lemma nextTaskFunc_quiet task : quiet (nextTaskFunc task).
Proof.
  intros q [h acc] st'. unfold nextTaskFunc. simpl.
  destruct (h !! q) as [nd|]; simpl; [|done].
  case_bool_decide; [|by intros [= <-]].
  case_bool_decide; [done|].
  destruct (negb _); [done|].
  by destruct (executableChildren _ _).
Qed.

Lemma nextTaskFunc_other task (h : heap) q nd acc :
  h !! q = Some nd → TaskInsID nd ≠ ID task →
  nextTaskFunc task q (h, acc) = Some ((h, acc), true).
Proof.
  intros Hq Hne. unfold nextTaskFunc. simpl. rewrite Hq. simpl.
  by rewrite bool_decide_eq_false_2.
Qed.

Lemma runStop_nextTaskFunc_others task (h : heap) l1 l2 acc :
  (∀ q nd, q ∈ l1 → h !! q = Some nd → TaskInsID nd ≠ ID task) →
  Forall (λ q, is_Some (h !! q)) l1 →
  runStop (nextTaskFunc task) (l1 ++ l2) (h, acc) =
    runStop (nextTaskFunc task) l2 (h, acc).
Proof.
  intros Hne Hval. induction Hval as [|q l1 [nd Hq] _ IH]; [done|].
  simpl. rewrite (nextTaskFunc_other _ _ _ _ _ Hq); [|by eapply Hne; [left|]].
  simpl. apply IH. intros q' nd' Hin. apply Hne. by right.
Qed.

(** C10: when no node handed to the callback by the gated walk carries the
    identity of the record, [GetNextTaskIds] reports found=false with an
    empty list and leaves the heap as it was. *)
Theorem GetNextTaskIds_not_reached fuel (h : heap) t task l :
  gatedWalk fuel h t = Some l →
  (∀ q nd, q ∈ l → h !! q = Some nd → TaskInsID nd ≠ ID task) →
  GetNextTaskIds fuel h t task = Some (h, ([], false)).
Proof.
  intros Hl%gatedWalk_visits Hne. unfold GetNextTaskIds, walkNode.
  rewrite (dfsWalk_runStop _ (nextTaskFunc_quiet task) _ _ _ _ _ Hl).
  rewrite <- (app_nil_r l).
  rewrite runStop_nextTaskFunc_others; [done..|].
  by eapply visits_valid.
Qed.

Lemma nextTaskFunc_stops task (h : heap) p nd acc r :
  h !! p = Some nd → TaskInsID nd = ID task →
  nextTaskFunc task p (h, acc) = Some r → r.2 = false.
Proof.
  intros Hp Hid. unfold nextTaskFunc. simpl. rewrite Hp. simpl.
  rewrite bool_decide_eq_true_2 by done.
  case_bool_decide; [by intros [= <-]|].
  destruct (negb _); [by intros [= <-]|].
  destruct (executableChildren _ _); simpl; [by intros [= <-]|done].
Qed.

(** The walk of [GetNextTaskIds] ends at the first node that carries the
    identity of the record, with the result of the callback there. *)
Lemma GetNextTaskIds_reached fuel (h : heap) t task l1 p l2 nd :
  gatedWalk fuel h t = Some (l1 ++ p :: l2) →
  (∀ q qn, q ∈ l1 → h !! q = Some qn → TaskInsID qn ≠ ID task) →
  h !! p = Some nd → TaskInsID nd = ID task →
  GetNextTaskIds fuel h t task = fst <$> nextTaskFunc task p (h, ([], false)).
Proof.
  intros Hl%gatedWalk_visits Hne Hp Hid. unfold GetNextTaskIds, walkNode.
  rewrite (dfsWalk_runStop _ (nextTaskFunc_quiet task) _ _ _ _ _ Hl).
  rewrite runStop_nextTaskFunc_others; [|done|].
  - simpl. destruct (nextTaskFunc task p (h, ([], false))) as [r|] eqn:E;
      simpl; [|done].
    by rewrite (nextTaskFunc_stops _ _ _ _ _ _ Hp Hid E).
  - apply visits_valid in Hl. by apply Forall_app in Hl as [? _].
Qed.

(** C8: a record in status Init that reaches its node sets the node to Init,
    returns the node's own identity alone with found=true, and changes no
    other node: its children keep their statuses. *)
Theorem GetNextTaskIds_init fuel (h : heap) t task l1 p l2 nd :
  gatedWalk fuel h t = Some (l1 ++ p :: l2) →
  (∀ q qn, q ∈ l1 → h !! q = Some qn → TaskInsID qn ≠ ID task) →
  h !! p = Some nd → TaskInsID nd = ID task →
  InsStatus task = TaskInstanceStatusInit →
  let h' := <[p := setStatus TaskInstanceStatusInit nd]> h in
  GetNextTaskIds fuel h t task = Some (h', ([TaskInsID nd], true)) ∧
  h' !! p = Some (setStatus TaskInstanceStatusInit nd) ∧
  (∀ q, q ≠ p → h' !! q = h !! q) ∧
  (∀ c, c ∈ children nd → c ≠ p → Status <$> h' !! c = Status <$> h !! c).
Proof.
  intros Hl Hne Hp Hid Hs h'.
  assert (∀ q, q ≠ p → h' !! q = h !! q) as Hother.
  { intros q Hq. by apply list_lookup_insert_ne. }
  split; [|split; [|split]]; [| |done|].
  - rewrite (GetNextTaskIds_reached _ _ _ _ _ _ _ _ Hl Hne Hp Hid).
    unfold nextTaskFunc. simpl. rewrite Hp. simpl.
    rewrite bool_decide_eq_true_2 by done. rewrite Hs.
    by rewrite bool_decide_eq_true_2.
  - apply list_lookup_insert_eq. by eapply lookup_lt_Some.
  - intros c _ Hc. by rewrite Hother.
Qed.

Lemma parentsProceed_total h ps :
  Forall (λ q, q < length h)%nat ps → is_Some (parentsProceed h ps).
Proof.
  induction 1 as [|q ps Hq _ IH]; simpl; [by eauto|].
  destruct (lookup_lt_is_Some_2 h q Hq) as [qn ->]. simpl.
  by destruct (CanExecuteChild qn).
Qed.

Lemma Executable_total h nd :
  Forall (λ q, q < length h)%nat (parents nd) → is_Some (Executable h nd).
Proof.
  intros Hps. unfold Executable. destruct (runnableStatus _); [|by eauto].
  destruct (parents nd) eqn:E; [by eauto|]. by apply parentsProceed_total.
Qed.

Lemma executableChildren_filter h cs :
  linksValid h → Forall (λ c, c < length h)%nat cs →
  executableChildren h cs =
    Some (TaskInsID <$> filter (λ cn, Executable h cn = Some true) (nodesAt h cs)).
Proof.
  intros Hval. induction 1 as [|c cs Hc _ IH]; [done|].
  unfold nodesAt in *. cbn [executableChildren omap list_omap].
  destruct (lookup_lt_is_Some_2 h c Hc) as [cn Hcn]. rewrite Hcn. simpl.
  destruct (Executable_total h cn) as [e He]; [by eapply Hval|].
  rewrite He, IH. simpl. rewrite filter_cons. destruct e.
  - by rewrite decide_True.
  - by rewrite decide_False by (by rewrite He).
Qed.

Lemma linksValid_setStatus h p nd s :
  h !! p = Some nd → linksValid h → linksValid (<[p := setStatus s nd]> h).
Proof.
  intros Hp Hval q qn. rewrite length_insert.
  destruct (decide (q = p)) as [->|Hq].
  - rewrite list_lookup_insert_eq by (by eapply lookup_lt_Some).
    intros [= <-]. simpl. by eapply Hval.
  - rewrite list_lookup_insert_ne by done. apply Hval.
Qed.

Lemma CanExecuteChild_setStatus s nd :
  CanExecuteChild (setStatus s nd) = okStatus s.
Proof. done. Qed.

Lemma proceeds_setStatus h p nd s q :
  h !! p = Some nd → okStatus s = true →
  proceeds (<[p := setStatus s nd]> h) q ↔ (q ≠ p → proceeds h q).
Proof.
  intros Hp Hs. unfold proceeds. destruct (decide (q = p)) as [->|Hq].
  - rewrite list_lookup_insert_eq by (by eapply lookup_lt_Some).
    split; [done|]. intros _. eexists. split; [done|].
    by rewrite CanExecuteChild_setStatus, Hs.
  - rewrite list_lookup_insert_ne by done. tauto.
Qed.

(** C5: a record in status Success or Skipped that reaches its node
    overwrites the node's status and returns, with found=true, the
    identities of exactly those direct children that satisfy the executable
    predicate afterwards: the children in a runnable status whose other
    parents all let their children proceed. *)
Theorem GetNextTaskIds_proceed fuel (h : heap) t task l1 p l2 nd :
  linksValid h →
  gatedWalk fuel h t = Some (l1 ++ p :: l2) →
  (∀ q qn, q ∈ l1 → h !! q = Some qn → TaskInsID qn ≠ ID task) →
  h !! p = Some nd → TaskInsID nd = ID task →
  InsStatus task ∈ [TaskInstanceStatusSuccess; TaskInstanceStatusSkipped] →
  let h' := <[p := setStatus (InsStatus task) nd]> h in
  GetNextTaskIds fuel h t task =
    Some (h', (TaskInsID <$> filter (λ cn, Executable h' cn = Some true)
                               (nodesAt h' (children nd)), true)) ∧
  (∀ cn, Executable h' cn = Some true ↔
     Status cn ∈ [TaskInstanceStatusInit; TaskInstanceStatusRetrying;
                  TaskInstanceStatusContinue; TaskInstanceStatusEnding] ∧
     ∀ q, q ∈ parents cn → q ≠ p → proceeds h q).
Proof.
  intros Hval Hl Hne Hp Hid Hs h'.
  assert (okStatus (InsStatus task) = true) as Hok.
  { rewrite !elem_of_cons, elem_of_nil in Hs. by destruct Hs as [->|[->|[]]]. }
  assert (InsStatus task ≠ TaskInstanceStatusInit) as Hni.
  { intros E. by rewrite E in Hok. }
  split.
  - rewrite (GetNextTaskIds_reached _ _ _ _ _ _ _ _ Hl Hne Hp Hid).
    unfold nextTaskFunc. simpl. rewrite Hp. simpl.
    rewrite bool_decide_eq_true_2 by done.
    rewrite bool_decide_eq_false_2 by done.
    rewrite CanExecuteChild_setStatus, Hok. simpl. fold h'.
    rewrite executableChildren_filter; [done|by apply linksValid_setStatus|].
    unfold h'. rewrite length_insert. by eapply Hval.
  - intros cn. rewrite Executable_true.
    apply and_iff_compat_l. rewrite Forall_forall. split.
    + intros [Hnil|Hall] q Hq Hqp.
      * rewrite Hnil in Hq. by apply elem_of_nil in Hq.
      * by eapply (proceeds_setStatus h p nd); [..|apply Hall|].
    + intros Hall. right. intros q Hq.
      apply (proceeds_setStatus h p nd); [done..|]. by apply Hall.
Qed.

(** * Frame properties *)

Section Frame.
Context {A : Type}.
Variable walkFunc : ptr → heap * A → option ((heap * A) * bool).
(** What the callback may do to the heap when it stops the walk. *)
Variable R : heap → heap → Prop.
Hypothesis R_refl : ∀ h, R h h.
Hypothesis walkFunc_frame : ∀ p st st' b,
  walkFunc p st = Some (st', b) → (b = true → st'.1 = st.1) ∧ R st.1 st'.1.

Lemma walkChildren_frame
    (walk : ptr → heap * A → option ((heap * A) * bool)) cs st st' b :
  (∀ c st st' b, walk c st = Some (st', b) →
                 (b = true → st'.1 = st.1) ∧ R st.1 st'.1) →
  walkChildren walk cs st = Some (st', b) →
  (b = true → st'.1 = st.1) ∧ R st.1 st'.1.
Proof.
  intros Hwalk. revert st. induction cs as [|c cs IH]; intros st; simpl.
  - intros [= <- <-]. auto.
  - destruct (skipChild st.1 c) as [[|]|]; simpl; try done; [by apply IH|].
    destruct (walk c st) as [[st1 b1]|] eqn:E; simpl; [|done].
    apply Hwalk in E as [Heq HR]. destruct b1.
    + intros Hr. apply IH in Hr. rewrite Heq in Hr; done.
    + by intros [= <- <-].
Qed.

Lemma dfsWalk_frame fuel ign root st st' b :
  dfsWalk walkFunc fuel ign root st = Some (st', b) →
  (b = true → st'.1 = st.1) ∧ R st.1 st'.1.
Proof.
  revert root st st' b. induction fuel as [|fuel IH]; intros root st st' b;
    simpl; [done|].
  destruct (st.1 !! root) as [nd|]; simpl; [|done].
  assert (∀ r, (if bool_decide (TaskInsID nd ≠ virtualTaskRootID)
                then walkFunc root st else Some (st, true)) = Some r →
               (r.2 = true → r.1.1 = st.1) ∧ R st.1 r.1.1) as Hcb.
  { intros [st1 b1]. case_bool_decide.
    - apply walkFunc_frame.
    - intros [= <- <-]. auto. }
  destruct (if bool_decide (TaskInsID nd ≠ virtualTaskRootID)
            then walkFunc root st else Some (st, true)) as [[st1 b1]|];
    simpl; [|done].
  destruct (Hcb _ eq_refl) as [Heq HR]. simpl in *.
  destruct b1; simpl; [|by intros [= <- <-]].
  destruct (st1.1 !! root) as [nd1|]; simpl; [|done].
  destruct (negb ign && negb (CanExecuteChild nd1)).
  - by intros [= <- <-].
  - intros Hr. eapply walkChildren_frame in Hr; [|by apply IH].
    by rewrite Heq in Hr.
Qed.
End Frame.

Lemma computeStatusFunc_frame p st st' b :
  computeStatusFunc p st = Some (st', b) → (b = true → st'.1 = st.1) ∧ st.1 = st'.1.
Proof.
  unfold computeStatusFunc. destruct (st.1 !! p) as [nd|]; simpl; [|done].
  destruct (Status nd); by intros [= <- <-].
Qed.

Lemma executableFunc_frame p st st' b :
  executableFunc p st = Some (st', b) → (b = true → st'.1 = st.1) ∧ st.1 = st'.1.
Proof.
  unfold executableFunc. destruct (st.1 !! p) as [nd|]; simpl; [|done].
  destruct (Executable st.1 nd); simpl; [|done]. by intros [= <- <-].
Qed.

Lemma nextTaskFunc_frame task p st st' b :
  nextTaskFunc task p st = Some (st', b) →
  (b = true → st'.1 = st.1) ∧ advanced task st.1 st'.1.
Proof.
  intros Hcb. split.
  - intros ->. by eapply nextTaskFunc_quiet.
  - revert Hcb. unfold nextTaskFunc, advanced.
    destruct (st.1 !! p) as [nd|] eqn:Hp; simpl; [|done].
    case_bool_decide as Hid; [|intros [= <- <-]; by left].
    intros Hcb. right. exists p, nd. split; [done|]. split; [done|].
    revert Hcb. case_bool_decide; [by intros [= <- <-]|].
    destruct (negb _); [by intros [= <- <-]|].
    destruct (executableChildren _ _); simpl; [by intros [= <- <-]|done].
Qed.

(** C9: [ComputeStatus] and [GetExecutableTaskIds] return the heap they were
    given; [GetNextTaskIds] returns it either unchanged or with the status
    field of one node overwritten, a node that carries the identity of the
    record, so that every node keeps its identity and its links and every
    other node keeps its status. *)
Theorem operations_frame :
  (∀ store fuel h t h' r, ComputeStatus store fuel h t = Some (h', r) → h' = h) ∧
  (∀ fuel h t h' ids, GetExecutableTaskIds fuel h t = Some (h', ids) → h' = h) ∧
  (∀ fuel h t task h' r,
     GetNextTaskIds fuel h t task = Some (h', r) →
     advanced task h h' ∧
     length h' = length h ∧
     (∀ q nd', h' !! q = Some nd' →
        ∃ nd, h !! q = Some nd ∧ TaskInsID nd' = TaskInsID nd ∧
              children nd' = children nd ∧ parents nd' = parents nd ∧
              (Status nd' ≠ Status nd → TaskInsID nd = ID task)) ∧
     (∀ q1 q2, h' !! q1 ≠ h !! q1 → h' !! q2 ≠ h !! q2 → q1 = q2)).
Proof.
  split; [|split].
  - intros store fuel h t h' r. unfold ComputeStatus.
    destruct (fastPath store h t) as [[|]|]; simpl; [by intros [= <-]| |done].
    unfold computeStatusWalk, walkNode.
    destruct (dfsWalk _ _ _ _ _) as [[[h1 acc] b]|] eqn:E; simpl; [|done].
    eapply (dfsWalk_frame _ eq) in E as [_ E];
      [|done|apply computeStatusFunc_frame].
    simpl in E. subst h1. case_bool_decide; by intros [= <-].
  - intros fuel h t h' ids. unfold GetExecutableTaskIds, walkNode.
    destruct (dfsWalk _ _ _ _ _) as [[[h1 acc] b]|] eqn:E; simpl; [|done].
    eapply (dfsWalk_frame _ eq) in E as [_ E];
      [|done|apply executableFunc_frame].
    simpl in E. subst h1. by intros [= <-].
  - intros fuel h t task h' r. unfold GetNextTaskIds, walkNode.
    destruct (dfsWalk _ _ _ _ _) as [[[h1 r1] b]|] eqn:E; simpl; [|done].
    eapply (dfsWalk_frame _ (advanced task)) in E as [_ Hadv];
      [|by left|apply nextTaskFunc_frame].
    intros [= -> ->]. simpl in Hadv. split; [done|].
    destruct Hadv as [->|(p & nd & Hp & Hid & ->)].
    + split; [done|]. split; [|by intros q1 q2 Hq1].
      intros q nd' Hq. exists nd'. by repeat split.
    + split; [by rewrite length_insert|]. split.
      * intros q nd'. destruct (decide (q = p)) as [->|Hq].
        -- rewrite list_lookup_insert_eq by (by eapply lookup_lt_Some).
           intros [= <-]. exists nd. by repeat split.
        -- rewrite list_lookup_insert_ne by done.
           intros Hq'. exists nd'. by repeat split.
      * intros q1 q2 Hq1 Hq2.
        destruct (decide (q1 = p)) as [->|Hn1];
          [|by rewrite list_lookup_insert_ne in Hq1].
        destruct (decide (q2 = p)) as [->|Hn2];
          [done|by rewrite list_lookup_insert_ne in Hq2].
Qed.

Lemma linksValid_Forall h :
  Forall (λ nd, Forall (λ c, c < length h)%nat (children nd) ∧
                Forall (λ q, q < length h)%nat (parents nd)) h →
  linksValid h.
Proof.
  intros Hall p nd Hp. rewrite Forall_forall in Hall.
  apply Hall. by eapply list_elem_of_lookup_2.
Qed.

Lemma diamondHeap_linksValid a b c d : linksValid (diamondHeap a b c d).
Proof.
  apply linksValid_Forall. rewrite diamondHeap_eq. simpl.
  repeat (apply Forall_cons; split); try apply Forall_nil; try split;
    repeat (apply Forall_cons; split); try apply Forall_nil; lia.
Qed.

Lemma GetNextTaskIds_not_reached_witness :
  gatedWalk 4 (diamondHeap TaskInstanceStatusInit TaskInstanceStatusInit
                 TaskInstanceStatusInit TaskInstanceStatusInit) 0 = Some [1] ∧
  GetNextTaskIds 4 (diamondHeap TaskInstanceStatusInit TaskInstanceStatusInit
                      TaskInstanceStatusInit TaskInstanceStatusInit) 0
    (report "D" TaskInstanceStatusSuccess)
  = Some (diamondHeap TaskInstanceStatusInit TaskInstanceStatusInit
            TaskInstanceStatusInit TaskInstanceStatusInit, ([], false)).
Proof.
  split; [by vm_compute|].
  apply (GetNextTaskIds_not_reached 4 _ 0 _ [1]); [by vm_compute|].
  intros q nd Hq. apply list_elem_of_singleton in Hq as ->.
  vm_compute. by intros [= <-].
Defined.

Lemma GetNextTaskIds_init_witness :
  GetNextTaskIds 4 (diamondHeap TaskInstanceStatusSuccess TaskInstanceStatusFailed
                      TaskInstanceStatusInit TaskInstanceStatusInit) 0
    (report "B" TaskInstanceStatusInit)
  = Some (diamondHeap TaskInstanceStatusSuccess TaskInstanceStatusInit
            TaskInstanceStatusInit TaskInstanceStatusInit, (["B"], true)).
Proof.
  refine (proj1 (GetNextTaskIds_init 4
    (diamondHeap TaskInstanceStatusSuccess TaskInstanceStatusFailed
       TaskInstanceStatusInit TaskInstanceStatusInit) 0
    (report "B" TaskInstanceStatusInit) [1] 2 [3]
    {| TaskInsID := "B"; Status := TaskInstanceStatusFailed;
       children := [4]; parents := [1] |} _ _ _ _ _)); try by vm_compute.
  intros q qn Hq. apply list_elem_of_singleton in Hq as ->.
  vm_compute. by intros [= <-].
Defined.

Lemma GetNextTaskIds_proceed_witness :
  GetNextTaskIds 4 (diamondHeap TaskInstanceStatusSuccess TaskInstanceStatusInit
                      TaskInstanceStatusSuccess TaskInstanceStatusInit) 0
    (report "B" TaskInstanceStatusSuccess)
  = Some (diamondHeap TaskInstanceStatusSuccess TaskInstanceStatusSuccess
            TaskInstanceStatusSuccess TaskInstanceStatusInit, (["D"], true)).
Proof.
  refine (proj1 (GetNextTaskIds_proceed 4
    (diamondHeap TaskInstanceStatusSuccess TaskInstanceStatusInit
       TaskInstanceStatusSuccess TaskInstanceStatusInit) 0
    (report "B" TaskInstanceStatusSuccess) [1] 2 [3]
    {| TaskInsID := "B"; Status := TaskInstanceStatusInit;
       children := [4]; parents := [1] |} _ _ _ _ _ _)); try by vm_compute.
  - apply diamondHeap_linksValid.
  - intros q qn Hq. apply list_elem_of_singleton in Hq as ->.
    vm_compute. by intros [= <-].
  - by left.
Defined.

(** * The graph builder *)

Lemma lookup_alter_proj {B} (g : TaskNode → B) (f : TaskNode → TaskNode)
    (i q : ptr) (h : heap) :
  (∀ nd, g (f nd) = g nd) → g <$> alter f i h !! q = g <$> h !! q.
Proof.
  intros Hg. destruct (decide (i = q)) as [->|Hq].
  - rewrite list_lookup_alter_eq. destruct (h !! q); simpl; by rewrite ?Hg.
  - by rewrite list_lookup_alter_ne.
Qed.

Section BuildFacts.
Context `{TaskInfoGetter T}.

Lemma buildGraphNodeMap_from_spec (tasks : list T) (h : heap) (m : gmap string ptr) :
  match buildGraphNodeMap_from tasks h m with
  | Built (h', m') =>
      NoDup (GetGraphID <$> tasks) ∧
      (∀ t, t ∈ tasks → m !! GetGraphID t = None) ∧
      h' = h ++ (NewTaskNodeFromGetter <$> tasks) ∧
      (∀ g a, m' !! g = Some a ↔
         m !! g = Some a ∨
         ∃ i t, tasks !! i = Some t ∧ GetGraphID t = g ∧ a = (length h + i)%nat)
  | BuildErr e =>
      (∃ t, t ∈ tasks ∧ e = ErrRepeat (GetGraphID t)) ∧
      ¬ (NoDup (GetGraphID <$> tasks) ∧
         ∀ t, t ∈ tasks → m !! GetGraphID t = None)
  | BuildPanic => False
  end.
Proof.
  revert h m. induction tasks as [|t tasks IH]; intros h m; simpl.
  - split; [constructor|]. split; [by intros t Ht%elem_of_nil|].
    split; [by rewrite app_nil_r|]. intros g a. split; [by left|].
    by intros [?|(i & t & ? & _)].
  - destruct (m !! GetGraphID t) as [a|] eqn:Hm.
    + split; [exists t; split; [by left|done]|].
      intros [_ Hnone]. specialize (Hnone t). rewrite Hm in Hnone.
      by discriminate Hnone; left.
    + specialize (IH (h ++ [NewTaskNodeFromGetter t])
                     (<[GetGraphID t := length h]> m)).
      destruct (buildGraphNodeMap_from tasks _ _) as [[h' m']|e|]; [| |done].
      * destruct IH as (Hnd & Hnone & -> & Hchar).
        assert (GetGraphID t ∉ GetGraphID <$> tasks) as Hnin.
        { intros (t' & Heq & Hin)%list_elem_of_fmap.
          specialize (Hnone _ Hin). rewrite <- Heq in Hnone.
          by rewrite lookup_insert_eq in Hnone. }
        split; [by constructor|]. split; [|split].
        -- intros t' [->|Hin]%elem_of_cons; [done|].
           specialize (Hnone _ Hin).
           destruct (decide (GetGraphID t = GetGraphID t')) as [Heq|Hne].
           ++ rewrite Heq in Hnone. by rewrite lookup_insert_eq in Hnone.
           ++ by rewrite lookup_insert_ne in Hnone.
        -- by rewrite <- app_assoc.
        -- intros g a. rewrite Hchar, length_app. simpl. split.
           ++ intros [Hg|(i & t' & Hi & Heq & ->)].
              ** destruct (decide (GetGraphID t = g)) as [<-|Hne].
                 --- rewrite lookup_insert_eq in Hg. injection Hg as <-.
                     right. exists 0, t. by rewrite Nat.add_0_r.
                 --- rewrite lookup_insert_ne in Hg by done. by left.
              ** right. exists (S i), t'. split; [done|]. split; [done|]. lia.
           ++ intros [Hg|([|i] & t' & Hi & Heq & ->)].
              ** left. rewrite lookup_insert_ne; [done|].
                 intros <-. by rewrite Hm in Hg.
              ** simpl in Hi. injection Hi as ->. left. rewrite <- Heq.
                 by rewrite lookup_insert_eq, Nat.add_0_r.
              ** right. exists i, t'. split; [done|]. split; [done|]. lia.
      * destruct IH as [(t' & Hin & ->) Hno]. split.
        -- exists t'. split; [by right|done].
        -- intros [Hnd Hnone]. apply Hno. apply NoDup_cons in Hnd as [Hnin Hnd].
           split; [done|]. intros t'' Hin''.
           rewrite lookup_insert_ne; [apply Hnone; by right|].
           intros Heq. apply Hnin. rewrite Heq. apply list_elem_of_fmap.
           by eauto.
Qed.

Lemma linksValid_AppendChild (h : heap) (p c : ptr) :
  (c < length h)%nat → linksValid h → linksValid (alter (AppendChild c) p h).
Proof.
  intros Hc Hval q nd. rewrite length_alter.
  destruct (decide (p = q)) as [->|Hq].
  - rewrite list_lookup_alter_eq. destruct (h !! q) as [nd0|] eqn:E; [|done].
    intros [= <-]. simpl. destruct (Hval _ _ E) as [Hch Hpa].
    split; [|done]. apply Forall_app. split; [done|]. by apply Forall_singleton.
  - rewrite list_lookup_alter_ne by done. apply Hval.
Qed.

Lemma linksValid_AppendParent (h : heap) (p c : ptr) :
  (c < length h)%nat → linksValid h → linksValid (alter (AppendParent c) p h).
Proof.
  intros Hc Hval q nd. rewrite length_alter.
  destruct (decide (p = q)) as [->|Hq].
  - rewrite list_lookup_alter_eq. destruct (h !! q) as [nd0|] eqn:E; [|done].
    intros [= <-]. simpl. destruct (Hval _ _ E) as [Hch Hpa].
    split; [done|]. apply Forall_app. split; [done|]. by apply Forall_singleton.
  - rewrite list_lookup_alter_ne by done. apply Hval.
Qed.

Lemma linkDepends_spec (m : gmap string ptr) task (a : ptr) deps (h : heap) :
  a ≠ 0 → (a < length h)%nat →
  (∀ d p, m !! d = Some p → p ≠ 0 ∧ (p < length h)%nat) →
  match linkDepends m task a deps h with
  | Built h' =>
      (∀ d, d ∈ deps → is_Some (m !! d)) ∧
      length h' = length h ∧ h' !! 0 = h !! 0 ∧
      (∀ q, q ≠ a → parents <$> h' !! q = parents <$> h !! q) ∧
      (linksValid h → linksValid h')
  | BuildErr e => ∃ d, e = ErrMissingDepend task d ∧ d ∈ deps ∧ m !! d = None
  | BuildPanic => False
  end.
Proof.
  intros Ha Hlt. revert h Hlt. induction deps as [|d deps IH]; intros h Hlt Hm; simpl.
  - split; [by intros d Hd%elem_of_nil|]. done.
  - destruct (m !! d) as [p|] eqn:Hd.
    + destruct (Hm _ _ Hd) as [Hp0 Hplt].
      specialize (IH (alter (AppendParent p) a (alter (AppendChild a) p h))).
      rewrite !length_alter in IH. specialize (IH Hlt Hm).
      destruct (linkDepends m task a deps _) as [h'|e|]; [| |done].
      * destruct IH as (Hall & Hlen & Hroot & Hpar & Hval).
        split; [|split; [|split; [|split]]].
        -- intros d' [->|Hin]%elem_of_cons; [by rewrite Hd|by apply Hall].
        -- by rewrite Hlen.
        -- by rewrite Hroot, !list_lookup_alter_ne.
        -- intros q Hq. rewrite (Hpar q Hq).
           rewrite list_lookup_alter_ne by done.
           by apply lookup_alter_proj.
        -- intros Hv. apply Hval. apply linksValid_AppendParent.
           ++ by rewrite length_alter.
           ++ by apply linksValid_AppendChild.
      * destruct IH as (d' & -> & Hin & Hnone). exists d'.
        split; [done|]. split; [by right|done].
    + exists d. split; [done|]. split; [by left|done].
Qed.

Section LinkFacts.
Variable tasks : list T.
Variable m : gmap string ptr.
Hypothesis m_index : ∀ g a,
  m !! g = Some a ↔ ∃ i t, tasks !! i = Some t ∧ GetGraphID t = g ∧ a = S i.

Lemma m_lookup_task i t : tasks !! i = Some t → m !! GetGraphID t = Some (S i).
Proof. intros Hi. apply m_index. by eauto. Qed.

Lemma m_range (h : heap) d p :
  length h = S (length tasks) → m !! d = Some p → p ≠ 0 ∧ (p < length h)%nat.
Proof.
  intros Hlen (i & t & Hi & _ & ->)%m_index. split; [done|].
  apply lookup_lt_Some in Hi. lia.
Qed.

Lemma linkTask_spec k t (h : heap) :
  tasks !! k = Some t → linkInv tasks k h →
  match linkTask m 0 t h with
  | Built h' =>
      linkInv tasks (S k) h' ∧ (∀ d, d ∈ GetDepend t → is_Some (m !! d))
  | BuildErr e =>
      ∃ d, e = ErrMissingDepend (GetGraphID t) d ∧ d ∈ GetDepend t ∧ m !! d = None
  | BuildPanic => False
  end.
Proof.
  intros Hk (Hlen & (rn & Hroot & Hid & Hrp & Hrc) & Hzero & Hval).
  unfold linkTask. rewrite (m_lookup_task _ _ Hk).
  assert (S k < length h)%nat as Hklt.
  { apply lookup_lt_Some in Hk. lia. }
  destruct (GetDepend t) as [|d0 deps] eqn:Hdeps.
  - split; [|by intros d Hd%elem_of_nil].
    split; [by rewrite !length_alter|]. split; [|split].
    + exists (AppendChild (S k) rn). split.
      { by rewrite list_lookup_alter_eq, list_lookup_alter_ne, Hroot. }
      split; [done|]. split; [done|]. intros c. simpl.
      rewrite elem_of_app, list_elem_of_singleton, Hrc. split.
      * intros [(i & t' & Hi & Ht' & Hd & ->)| ->].
        -- exists i, t'. split; [lia|done].
        -- exists k, t. split; [lia|done].
      * intros (i & t' & Hi & Ht' & Hd & ->).
        destruct (decide (i = k)) as [->|Hne]; [by right|].
        left. exists i, t'. split; [lia|done].
    + intros i t' Hi Hd. destruct (Hzero _ _ Hi Hd) as (nd & Hnd & Hpar).
      rewrite list_lookup_alter_ne by done.
      destruct (decide (i = k)) as [->|Hne].
      * rewrite list_lookup_alter_eq, Hnd. eexists. split; [done|]. simpl.
        rewrite Hpar. rewrite decide_False by lia. by rewrite decide_True by lia.
      * rewrite list_lookup_alter_ne by lia. exists nd. split; [done|].
        rewrite Hpar. destruct (decide (i < k)%nat).
        -- by rewrite decide_True by lia.
        -- by rewrite decide_False by lia.
    + apply linksValid_AppendChild; [by rewrite length_alter|].
      apply linksValid_AppendParent; [lia|done].
  - pose proof (linkDepends_spec m (GetGraphID t) (S k) (d0 :: deps) h) as Hspec.
    destruct (linkDepends m (GetGraphID t) (S k) (d0 :: deps) h) as [h'|e|].
    + destruct Hspec as (Hall & Hlen' & Hroot' & Hpar' & Hval');
        [done|done|by intros d p; apply m_range|].
      split; [|done]. split; [by rewrite Hlen'|]. split; [|split].
      * exists rn. rewrite Hroot'. split; [done|]. split; [done|].
        split; [done|]. intros c. rewrite Hrc. split.
        -- intros (i & t' & Hi & Hrest). exists i, t'. split; [lia|done].
        -- intros (i & t' & Hi & Ht' & Hd & ->).
           destruct (decide (i = k)) as [->|Hne].
           ++ rewrite Hk in Ht'. injection Ht' as <-. by rewrite Hdeps in Hd.
           ++ exists i, t'. split; [lia|done].
      * intros i t' Hi Hd. destruct (Hzero _ _ Hi Hd) as (nd & Hnd & Hpar).
        assert (i ≠ k) as Hne.
        { intros ->. rewrite Hk in Hi. injection Hi as <-. by rewrite Hdeps in Hd. }
        specialize (Hpar' (S i)). rewrite Hnd in Hpar'. simpl in Hpar'.
        destruct (h' !! S i) as [nd'|]; simpl in Hpar'; [|by discriminate Hpar'; lia].
        exists nd'. split; [done|].
        assert (parents nd' = parents nd) as -> by (by injection Hpar'; [|lia]).
        rewrite Hpar. destruct (decide (i < k)%nat).
        -- by rewrite decide_True by lia.
        -- by rewrite decide_False by lia.
      * by apply Hval'.
    + destruct Hspec as (d & -> & Hin & Hnone);
        [done|done|by intros d p; apply m_range|]. by eauto.
    + apply Hspec; [done|done|by intros d p; apply m_range].
Qed.

Lemma linkTasks_spec done todo (h : heap) :
  tasks = done ++ todo → linkInv tasks (length done) h →
  match linkTasks m 0 todo h with
  | Built h' =>
      linkInv tasks (length tasks) h' ∧
      (∀ t d, t ∈ todo → d ∈ GetDepend t → is_Some (m !! d))
  | BuildErr e =>
      ∃ t d, e = ErrMissingDepend (GetGraphID t) d ∧
             t ∈ todo ∧ d ∈ GetDepend t ∧ m !! d = None
  | BuildPanic => False
  end.
Proof.
  revert done h. induction todo as [|t todo IH]; intros done h Htasks Hinv; simpl.
  - rewrite app_nil_r in Htasks. subst done. split; [done|].
    by intros t d Ht%elem_of_nil.
  - assert (tasks !! length done = Some t) as Hk.
    { rewrite Htasks. by rewrite list_lookup_middle. }
    pose proof (linkTask_spec _ _ _ Hk Hinv) as Hstep.
    destruct (linkTask m 0 t h) as [h1|e|]; simpl; [| |done].
    + destruct Hstep as [Hinv1 Hdeps].
      specialize (IH (done ++ [t]) h1). rewrite length_app in IH. simpl in IH.
      rewrite Nat.add_1_r in IH. rewrite <- app_assoc in IH.
      specialize (IH Htasks Hinv1).
      destruct (linkTasks m 0 todo h1) as [h'|e|]; [| |done].
      * destruct IH as [Hinv' Hall]. split; [done|].
        intros t' d [->|Hin]%elem_of_cons; [by apply Hdeps|by apply Hall].
      * destruct IH as (t' & d & -> & Hin & Hd & Hnone).
        exists t', d. split; [done|]. split; [by right|done].
    + destruct Hstep as (d & -> & Hd & Hnone). exists t, d.
      split; [done|]. split; [by left|done].
Qed.
End LinkFacts.

Lemma linkInv_initial (tasks : list T) :
  linkInv tasks 0
    ([ {| TaskInsID := virtualTaskRootID; Status := TaskInstanceStatusSuccess;
          children := []; parents := [] |} ]
       ++ (NewTaskNodeFromGetter <$> tasks)).
Proof.
  split; [by rewrite length_app, length_fmap|]. split; [|split].
  - eexists. split; [done|]. split; [done|]. split; [done|]. intros c. simpl.
    split; [by intros ?%elem_of_nil|]. intros (i & t & Hi & _). lia.
  - intros i t Hi Hd. simpl. rewrite list_lookup_fmap, Hi. simpl.
    eexists. split; [done|]. done.
  - intros [|p] nd; simpl.
    + intros [= <-]. by split; constructor.
    + rewrite list_lookup_fmap. destruct (tasks !! p); [|done].
      intros [= <-]. by split; constructor.
Qed.

(** The builder, case by case. *)
Lemma BuildRootNode_cases (tasks : list T) :
  match BuildRootNode tasks with
  | Built (h, root) =>
      root = 0 ∧ linkInv tasks (length tasks) h ∧
      NoDup (GetGraphID <$> tasks) ∧
      (∀ t d, t ∈ tasks → d ∈ GetDepend t → d ∈ GetGraphID <$> tasks) ∧
      (∃ t, t ∈ tasks ∧ GetDepend t = [])
  | BuildErr (ErrRepeat id) =>
      id ∈ GetGraphID <$> tasks ∧ ¬ NoDup (GetGraphID <$> tasks)
  | BuildErr (ErrMissingDepend task d) =>
      NoDup (GetGraphID <$> tasks) ∧
      ∃ t, t ∈ tasks ∧ GetGraphID t = task ∧ d ∈ GetDepend t ∧
           d ∉ GetGraphID <$> tasks
  | BuildErr ErrNoStart =>
      NoDup (GetGraphID <$> tasks) ∧
      (∀ t d, t ∈ tasks → d ∈ GetDepend t → d ∈ GetGraphID <$> tasks) ∧
      ¬ ∃ t, t ∈ tasks ∧ GetDepend t = []
  | BuildPanic => False
  end.
Proof.
  unfold BuildRootNode, buildGraphNodeMap.
  pose proof (buildGraphNodeMap_from_spec tasks
    [ {| TaskInsID := virtualTaskRootID; Status := TaskInstanceStatusSuccess;
         children := []; parents := [] |} ] ∅) as Hmap.
  destruct (buildGraphNodeMap_from tasks _ ∅) as [[h1 m]|e|]; simpl; [| |done].
  - destruct Hmap as (Hnd & _ & -> & Hchar).
    assert (∀ g a, m !! g = Some a ↔
              ∃ i t, tasks !! i = Some t ∧ GetGraphID t = g ∧ a = S i) as Hm.
    { intros g a. rewrite Hchar. split; [|by eauto].
      intros [Hg|?]; [by rewrite lookup_empty in Hg|done]. }
    assert (∀ d, is_Some (m !! d) ↔ d ∈ GetGraphID <$> tasks) as Hdom.
    { intros d. rewrite list_elem_of_fmap. split.
      - intros [a (i & t & Hi & Hg & _)%Hm]. exists t. split; [done|].
        by eapply list_elem_of_lookup_2.
      - intros (t & -> & (i & Hi)%list_elem_of_lookup_1).
        exists (S i). apply Hm. by eauto. }
    pose proof (linkTasks_spec tasks m Hm [] tasks _ eq_refl
                  (linkInv_initial tasks)) as Hlink.
    destruct (linkTasks m 0 tasks _) as [h2|e|]; simpl; [| |done].
    + destruct Hlink as [Hinv Hall].
      pose proof Hinv as (_ & (rn & Hroot & _ & _ & Hrc) & _ & _).
      rewrite Hroot. simpl.
      assert (∀ t d, t ∈ tasks → d ∈ GetDepend t → d ∈ GetGraphID <$> tasks)
        as Hres.
      { intros t d Ht Hd. apply Hdom. by eapply Hall. }
      destruct (children rn) as [|c cs] eqn:Hcs.
      * split; [done|]. split; [done|].
        intros (t & (i & Hi)%list_elem_of_lookup_1 & Hd).
        apply (elem_of_nil (S i)). apply Hrc. exists i, t.
        split; [by eapply lookup_lt_Some|done].
      * split; [done|]. split; [done|]. split; [done|]. split; [done|].
        destruct (proj1 (Hrc c)) as (i & t & _ & Hi & Hd & _); [by left|].
        exists t. split; [by eapply list_elem_of_lookup_2|done].
    + destruct Hlink as (t & d & -> & Ht & Hd & Hnone). split; [done|].
      exists t. split; [done|]. split; [done|]. split; [done|].
      intros Hin%Hdom. rewrite Hnone in Hin. by destruct Hin.
  - destruct Hmap as [(t & Ht & ->) Hno]. split.
    + apply list_elem_of_fmap. by eauto.
    + intros Hnd. apply Hno. split; [done|]. intros t' _. apply lookup_empty.
Qed.

Lemma BuildRootNode_linksValid (tasks : list T) h root :
  BuildRootNode tasks = Built (h, root) → root = 0 ∧ linksValid h.
Proof.
  intros Hb. pose proof (BuildRootNode_cases tasks) as Hc. rewrite Hb in Hc.
  destruct Hc as (-> & (_ & _ & _ & Hval) & _). done.
Qed.

(** C3: the builder succeeds exactly when no graph identity repeats, every
    declared dependency is the graph identity of some task, and some task
    declares no dependency.  On success every child of the root has the root
    as its only parent.  A repeated identity gives the error [ErrRepeat];
    otherwise an unknown dependency gives [ErrMissingDepend]; otherwise the
    absence of a start node gives [ErrNoStart]; the three are different
    values, and the builder returns nothing else. *)
Theorem BuildRootNode_spec (tasks : list T) :
  let ids := GetGraphID <$> tasks in
  let resolvable := ∀ t d, t ∈ tasks → d ∈ GetDepend t → d ∈ ids in
  let hasStart := ∃ t, t ∈ tasks ∧ GetDepend t = [] in
  ((∃ h root, BuildRootNode tasks = Built (h, root)) ↔
     NoDup ids ∧ resolvable ∧ hasStart) ∧
  (∀ h root, BuildRootNode tasks = Built (h, root) →
     ∃ rn, h !! root = Some rn ∧ TaskInsID rn = virtualTaskRootID ∧
           children rn ≠ [] ∧
           ∀ c, c ∈ children rn →
                ∃ cn, h !! c = Some cn ∧ parents cn = [root]) ∧
  ((∃ id, BuildRootNode tasks = BuildErr (ErrRepeat id)) ↔ ¬ NoDup ids) ∧
  ((∃ task d, BuildRootNode tasks = BuildErr (ErrMissingDepend task d)) ↔
     NoDup ids ∧ ¬ resolvable) ∧
  (BuildRootNode tasks = BuildErr ErrNoStart ↔
     NoDup ids ∧ resolvable ∧ ¬ hasStart) ∧
  BuildRootNode tasks ≠ BuildPanic.
Proof.
  intros ids resolvable hasStart.
  pose proof (BuildRootNode_cases tasks) as Hc. fold ids in Hc.
  destruct (BuildRootNode tasks) as [[h root]|[id|task d|]|] eqn:Hb; [| | | |done].
  - destruct Hc as (-> & Hinv & Hnd & Hres & Hstart).
    split; [by split; eauto|]. split; [|split; [|split; [|split]]].
    + intros h' root' [= <- <-].
      destruct Hinv as (_ & (rn & Hroot & Hid & _ & Hrc) & Hzero & _).
      exists rn. split; [done|]. split; [done|]. split.
      * destruct Hstart as (t & (i & Hi)%list_elem_of_lookup_1 & Hd).
        intros Hnil. apply (elem_of_nil (S i)). rewrite <- Hnil. apply Hrc.
        exists i, t. split; [by eapply lookup_lt_Some|done].
      * intros c (i & t & Hlt & Hi & Hd & ->)%Hrc.
        destruct (Hzero _ _ Hi Hd) as (cn & Hcn & Hpar).
        exists cn. split; [done|]. by rewrite decide_True in Hpar.
    + split; [by intros [? [=]]|done].
    + split; [by intros (? & ? & [=])|]. by intros [_ Hno].
    + split; [done|]. by intros (_ & _ & Hno).
    + done.
  - destruct Hc as [Hin Hdup].
    split; [by split; [intros (? & ? & [=])|intros [? _]]|].
    split; [done|]. split; [by split; eauto|].
    split; [by split; [intros (? & ? & [=])|intros [? _]]|].
    split; [|done]. by split; [|intros [? _]].
  - destruct Hc as (Hnd & t & Ht & Hg & Hd & Hnin).
    assert (¬ resolvable) as Hnres by (by intros Hres; eapply Hnin, Hres).
    split; [by split; [intros (? & ? & [=])|intros (_ & ? & _)]|].
    split; [done|]. split; [by split; [intros [? [=]]|]|].
    split; [by split; eauto|]. split; [|done].
    by split; [|intros (_ & ? & _)].
  - destruct Hc as (Hnd & Hres & Hno).
    split; [by split; [intros (? & ? & [=])|intros (_ & _ & ?)]|].
    split; [done|]. split; [by split; [intros [? [=]]|]|].
    split; [by split; [intros (? & ? & [=])|intros (_ & ?)]|].
    done.
Qed.
End BuildFacts.

(** * The cycle detector *)

Section CycleFacts.
Variable h : heap.
Hypothesis h_valid : linksValid h.
Hypothesis h_sym : linksSym h.
Hypothesis h_ids : idsDistinct h.

Lemma isParentCompleted_spec (visited : gset string) ps :
  Forall (λ q, q < length h)%nat ps →
  ∃ b, isParentCompleted h visited ps = Some b ∧
       (b = true ↔ ∀ q, q ∈ ps → ∃ qn, h !! q = Some qn ∧ TaskInsID qn ∈ visited).
Proof.
  induction 1 as [|q ps Hq _ IH]; simpl.
  - exists true. split; [done|]. split; [|done]. by intros _ q Hq%elem_of_nil.
  - destruct (lookup_lt_is_Some_2 h q Hq) as [qn Hqn]. rewrite Hqn. simpl.
    case_bool_decide as Hin.
    + destruct IH as (b & -> & Hb). exists b. split; [done|].
      rewrite Hb. split.
      * intros Hall q' [->|Hq']%elem_of_cons; [by eauto|by apply Hall].
      * intros Hall q' Hq'. apply Hall. by right.
    + exists false. split; [done|]. split; [done|]. intros Hall.
      destruct (Hall q) as (qn' & Hqn' & Hin'); [by left|].
      rewrite Hqn in Hqn'. injection Hqn' as <-. done.
Qed.

Lemma visited_iff vs visited incomplete pending q qn :
  cycleInv h vs visited incomplete pending → h !! q = Some qn →
  TaskInsID qn ∈ visited ↔ q ∈ vs.
Proof.
  intros Hinv Hq. rewrite (ci_visited _ _ _ _ _ Hinv). split.
  - intros (p & pn & Hp & Hpn & Hid).
    by rewrite <- (h_ids p q pn qn Hpn Hq Hid).
  - intros Hin. by exists q, qn.
Qed.

Lemma waveInv_app vs vs' k queue :
  waveInv h vs k queue → waveInv h (vs ++ vs') k queue.
Proof.
  intros Hw x Hx. destruct (Hw x Hx) as [->|(i & u & Hi & Hk & He)]; [by left|].
  right. exists i, u. split; [|done]. by apply lookup_app_l_Some.
Qed.

Lemma edge_parents q c cn :
  h !! c = Some cn → edge h q c ↔ q ∈ parents cn.
Proof.
  intros Hc. rewrite (h_sym q c). split.
  - intros (cn' & Hc' & Hq). rewrite Hc in Hc'. by injection Hc' as <-.
  - intros Hq. by exists cn.
Qed.

Lemma edge_children p pn c :
  h !! p = Some pn → edge h p c ↔ c ∈ children pn.
Proof.
  intros Hp. split.
  - intros (pn' & Hp' & Hc). rewrite Hp in Hp'. by injection Hp' as <-.
  - intros Hc. by exists pn.
Qed.

Lemma step_park cur cn rest app vs visited incomplete :
  cycleInv h vs visited incomplete (cur :: rest ++ app) →
  h !! cur = Some cn →
  ¬ (∀ q, q ∈ parents cn → q ∈ vs) →
  cycleInv h vs visited (<[TaskInsID cn := cur]> incomplete) (rest ++ app).
Proof.
  intros Hinv Hcur Hnot.
  assert (cur ∉ vs) as Hnin.
  { intros (i & Hi)%list_elem_of_lookup_1. apply Hnot. intros q Hq.
    destruct (ci_order _ _ _ _ _ Hinv i cur q Hi) as (j & _ & Hj).
    - by apply (edge_parents _ _ cn).
    - by eapply list_elem_of_lookup_2. }
  destruct Hinv as [Hnd Hval Hvis Hord Hpend Hready Hinc Hfront].
  split; try done.
  - by apply Forall_cons in Hpend as [_ ?].
  - intros c Hc Hall. destruct (Hready c Hc Hall) as [?|Hin]; [by left|].
    apply elem_of_cons in Hin as [->|Hin]; [|by right].
    exfalso. apply Hnot. intros q Hq. apply Hall.
    by apply (edge_parents _ _ cn).
  - intros k n. destruct (decide (TaskInsID cn = k)) as [<-|Hne].
    + rewrite lookup_insert_eq. intros [= <-]. by exists cn.
    + rewrite lookup_insert_ne by done. apply Hinc.
  - intros p c Hp He.
    assert (∀ cn', h !! c = Some cn' →
              incomplete !! TaskInsID cn' = Some c →
              <[TaskInsID cn := cur]> incomplete !! TaskInsID cn' = Some c)
      as Hkeep.
    { intros cn' Hc Hi. destruct (decide (TaskInsID cn = TaskInsID cn')) as [Heq|Hne].
      - rewrite <- Heq, lookup_insert_eq. f_equal. by eapply h_ids.
      - by rewrite lookup_insert_ne. }
    destruct (Hfront p c Hp He) as [?|[Hin|(cn' & Hc & Hi)]]; [by left| |].
    + apply elem_of_cons in Hin as [->|Hin]; [|by right; left].
      right. right. exists cn. split; [done|]. by rewrite lookup_insert_eq.
    + right. right. exists cn'. split; [done|]. by apply Hkeep.
Qed.

Lemma step_visit cur cn rest app vs visited incomplete k :
  cycleInv h vs visited incomplete (cur :: rest ++ app) →
  h !! cur = Some cn →
  (∀ q, q ∈ parents cn → q ∈ vs) →
  waveInv h vs k (cur :: rest) → waveInv h vs (S k) app →
  ∃ vs',
    cycleInv h (vs ++ vs') ({[TaskInsID cn]} ∪ visited)
      (delete (TaskInsID cn) incomplete) (rest ++ (app ++ children cn)) ∧
    waveInv h (vs ++ vs') (S k) (app ++ children cn).
Proof.
  intros Hinv Hcur Hpar Hwk Hwapp.
  exists (if decide (cur ∈ vs) then [] else [cur]).
  assert (cycleInv h (vs ++ if decide (cur ∈ vs) then [] else [cur])
            ({[TaskInsID cn]} ∪ visited)
            (delete (TaskInsID cn) incomplete) (rest ++ (app ++ children cn)))
    as Hinv'.
  { pose proof (visited_iff _ _ _ _ _ _ Hinv Hcur) as Hvcur.
    destruct Hinv as [Hnd Hval Hvis Hord Hpend Hready Hinc Hfront].
    assert (Forall (λ p, p < length h)%nat (rest ++ (app ++ children cn)))
      as Hpend'.
    { apply Forall_cons in Hpend as [_ Hpend].
      apply Forall_app in Hpend as [? ?].
      rewrite !Forall_app. split; [done|]. split; [done|]. by eapply h_valid. }
    assert (∀ k n, delete (TaskInsID cn) incomplete !! k = Some n →
                   ∃ nn, h !! n = Some nn ∧ TaskInsID nn = k ∧ (n ∉ vs) ∧ (n ≠ cur))
      as Hinc'.
    { intros k' n [Hne Hk]%lookup_delete_Some.
      destruct (Hinc _ _ Hk) as (nn & Hn & Hid & Hnin).
      exists nn. split; [done|]. split; [done|]. split; [done|].
      intros ->. rewrite Hcur in Hn. injection Hn as <-. done. }
    assert (∀ c cn', h !! c = Some cn' →
              incomplete !! TaskInsID cn' = Some c → c ≠ cur →
              delete (TaskInsID cn) incomplete !! TaskInsID cn' = Some c)
      as Hkeep.
    { intros c cn' Hc Hi Hne. apply lookup_delete_Some. split; [|done].
      intros Heq. apply Hne. symmetry. by eapply h_ids. }
    destruct (decide (cur ∈ vs)) as [Hin|Hnin].
    - rewrite app_nil_r. split; try done.
      + intros s. rewrite <- Hvis. rewrite elem_of_union, elem_of_singleton.
        split; [|by right]. intros [->|?]; [by apply Hvcur|done].
      + intros c Hc Hall. destruct (Hready c Hc Hall) as [?|Hc']; [by left|].
        apply elem_of_cons in Hc' as [->|Hc']; [by left|].
        right. rewrite !elem_of_app in *. tauto.
      + intros k' n Hk. destruct (Hinc' _ _ Hk) as (nn & ? & ? & ? & _). by eauto.
      + intros p c Hp He.
        destruct (decide (c = cur)) as [->|Hne]; [by left|].
        destruct (Hfront p c Hp He) as [?|[Hc'|(cn' & Hc & Hi)]]; [by left| |].
        * apply elem_of_cons in Hc' as [->|Hc']; [done|].
          right. left. rewrite !elem_of_app in *. tauto.
        * right. right. exists cn'. split; [done|]. by apply Hkeep.
    - split; try done.
      + apply NoDup_app. split; [done|]. split; [|by apply NoDup_singleton].
        intros x Hx ->%list_elem_of_singleton. done.
      + apply Forall_app. split; [done|]. apply Forall_singleton.
        by eapply lookup_lt_Some.
      + intros s. rewrite elem_of_union, elem_of_singleton, Hvis. split.
        * intros [->|(p & pn & Hp & Hpn & Hid)].
          -- exists cur, cn. rewrite elem_of_app, list_elem_of_singleton. auto.
          -- exists p, pn. rewrite elem_of_app. auto.
        * intros (p & pn & Hp & Hpn & Hid).
          apply elem_of_app in Hp as [Hp|Hp].
          -- right. by exists p, pn.
          -- apply list_elem_of_singleton in Hp as ->.
             left. rewrite Hcur in Hpn. by injection Hpn as <-.
      + intros i p q Hi He.
        apply lookup_app_Some in Hi as [Hi|[Hlen Hi]].
        * destruct (Hord _ _ _ Hi He) as (j & Hj & Hjq).
          exists j. split; [done|]. by apply lookup_app_l_Some.
        * apply list_lookup_singleton_Some in Hi as [Hi ->].
          apply (edge_parents _ _ cn) in He; [|done].
          destruct (list_elem_of_lookup_1 _ _ (Hpar _ He)) as (j & Hj).
          exists j. split; [|by apply lookup_app_l_Some].
          apply lookup_lt_Some in Hj. lia.
      + intros c Hc Hall.
        destruct (decide (c ∈ children cn)) as [Hch|Hch].
        { right. rewrite !elem_of_app. auto. }
        destruct (Hready c Hc) as [?|Hc'].
        * intros q He. specialize (Hall q He).
          apply elem_of_app in Hall as [?|Hq]; [done|].
          apply list_elem_of_singleton in Hq as ->.
          exfalso. apply Hch. by apply (edge_children cur).
        * left. rewrite elem_of_app. auto.
        * apply elem_of_cons in Hc' as [->|Hc'].
          -- left. rewrite elem_of_app, list_elem_of_singleton. auto.
          -- right. rewrite !elem_of_app in *. tauto.
      + intros k' n Hk. destruct (Hinc' _ _ Hk) as (nn & ? & ? & ? & ?).
        exists nn. split; [done|]. split; [done|].
        rewrite elem_of_app, list_elem_of_singleton. tauto.
      + intros p c Hp He. apply elem_of_app in Hp as [Hp|Hp].
        * destruct (decide (c = cur)) as [->|Hne].
          { left. rewrite elem_of_app, list_elem_of_singleton. auto. }
          destruct (Hfront p c Hp He) as [?|[Hc'|(cn' & Hc & Hi)]].
          -- left. rewrite elem_of_app. auto.
          -- apply elem_of_cons in Hc' as [->|Hc']; [done|].
             right. left. rewrite !elem_of_app in *. tauto.
          -- right. right. exists cn'. split; [done|]. by apply Hkeep.
        * apply list_elem_of_singleton in Hp as ->.
          right. left. apply (edge_children _ cn) in He; [|done].
          rewrite !elem_of_app. auto. }
  split; [done|].
  intros x [Hx|Hx]%elem_of_app.
  { by apply (waveInv_app _ _ _ _ Hwapp). }
  right.
  assert (cur ∈ vs ++ if decide (cur ∈ vs) then [] else [cur]) as Hcin.
  { destruct (decide (cur ∈ vs)); rewrite elem_of_app, ?list_elem_of_singleton; auto. }
  apply list_elem_of_lookup_1 in Hcin as (i & Hi).
  exists i, cur. split; [done|]. split; [|by apply (edge_children _ cn)].
  destruct (Hwk cur) as [->|(i0 & u0 & Hi0 & Hk & He)]; [by left|lia|].
  destruct (ci_order _ _ _ _ _ Hinv' i cur u0 Hi He) as (j & Hj & Hju).
  assert (j = i0) as ->.
  { eapply NoDup_lookup; [by apply (ci_nodup _ _ _ _ _ Hinv')|done|].
    by apply lookup_app_l_Some. }
  lia.
Qed.

Lemma bfsWave_inv rest app vs visited incomplete k :
  cycleInv h vs visited incomplete (rest ++ app) →
  waveInv h vs k rest → waveInv h vs (S k) app →
  ∃ s vs',
    bfsWave h rest {| csVisited := visited; csIncomplete := incomplete;
                      csAppended := app |} = Some s ∧
    cycleInv h (vs ++ vs') (csVisited s) (csIncomplete s) (csAppended s) ∧
    waveInv h (vs ++ vs') (S k) (csAppended s).
Proof.
  revert app vs visited incomplete.
  induction rest as [|cur rest IH]; intros app vs visited incomplete Hinv Hwk Hwapp.
  - eexists _, []. rewrite app_nil_r. simpl. done.
  - assert (waveInv h vs k rest) as Hwrest.
    { intros x Hx. apply Hwk. by right. }
    pose proof (ci_pending _ _ _ _ _ Hinv) as Hpend.
    apply Forall_cons in Hpend as [Hcur _].
    destruct (lookup_lt_is_Some_2 h cur Hcur) as [cn Hcn].
    destruct (isParentCompleted_spec visited (parents cn)) as (b & Hb & Hbspec).
    { by eapply h_valid. }
    assert (b = true ↔ ∀ q, q ∈ parents cn → q ∈ vs) as Hbvs.
    { rewrite Hbspec. split.
      - intros Hall q Hq. destruct (Hall q Hq) as (qn & Hqn & Hin).
        by apply (visited_iff _ _ _ _ _ _ Hinv Hqn).
      - intros Hall q Hq.
        assert (q < length h)%nat as Hqlt.
        { destruct (h_valid _ _ Hcn) as [_ Hps].
          rewrite Forall_forall in Hps. by apply Hps. }
        destruct (lookup_lt_is_Some_2 h q Hqlt) as [qn Hqn].
        exists qn. split; [done|].
        apply (visited_iff _ _ _ _ _ _ Hinv Hqn). by apply Hall. }
    cbn [bfsWave csVisited csIncomplete csAppended]. rewrite Hcn.
    cbn [mbind option_bind]. rewrite Hb. cbn [mbind option_bind].
    destruct b.
    + destruct (step_visit cur cn rest app vs visited incomplete k)
        as (vs1 & Hinv1 & Hw1); [done|done|by apply Hbvs|done|done|].
      destruct (IH (app ++ children cn) (vs ++ vs1) _ _ Hinv1)
        as (s & vs2 & Hs & Hinv2 & Hw2); [by apply waveInv_app|done|].
      exists s, (vs1 ++ vs2). rewrite app_assoc. done.
    + destruct (IH app vs visited (<[TaskInsID cn := cur]> incomplete))
        as (s & vs2 & Hs & Hinv2 & Hw2); [|done|done|by eauto].
      apply (step_park cur cn); [done|done|].
      intros Hall. apply Hbvs in Hall. done.
Qed.

Lemma NoDup_bounded_length (l : list nat) (n : nat) :
  NoDup l → Forall (λ x, x < n)%nat l → (length l ≤ n)%nat.
Proof.
  intros Hnd Hall. transitivity (length (seq 0 n)); [|by rewrite length_seq].
  apply submseteq_length, NoDup_submseteq; [done|].
  intros x Hx. rewrite Forall_forall in Hall.
  apply elem_of_seq. specialize (Hall x Hx). lia.
Qed.

(** With enough fuel the check returns, in a state where nothing is
    pending. *)
Lemma bfsCheckCycle_inv (fuel k : nat) queue vs visited incomplete :
  cycleInv h vs visited incomplete queue → waveInv h vs k queue →
  (k ≤ S (length h))%nat → (length h + 2 ≤ fuel + k)%nat →
  ∃ visited' incomplete' vs',
    bfsCheckCycle fuel h queue visited incomplete = Some (visited', incomplete') ∧
    cycleInv h vs' visited' incomplete' [].
Proof.
  revert k queue vs visited incomplete.
  induction fuel as [|fuel IH]; intros k queue vs visited incomplete Hinv Hw Hk Hfuel;
    [lia|].
  destruct queue as [|x queue]; [by simpl; eauto|].
  assert (k ≤ length h)%nat as Hk'.
  { destruct (Hw x) as [->|(i & u & Hi & Hki & _)]; [by left|lia|].
    apply lookup_lt_Some in Hi.
    pose proof (NoDup_bounded_length vs (length h)
                  (ci_nodup _ _ _ _ _ Hinv) (ci_valid _ _ _ _ _ Hinv)). lia. }
  destruct (bfsWave_inv (x :: queue) [] vs visited incomplete k)
    as (s & vs1 & Hs & Hinv1 & Hw1).
  { by rewrite app_nil_r. }
  { done. }
  { by intros y Hy%elem_of_nil. }
  cbn [bfsCheckCycle]. rewrite Hs. cbn [mbind option_bind].
  apply (IH (S k) _ (vs ++ vs1)); [done|done|lia|lia].
Qed.

Lemma cycleInv_initial t :
  rooted h t → cycleInv h [] ∅ ∅ [t] ∧ waveInv h [] 0 [t].
Proof.
  intros [[tn Ht] Hroot]. split; [|by left]. split.
  - constructor.
  - constructor.
  - intros s. split; [by intros ?%elem_of_empty|].
    by intros (p & pn & ?%elem_of_nil & _).
  - by intros i p q.
  - apply Forall_singleton. by eapply lookup_lt_Some.
  - intros c Hc Hall. right. apply list_elem_of_singleton.
    destruct (lookup_lt_is_Some_2 h c Hc) as [cn Hcn].
    apply (Hroot c cn Hcn).
    destruct (parents cn) as [|q ps] eqn:Hps; [done|].
    exfalso. apply (elem_of_nil q), Hall, (edge_parents _ _ cn); [done|].
    rewrite Hps. by left.
  - intros k n. by rewrite lookup_empty.
  - by intros p c ?%elem_of_nil.
Qed.

Lemma bfsCheckCycle_mono (fuel fuel' : nat) queue visited incomplete r :
  (fuel ≤ fuel')%nat →
  bfsCheckCycle fuel h queue visited incomplete = Some r →
  bfsCheckCycle fuel' h queue visited incomplete = Some r.
Proof.
  revert fuel' queue visited incomplete.
  induction fuel as [|fuel IH]; intros fuel' queue visited incomplete Hle; [done|].
  destruct fuel' as [|fuel']; [lia|]. simpl.
  destruct queue as [|x queue]; [done|].
  destruct (bfsWave h (x :: queue) _) as [s|]; simpl; [|done].
  apply IH. lia.
Qed.

(** ** What the final state says about cycles *)

Lemma visited_ancestors vs visited incomplete pending a b :
  cycleInv h vs visited incomplete pending →
  tc (edge h) a b → b ∈ vs →
  ∃ i j, (i < j)%nat ∧ vs !! i = Some a ∧ vs !! j = Some b.
Proof.
  intros Hinv Htc. induction Htc as [a b He|a a' b He _ IH]; intros Hb.
  - apply list_elem_of_lookup_1 in Hb as (j & Hj).
    destruct (ci_order _ _ _ _ _ Hinv j b a Hj He) as (i & Hi & Hia). by eauto.
  - destruct (IH Hb) as (i' & j & Hlt & Hi' & Hj).
    destruct (ci_order _ _ _ _ _ Hinv i' a' a Hi' He) as (i & Hi & Hia).
    exists i, j. split; [lia|done].
Qed.

Lemma onCycle_not_visited vs visited incomplete pending c :
  cycleInv h vs visited incomplete pending → onCycle h c → c ∉ vs.
Proof.
  intros Hinv Hc Hin.
  destruct (visited_ancestors _ _ _ _ _ _ Hinv Hc Hin) as (i & j & Hlt & Hi & Hj).
  pose proof (NoDup_lookup _ _ _ _ (ci_nodup _ _ _ _ _ Hinv) Hi Hj). lia.
Qed.

Lemma frontier_edge (vs : list ptr) a c :
  rtc (edge h) a c → a ∈ vs → c ∉ vs →
  ∃ p q, p ∈ vs ∧ (q ∉ vs) ∧ edge h p q.
Proof.
  induction 1 as [a|a a' c He _ IH]; intros Ha Hc; [done|].
  destruct (decide (a' ∈ vs)) as [Ha'|Ha']; [by apply IH|by eauto].
Qed.

(** A cycle that the start node reaches leaves an entry in [incomplete]. *)
Lemma reachable_cycle_incomplete vs visited incomplete t c :
  rooted h t → cycleInv h vs visited incomplete [] →
  rtc (edge h) t c → onCycle h c →
  ∃ k n, incomplete !! k = Some n.
Proof.
  intros [[tn Ht] Hroot] Hinv Hreach Hc.
  assert (t ∈ vs) as Htvs.
  { destruct (ci_ready _ _ _ _ _ Hinv t) as [?|?%elem_of_nil]; [| |done..].
    - by eapply lookup_lt_Some.
    - intros q Hq%(edge_parents _ _ tn); [|done].
      rewrite (proj2 (Hroot t tn Ht) eq_refl) in Hq. by apply elem_of_nil in Hq. }
  destruct (frontier_edge vs t c Hreach Htvs) as (p & q & Hp & Hq & He).
  { by eapply onCycle_not_visited. }
  destruct (ci_frontier _ _ _ _ _ Hinv p q Hp He)
    as [?|[?%elem_of_nil|(qn & Hqn & Hi)]]; [done|done|by eauto].
Qed.

Lemma isPath_app_r l1 l2 : isPath h (l1 ++ l2) → isPath h l2.
Proof.
  induction l1 as [|x l1 IH]; [done|]. simpl.
  destruct (l1 ++ l2) as [|y l] eqn:E.
  - apply app_eq_nil in E as [_ ->]. done.
  - intros [_ Hp]. by apply IH.
Qed.

Lemma isPath_tc x l2 y l3 : isPath h (x :: l2 ++ y :: l3) → tc (edge h) x y.
Proof.
  revert x. induction l2 as [|z l2 IH]; intros x.
  - intros [He _]. by apply tc_once.
  - intros [He Hp]. eapply tc_l; [done|]. by apply IH.
Qed.

Lemma isPath_rtc x l n :
  isPath h (x :: l) → last (x :: l) = Some n → rtc (edge h) x n.
Proof.
  revert x. induction l as [|y l IH]; intros x.
  - intros _ [= ->]. done.
  - intros [He Hp] Hlast. eapply rtc_l; [done|]. by apply IH.
Qed.

Lemma not_NoDup_split (l : list nat) :
  ¬ NoDup l → ∃ x l1 l2 l3, l = l1 ++ x :: l2 ++ x :: l3.
Proof.
  induction l as [|a l IH]; intros Hnd.
  - exfalso. apply Hnd. constructor.
  - destruct (decide (a ∈ l)) as [Hin|Hnin].
    + apply list_elem_of_split in Hin as (l2 & l3 & ->). by exists a, [], l2, l3.
    + destruct IH as (x & l1 & l2 & l3 & ->).
      { intros Hl. apply Hnd. by constructor. }
      by exists x, (a :: l1), l2, l3.
Qed.

(** In the final state an unvisited node has an unvisited parent. *)
Lemma unvisited_parent vs visited incomplete t u :
  rooted h t → cycleInv h vs visited incomplete [] →
  (u < length h)%nat → u ∉ vs →
  ∃ q, (q < length h)%nat ∧ (q ∉ vs) ∧ edge h q u.
Proof.
  intros Hroot Hinv Hu Hnin.
  destruct (lookup_lt_is_Some_2 h u Hu) as [un Hun].
  destruct (decide (Forall (λ q, q ∈ vs) (parents un))) as [Hall|Hnot].
  - exfalso. rewrite Forall_forall in Hall.
    destruct (ci_ready _ _ _ _ _ Hinv u Hu) as [?|?%elem_of_nil]; [|done..].
    intros q Hq%(edge_parents _ _ un); [|done]. by apply Hall.
  - apply not_Forall_Exists in Hnot; [|apply _].
    apply Exists_exists in Hnot as (q & Hq & Hqn). exists q.
    split; [|split; [done|by apply (edge_parents _ _ un)]].
    destruct (h_valid _ _ Hun) as [_ Hps]. rewrite Forall_forall in Hps.
    by apply Hps.
Qed.

Lemma unvisited_walk vs visited incomplete t (m : nat) n :
  rooted h t → cycleInv h vs visited incomplete [] →
  (n < length h)%nat → n ∉ vs →
  ∃ l, length l = S m ∧ Forall (λ u, (u < length h)%nat ∧ (u ∉ vs)) l ∧
       isPath h l ∧ last l = Some n.
Proof.
  intros Hroot Hinv Hn Hnin. induction m as [|m IH].
  - exists [n]. split; [done|]. split; [|done]. by apply Forall_singleton.
  - destruct IH as (l & Hlen & Hall & Hpath & Hlast).
    destruct l as [|x l]; [done|].
    pose proof (Forall_inv Hall) as [Hx Hxn].
    destruct (unvisited_parent _ _ _ _ _ Hroot Hinv Hx Hxn) as (q & Hq & Hqn & He).
    exists (q :: x :: l). split; [by rewrite <- Hlen|].
    split; [by constructor|]. split; [done|]. by rewrite last_cons, Hlast.
Qed.

(** Every node left in [incomplete] is on a cycle or below one. *)
Lemma incomplete_underCycle vs visited incomplete t k n :
  rooted h t → cycleInv h vs visited incomplete [] →
  incomplete !! k = Some n → underCycle h n.
Proof.
  intros Hroot Hinv Hk.
  destruct (ci_incomplete _ _ _ _ _ Hinv k n Hk) as (nn & Hn & _ & Hnin).
  destruct (unvisited_walk _ _ _ _ (length h) n Hroot Hinv)
    as (l & Hlen & Hall & Hpath & Hlast); [by eapply lookup_lt_Some|done|].
  destruct (not_NoDup_split l) as (x & l1 & l2 & l3 & ->).
  { intros Hnd. apply (NoDup_bounded_length _ (length h)) in Hnd; [lia|].
    eapply Forall_impl; [done|]. by intros u [? _]. }
  apply isPath_app_r in Hpath. exists x. split.
  - by eapply isPath_tc.
  - apply (isPath_rtc x l3).
    + by apply (isPath_app_r (x :: l2)) in Hpath.
    + rewrite last_app in Hlast.
      change (x :: l2 ++ x :: l3) with ((x :: l2) ++ x :: l3) in Hlast.
      rewrite last_app in Hlast.
      destruct (last (x :: l3)) as [y|] eqn:E; [done|].
      by apply last_None in E.
Qed.
End CycleFacts.

(** * Shape of a built graph *)

Lemma addEdge_length p c (h : heap) : length (addEdge p c h) = length h.
Proof. unfold addEdge. by rewrite !length_alter. Qed.

Lemma addEdge_ids p c (h : heap) : TaskInsID <$> addEdge p c h = TaskInsID <$> h.
Proof.
  unfold addEdge. apply list_eq. intros q. rewrite !list_lookup_fmap.
  rewrite lookup_alter_proj by done. by rewrite lookup_alter_proj.
Qed.

Lemma addEdge_children p c (h : heap) x :
  children <$> addEdge p c h !! x =
    (λ cs, if decide (x = p) then cs ++ [c] else cs) <$> (children <$> h !! x).
Proof.
  unfold addEdge. rewrite lookup_alter_proj by done.
  destruct (decide (x = p)) as [->|Hne].
  - rewrite list_lookup_alter_eq. by destruct (h !! p).
  - rewrite list_lookup_alter_ne by done. by destruct (h !! x).
Qed.

Lemma addEdge_parents p c (h : heap) y :
  parents <$> addEdge p c h !! y =
    (λ ps, if decide (y = c) then ps ++ [p] else ps) <$> (parents <$> h !! y).
Proof.
  unfold addEdge. destruct (decide (y = c)) as [->|Hne].
  - rewrite list_lookup_alter_eq.
    rewrite <- (lookup_alter_proj parents (AppendChild c) p c h) by done.
    by destruct (alter (AppendChild c) p h !! c).
  - rewrite list_lookup_alter_ne by done.
    rewrite lookup_alter_proj by done. by destruct (h !! y).
Qed.

Lemma edge_fmap (h : heap) x y :
  edge h x y ↔ ∃ cs, children <$> h !! x = Some cs ∧ y ∈ cs.
Proof.
  unfold edge. split.
  - intros (pn & -> & Hy). by eauto.
  - intros (cs & Hcs & Hy). destruct (h !! x) as [pn|]; [|done].
    injection Hcs as <-. by eauto.
Qed.

Lemma parent_fmap (h : heap) x y :
  (∃ cn, h !! y = Some cn ∧ x ∈ parents cn) ↔
  ∃ ps, parents <$> h !! y = Some ps ∧ x ∈ ps.
Proof.
  split.
  - intros (cn & -> & Hx). by eauto.
  - intros (ps & Hps & Hx). destruct (h !! y) as [cn|]; [|done].
    injection Hps as <-. by eauto.
Qed.

Lemma addEdge_sym p c (h : heap) :
  (p < length h)%nat → (c < length h)%nat →
  linksSym h → linksSym (addEdge p c h).
Proof.
  intros Hp Hc Hsym x y.
  destruct (lookup_lt_is_Some_2 h p Hp) as [pn Hpn].
  destruct (lookup_lt_is_Some_2 h c Hc) as [cn Hcn].
  assert (edge (addEdge p c h) x y ↔ edge h x y ∨ (x = p ∧ y = c)) as ->.
  { rewrite !edge_fmap, addEdge_children.
    destruct (decide (x = p)) as [->|Hne].
    - rewrite Hpn. simpl. split.
      + intros (cs & [= <-] & [Hy|Hy]%elem_of_app).
        * left. by eauto.
        * apply list_elem_of_singleton in Hy. by right.
      + intros [(cs & [= <-] & Hy)|[_ ->]]; eexists; (split; [done|]);
          rewrite elem_of_app, list_elem_of_singleton; auto.
    - destruct (h !! x) as [xn|]; simpl; [|by split; [intros (? & [=] & _)|intros [(? & [=] & _)|[? _]]]].
      split; [by left|]. by intros [?|[? _]]. }
  rewrite parent_fmap, addEdge_parents, (Hsym x y), parent_fmap.
  destruct (decide (y = c)) as [->|Hne].
  - rewrite Hcn. simpl. split.
    + intros [(ps & [= <-] & Hx)|[-> _]]; eexists; (split; [done|]);
        rewrite elem_of_app, list_elem_of_singleton; auto.
    + intros (ps & [= <-] & [Hx|Hx]%elem_of_app).
      * left. by eauto.
      * apply list_elem_of_singleton in Hx. by right.
  - destruct (h !! y) as [yn|]; simpl.
    + split; [by intros [?|[_ ?]]|by left].
    + split; [by intros [(? & [=] & _)|[_ ?]]|by intros (? & [=] & _)].
Qed.

Section ShapeFacts.
Context `{TaskInfoGetter T}.

Lemma linkDepends_shape (m : gmap string ptr) task (a : ptr) deps (h h' : heap) :
  (a < length h)%nat →
  (∀ d p, m !! d = Some p → (p < length h)%nat) →
  linksSym h →
  linkDepends m task a deps h = Built h' →
  linksSym h' ∧ TaskInsID <$> h' = TaskInsID <$> h ∧
  ∀ q ps, parents <$> h !! q = Some ps →
          ∃ extra, parents <$> h' !! q = Some (ps ++ extra) ∧
                   (q = a → length extra = length deps).
Proof.
  revert h. induction deps as [|d deps IH]; intros h Ha Hm Hsym; simpl.
  - intros [= <-]. split; [done|]. split; [done|]. intros q ps Hq.
    exists []. by rewrite app_nil_r.
  - destruct (m !! d) as [p|] eqn:Hd; [|done].
    change (alter (AppendParent p) a (alter (AppendChild a) p h))
      with (addEdge p a h).
    intros Hlink. apply IH in Hlink as (Hsym' & Hids & Hpar).
    + split; [done|]. split; [by rewrite Hids, addEdge_ids|].
      intros q ps Hq.
      destruct (Hpar q (if decide (q = a) then ps ++ [p] else ps))
        as (extra & Hextra & Hlen).
      { by rewrite addEdge_parents, Hq. }
      destruct (decide (q = a)) as [->|Hne].
      * exists (p :: extra). rewrite Hextra, <- app_assoc. split; [done|].
        intros _. simpl. by rewrite Hlen.
      * exists extra. done.
    + by rewrite addEdge_length.
    + intros d' p' Hd'. rewrite addEdge_length. by eapply Hm.
    + apply addEdge_sym; [by eapply Hm|done..].
Qed.

Section LinkShape.
Variable tasks : list T.
Variable m : gmap string ptr.
Hypothesis m_index : ∀ g a,
  m !! g = Some a ↔ ∃ i t, tasks !! i = Some t ∧ GetGraphID t = g ∧ a = S i.

Lemma linkTask_shape k t (h h' : heap) :
  tasks !! k = Some t → linkInv tasks k h → linkShape tasks k h →
  linkTask m 0 t h = Built h' → linkShape tasks (S k) h'.
Proof.
  intros Hk (Hlen & _ & _ & _) (Hsym & Hids & Hpar).
  unfold linkTask. rewrite (m_lookup_task tasks m m_index _ _ Hk).
  assert (S k < length h)%nat as Hklt.
  { apply lookup_lt_Some in Hk. lia. }
  destruct (lookup_lt_is_Some_2 h (S k) Hklt) as [kn Hkn].
  assert (∀ h1 : heap,
    linksSym h1 → TaskInsID <$> h1 = TaskInsID <$> h →
    (∀ q ps, parents <$> h !! q = Some ps →
             ∃ extra, parents <$> h1 !! q = Some (ps ++ extra) ∧
                      (q = S k → extra ≠ [])) →
    linkShape tasks (S k) h1) as Hgoal.
  { intros h1 Hsym1 Hids1 Hpar1. split; [done|]. split; [by rewrite Hids1|].
    intros i t' Hi Hlt.
    assert (∃ nd, h !! S i = Some nd ∧ (i ≠ k → parents nd ≠ []))
      as (nd & Hnd & Hne).
    { destruct (decide (i = k)) as [->|Hik]; [by eauto|].
      destruct (Hpar i t' Hi) as (nd & ? & ?); [lia|]. by eauto. }
    destruct (Hpar1 (S i) (parents nd)) as (extra & Hex & Hextra).
    { by rewrite Hnd. }
    destruct (h1 !! S i) as [nd1|]; [|done]. injection Hex as Hex.
    exists nd1. split; [done|]. rewrite Hex.
    destruct (decide (i = k)) as [->|Hik].
    - intros [_ ?]%app_eq_nil. by apply Hextra.
    - intros [? _]%app_eq_nil. by apply Hne. }
  destruct (GetDepend t) as [|d0 deps] eqn:Hdeps.
  - intros [= <-]. rewrite list_alter_alter_ne by done.
    change (alter (AppendParent 0) (S k) (alter (AppendChild (S k)) 0 h))
      with (addEdge 0 (S k) h).
    apply Hgoal.
    + apply addEdge_sym; [lia|done..].
    + apply addEdge_ids.
    + intros q ps Hq. rewrite addEdge_parents, Hq. simpl.
      destruct (decide (q = S k)); [by eexists [0]|].
      exists []. by rewrite app_nil_r.
  - intros Hlink. apply linkDepends_shape in Hlink as (Hsym' & Hids' & Hpar');
      [|done| |done].
    + apply Hgoal; [done..|]. intros q ps Hq.
      destruct (Hpar' q ps Hq) as (extra & Hex & Hlenx).
      exists extra. split; [done|]. intros Hqk ->. by specialize (Hlenx Hqk).
    + intros d p Hd. by eapply (m_range tasks m m_index).
Qed.

Lemma linkTasks_shape done todo (h h' : heap) :
  tasks = done ++ todo → linkInv tasks (length done) h →
  linkShape tasks (length done) h →
  linkTasks m 0 todo h = Built h' → linkShape tasks (length tasks) h'.
Proof.
  revert done h. induction todo as [|t todo IH]; intros done h Htasks Hinv Hshape;
    simpl.
  - intros [= <-]. rewrite app_nil_r in Htasks. by subst done.
  - assert (tasks !! length done = Some t) as Hk.
    { rewrite Htasks. by rewrite list_lookup_middle. }
    pose proof (linkTask_spec tasks m m_index _ _ _ Hk Hinv) as Hstep.
    destruct (linkTask m 0 t h) as [h1|e|] eqn:Hlink; simpl; [|done..].
    destruct Hstep as [Hinv1 _].
    apply (IH (done ++ [t]) h1).
    + by rewrite <- app_assoc.
    + by rewrite length_app, Nat.add_1_r.
    + rewrite length_app, Nat.add_1_r. by eapply linkTask_shape.
Qed.
End LinkShape.

Lemma linkShape_initial (tasks : list T) :
  linkShape tasks 0
    ([ {| TaskInsID := virtualTaskRootID; Status := TaskInstanceStatusSuccess;
          children := []; parents := [] |} ]
       ++ (NewTaskNodeFromGetter <$> tasks)).
Proof.
  split; [|split].
  - intros p c. split.
    + intros (pn & Hp & Hc). exfalso. destruct p as [|p]; simpl in Hp.
      * injection Hp as <-. by apply elem_of_nil in Hc.
      * rewrite list_lookup_fmap in Hp. destruct (tasks !! p); [|done].
        injection Hp as <-. by apply elem_of_nil in Hc.
    + intros (cn & Hc & Hp). exfalso. destruct c as [|c]; simpl in Hc.
      * injection Hc as <-. by apply elem_of_nil in Hp.
      * rewrite list_lookup_fmap in Hc. destruct (tasks !! c); [|done].
        injection Hc as <-. by apply elem_of_nil in Hp.
  - simpl. f_equal. by rewrite <- list_fmap_compose.
  - intros i t _ Hlt. lia.
Qed.

(** A built graph is well formed: its links are valid and symmetric, the
    root is the only node without parents, and the identities are those of
    the tasks. *)
Lemma BuildRootNode_shape (tasks : list T) h root :
  BuildRootNode tasks = Built (h, root) →
  root = 0 ∧ linksValid h ∧ linksSym h ∧ rooted h 0 ∧
  TaskInsID <$> h = virtualTaskRootID :: (GetID <$> tasks).
Proof.
  intros Hb. destruct (BuildRootNode_linksValid tasks h root Hb) as [-> Hval].
  pose proof (BuildRootNode_cases tasks) as Hcases. rewrite Hb in Hcases.
  destruct Hcases as (_ & Hinv & _).
  revert Hb. unfold BuildRootNode, buildGraphNodeMap.
  pose proof (buildGraphNodeMap_from_spec tasks
    [ {| TaskInsID := virtualTaskRootID; Status := TaskInstanceStatusSuccess;
         children := []; parents := [] |} ] ∅) as Hmap.
  destruct (buildGraphNodeMap_from tasks _ ∅) as [[h1 m]|e|]; simpl; [|done..].
  destruct Hmap as (_ & _ & -> & Hchar).
  assert (∀ g a, m !! g = Some a ↔
            ∃ i t, tasks !! i = Some t ∧ GetGraphID t = g ∧ a = S i) as Hm.
  { intros g a. rewrite Hchar. split; [|by eauto].
    intros [Hg|?]; [by rewrite lookup_empty in Hg|done]. }
  destruct (linkTasks m 0 tasks _) as [h2|e|] eqn:Hlink; simpl; [|done..].
  apply (linkTasks_shape tasks m Hm [] tasks) in Hlink as (Hsym & Hids & Hpar);
    [|done|apply linkInv_initial|apply linkShape_initial].
  destruct (children <$> h2 !! 0) as [[|c cs]|]; [done| |done].
  intros [= <-]. split; [done|]. split; [done|]. split; [done|]. split; [|done].
  destruct Hinv as (Hlen & (rn & Hroot & _ & Hrp & _) & _ & _).
  split; [by eauto|]. intros [|i] pn Hp.
  - rewrite Hroot in Hp. injection Hp as <-. done.
  - split; [|done]. intros Hnil.
    assert (i < length tasks)%nat as Hi.
    { apply lookup_lt_Some in Hp. lia. }
    destruct (lookup_lt_is_Some_2 tasks i Hi) as [t Ht].
    destruct (Hpar i t Ht Hi) as (nd & Hnd & Hne).
    rewrite Hp in Hnd. injection Hnd as <-. done.
Qed.

Lemma BuildRootNode_idsDistinct (tasks : list T) h root :
  BuildRootNode tasks = Built (h, root) →
  NoDup (virtualTaskRootID :: (GetID <$> tasks)) → idsDistinct h.
Proof.
  intros (_ & _ & _ & _ & Hids)%BuildRootNode_shape Hnd p q pn qn Hp Hq Heq.
  rewrite <- Hids in Hnd. eapply NoDup_lookup; [done| |].
  - by rewrite list_lookup_fmap, Hp.
  - rewrite list_lookup_fmap, Hq. simpl. by rewrite Heq.
Qed.
End ShapeFacts.

(** * The cycle detector on built graphs *)

(** C6 (as amended): on a graph built from tasks whose identities are
    pairwise distinct and differ from the root's, [HasCycle] on the root
    returns for every fuel above the size of the graph; every node it can
    return is on a cycle or below one, so it returns none on an acyclic
    graph; and it returns a node when the root reaches a cycle. *)
Theorem HasCycle_built `{TaskInfoGetter T} (tasks : list T) h root :
  BuildRootNode tasks = Built (h, root) →
  NoDup (virtualTaskRootID :: (GetID <$> tasks)) →
  ∀ fuel, (length h + 2 ≤ fuel)%nat →
    (∃ r, HasCycle fuel h root r) ∧
    (∀ n, HasCycle fuel h root (Some n) → underCycle h n) ∧
    ((∀ c, ¬ onCycle h c) → ∀ r, HasCycle fuel h root r → r = None) ∧
    ((∃ c, rtc (edge h) root c ∧ onCycle h c) →
     ∀ r, HasCycle fuel h root r → ∃ n, r = Some n ∧ underCycle h n).
Proof.
  intros Hb Hnd fuel Hfuel.
  pose proof (BuildRootNode_idsDistinct tasks h root Hb Hnd) as Hids.
  destruct (BuildRootNode_shape tasks h root Hb) as (-> & Hval & Hsym & Hroot & _).
  destruct (cycleInv_initial h Hsym 0 Hroot) as [Hinv0 Hw0].
  destruct (bfsCheckCycle_inv h Hval Hsym Hids fuel 0 [0] [] ∅ ∅ Hinv0 Hw0)
    as (visited & incomplete & vs & Hrun & Hinv); [lia|lia|].
  assert (∀ n, HasCycle fuel h 0 (Some n) → underCycle h n) as Hsound.
  { intros n (inc & Hinc & k & Hk). unfold HasCycle_incomplete in Hinc.
    rewrite Hrun in Hinc. injection Hinc as <-.
    by eapply (incomplete_underCycle h Hval Hsym). }
  split; [|split; [done|split]].
  - destruct (map_choose_or_empty incomplete) as [(k & n & Hk)| ->].
    + exists (Some n), incomplete. unfold HasCycle_incomplete. rewrite Hrun.
      split; [done|]. by eauto.
    + exists None, ∅. unfold HasCycle_incomplete. by rewrite Hrun.
  - intros Hacyc [n|] Hr; [|done].
    destruct (Hsound n Hr) as (c & Hc & _). by destruct (Hacyc c).
  - intros (c & Hreach & Hc) [n|] Hr; [by eauto|].
    destruct Hr as (inc & Hinc & ->). unfold HasCycle_incomplete in Hinc.
    rewrite Hrun in Hinc. injection Hinc as ->.
    destruct (reachable_cycle_incomplete h Hsym vs visited ∅ 0 c)
      as (k & n & Hk); [done..|]. by rewrite lookup_empty in Hk.
Qed.

Lemma HasCycle_built_witness :
  BuildRootNode reachableCycle = Built (reachableCycleHeap, 0) ∧
  NoDup (virtualTaskRootID :: (GetID <$> reachableCycle)) ∧
  (∃ r, HasCycle 6 reachableCycleHeap 0 r) ∧
  (∀ r, HasCycle 6 reachableCycleHeap 0 r →
        ∃ n, r = Some n ∧ underCycle reachableCycleHeap n) ∧
  HasCycle_incomplete 6 reachableCycleHeap 0 = Some {[ "A" := 2 ]}.
Proof.
  assert (BuildRootNode reachableCycle = Built (reachableCycleHeap, 0)) as Hb
    by (by vm_compute).
  assert (NoDup (virtualTaskRootID :: (GetID <$> reachableCycle))) as Hnd.
  { apply (bool_decide_unpack _). by vm_compute. }
  split; [done|]. split; [done|].
  destruct (HasCycle_built reachableCycle reachableCycleHeap 0 Hb Hnd 6)
    as (Hret & _ & _ & Hcyc); [vm_compute; lia|].
  split; [done|]. split; [|by vm_compute].
  apply Hcyc. exists 2. split.
  - apply (rtc_l _ 0 1 2); [solve_edge|]. apply rtc_once. solve_edge.
  - apply (tc_l _ 2 3 2); [solve_edge|]. apply tc_once. solve_edge.
Defined.

Lemma HasCycle_mono (fuel fuel' : nat) h t inc :
  (fuel ≤ fuel')%nat →
  HasCycle_incomplete fuel h t = Some inc →
  HasCycle_incomplete fuel' h t = Some inc.
Proof.
  unfold HasCycle_incomplete. intros Hle.
  destruct (bfsCheckCycle fuel h [t] ∅ ∅) as [r|] eqn:E; [|done].
  by rewrite (bfsCheckCycle_mono h _ _ _ _ _ _ Hle E).
Qed.

(** One generation of the queue holding a single node whose parents are
    all marked visited. *)
Lemma bfsCheckCycle_visit_one fuel (h : heap) cur cn visited incomplete :
  h !! cur = Some cn →
  isParentCompleted h visited (parents cn) = Some true →
  bfsCheckCycle (S fuel) h [cur] visited incomplete =
    bfsCheckCycle fuel h (children cn) ({[TaskInsID cn]} ∪ visited)
      (delete (TaskInsID cn) incomplete).
Proof. intros Hcur Hpar. simpl. rewrite Hcur. simpl. by rewrite Hpar. Qed.

Lemma sharedIdentityHeap_eq :
  sharedIdentityHeap =
    [ {| TaskInsID := virtualTaskRootID; Status := TaskInstanceStatusSuccess;
         children := [1]; parents := [] |};
      {| TaskInsID := "x"; Status := TaskInstanceStatusSuccess;
         children := [2]; parents := [0] |};
      {| TaskInsID := "x"; Status := TaskInstanceStatusInit;
         children := [3]; parents := [1; 3] |};
      {| TaskInsID := "x"; Status := TaskInstanceStatusInit;
         children := [2]; parents := [2] |} ].
Proof. by vm_compute. Qed.

Lemma sharedIdentity_loop fuel (visited : gset string) :
  "x" ∈ visited →
  bfsCheckCycle fuel sharedIdentityHeap [2] visited ∅ = None ∧
  bfsCheckCycle fuel sharedIdentityHeap [3] visited ∅ = None.
Proof.
  rewrite sharedIdentityHeap_eq. revert visited.
  induction fuel as [|fuel IH]; intros visited Hx; [done|].
  assert ("x" ∈ ({["x"]} ∪ visited : gset string)) as Hx'.
  { apply elem_of_union. by right. }
  split.
  - erewrite bfsCheckCycle_visit_one; [|done|].
    + simpl. rewrite delete_empty. by apply IH.
    + simpl. by rewrite !bool_decide_eq_true_2.
  - erewrite bfsCheckCycle_visit_one; [|done|].
    + simpl. rewrite delete_empty. by apply IH.
    + simpl. by rewrite !bool_decide_eq_true_2.
Qed.

Lemma sharedIdentity_diverges fuel :
  HasCycle_incomplete fuel sharedIdentityHeap 0 = None.
Proof.
  unfold HasCycle_incomplete.
  destruct fuel as [|[|fuel]]; [done| |].
  - by vm_compute.
  - rewrite sharedIdentityHeap_eq.
    erewrite bfsCheckCycle_visit_one; [|reflexivity|reflexivity].
    cbn [children TaskInsID].
    erewrite bfsCheckCycle_visit_one; [|reflexivity|].
    + cbn [children TaskInsID]. rewrite <- sharedIdentityHeap_eq.
      rewrite !delete_empty.
      destruct (sharedIdentity_loop fuel
                  ({["x"]} ∪ ({[virtualTaskRootID]} ∪ ∅))) as [-> _]; [|done].
      apply elem_of_union. left. by apply elem_of_singleton.
    + simpl. rewrite bool_decide_eq_true_2; [done|].
      apply elem_of_union. left. by apply elem_of_singleton.
Qed.

(** C6 (as stated) fails twice.  A cycle that the root does not reach goes
    unnoticed: with a start task S next to the cycle A→B→A the build
    succeeds and [HasCycle] returns none.  And when tasks share an identity
    the check of a cyclic graph does not return at all. *)
Lemma HasCycle_misses_cycles :
  (BuildRootNode unreachableCycle = Built (unreachableCycleHeap, 0) ∧
   NoDup (virtualTaskRootID :: (GetID <$> unreachableCycle)) ∧
   onCycle unreachableCycleHeap 2 ∧
   (TaskInsID <$> unreachableCycleHeap !! 2) = Some "A" ∧
   HasCycle 3 unreachableCycleHeap 0 None ∧
   ∀ fuel n, ¬ HasCycle fuel unreachableCycleHeap 0 (Some n)) ∧
  (BuildRootNode sharedIdentityCycle = Built (sharedIdentityHeap, 0) ∧
   onCycle sharedIdentityHeap 2 ∧
   ∀ fuel r, ¬ HasCycle fuel sharedIdentityHeap 0 r).
Proof.
  split.
  - split; [by vm_compute|]. split.
    { apply (bool_decide_unpack _). by vm_compute. }
    split.
    { apply (tc_l _ 2 3 2); [solve_edge|]. apply tc_once. solve_edge. }
    split; [by vm_compute|].
    assert (HasCycle_incomplete 3 unreachableCycleHeap 0 = Some ∅) as Hrun
      by (by vm_compute).
    split; [by exists ∅|].
    intros fuel n (inc & Hinc & k & Hk).
    apply (HasCycle_mono _ (fuel `max` 3)) in Hinc; [|lia].
    apply (HasCycle_mono _ (fuel `max` 3)) in Hrun; [|lia].
    rewrite Hrun in Hinc. injection Hinc as <-. by rewrite lookup_empty in Hk.
  - split; [by vm_compute|]. split.
    { apply (tc_l _ 2 3 2); [solve_edge|]. apply tc_once. solve_edge. }
    intros fuel r (inc & Hinc & _). by rewrite sharedIdentity_diverges in Hinc.
Qed.

(** * Termination of the walk on graphs without cycles *)

Lemma skipChild_total h c :
  linksValid h → (c < length h)%nat → is_Some (skipChild h c).
Proof.
  intros Hval Hc. unfold skipChild.
  destruct (lookup_lt_is_Some_2 h c Hc) as [cn Hcn]. rewrite Hcn. simpl.
  case_bool_decide; [|by eauto].
  unfold CanBeExecuted. destruct (parents cn) as [|q ps] eqn:Hps; [by eauto|].
  destruct (parentsProceed_total h (q :: ps)) as [b Hb].
  - rewrite <- Hps. by eapply Hval.
  - rewrite Hb. by eauto.
Qed.

Lemma visitsChildren_total (walk : ptr → option (list ptr)) h cs :
  linksValid h → Forall (λ c, c < length h)%nat cs →
  (∀ c, c ∈ cs → is_Some (walk c)) →
  is_Some (visitsChildren walk h cs).
Proof.
  intros Hval Hcs. induction Hcs as [|c cs Hc _ IH]; intros Hwalk; simpl.
  - by eauto.
  - destruct (skipChild_total h c Hval Hc) as [skip ->]. simpl.
    destruct IH as [l2 Hl2]; [by intros c' Hc'; apply Hwalk; right|].
    destruct skip; [by eauto|].
    destruct (Hwalk c) as [l1 ->]; [by left|]. simpl. rewrite Hl2. by eauto.
Qed.

(** On a graph without cycles the gated walk needs no more fuel than the
    rank of its start node. *)
Lemma visits_total h rk ign (fuel : nat) root :
  linksValid h → ranked h rk →
  (root < length h)%nat → (rk root < fuel)%nat →
  is_Some (visits fuel ign h root).
Proof.
  intros Hval Hrk. revert root.
  induction fuel as [|fuel IH]; intros root Hroot Hlt; [lia|]. simpl.
  destruct (lookup_lt_is_Some_2 h root Hroot) as [nd Hnd]. rewrite Hnd. simpl.
  destruct (negb ign && negb (CanExecuteChild nd)); [by eauto|].
  destruct (visitsChildren_total (visits fuel ign h) h (children nd)) as [l ->];
    [done|by eapply Hval| |by simpl; eauto].
  intros c Hc. apply IH.
  - destruct (Hval _ _ Hnd) as [Hch _]. rewrite Forall_forall in Hch. by apply Hch.
  - assert (rk c < rk root)%nat; [|lia]. apply Hrk. by exists nd.
Qed.

Lemma gatedWalk_total h rk (fuel : nat) t :
  linksValid h → ranked h rk → (t < length h)%nat → (rk t < fuel)%nat →
  is_Some (gatedWalk fuel h t).
Proof.
  intros Hval Hrk Ht Hlt.
  destruct (visits_total h rk false fuel t Hval Hrk Ht Hlt) as [l Hl].
  exists l. by apply gatedWalk_visits.
Qed.

(** * The executable-set finder along the walk order *)

Lemma executableFunc_quiet : quiet executableFunc.
Proof.
  intros q [h acc] st'. unfold executableFunc. simpl.
  destruct (h !! q) as [nd|]; simpl; [|done].
  destruct (Executable h nd); simpl; [|done]. by intros [= <-].
Qed.

Lemma executableFunc_eq q (h : heap) acc :
  executableFunc q (h, acc) =
    nd ← h !! q; e ← Executable h nd;
    Some ((h, if (e : bool) then acc ++ [TaskInsID nd] else acc), true).
Proof. done. Qed.

Lemma runStop_executableFunc h l acc :
  runStop executableFunc l (h, acc) =
    ids ← executableChildren h l; Some ((h, acc ++ ids), true).
Proof.
  revert acc. induction l as [|q l IH]; intros acc.
  - simpl. by rewrite app_nil_r.
  - cbn [runStop executableChildren]. rewrite executableFunc_eq.
    destruct (h !! q) as [nd|]; [|done].
    cbn [mbind option_bind]. destruct (Executable h nd) as [e|]; [|done].
    cbn [mbind option_bind fst snd]. rewrite IH.
    destruct (executableChildren h l) as [ids|]; [|done].
    cbn [mbind option_bind]. destruct e; [|done]. by rewrite <- app_assoc.
Qed.

(** The finder lists, in walk order, the identity of every node the walk
    reaches that is executable, once for each time the walk reaches it. *)
Lemma GetExecutableTaskIds_walk fuel h t l :
  linksValid h → gatedWalk fuel h t = Some l →
  GetExecutableTaskIds fuel h t =
    Some (h, TaskInsID <$> filter (λ nd, Executable h nd = Some true)
                             (nodesAt h l)).
Proof.
  intros Hval Hl%gatedWalk_visits. unfold GetExecutableTaskIds, walkNode.
  rewrite (dfsWalk_runStop _ executableFunc_quiet _ _ _ _ _ Hl).
  rewrite runStop_executableFunc, executableChildren_filter; [done..|].
  eapply Forall_impl; [by eapply visits_valid|].
  intros q Hq. by apply lookup_lt_is_Some_1.
Qed.

(** * More on the graph builder *)

Lemma addEdge_status p c (h : heap) : Status <$> addEdge p c h = Status <$> h.
Proof.
  unfold addEdge. apply list_eq. intros q. rewrite !list_lookup_fmap.
  rewrite lookup_alter_proj by done. by rewrite lookup_alter_proj.
Qed.

Section ExactFacts.
Context `{TaskInfoGetter T}.

Lemma linkDepends_exact (m : gmap string ptr) task (a : ptr) deps (h h' : heap) :
  a ≠ 0 → (∀ d p, m !! d = Some p → p ≠ 0) →
  linkDepends m task a deps h = Built h' →
  Status <$> h' = Status <$> h ∧
  children <$> h' !! 0 = children <$> h !! 0 ∧
  ∀ q ps, parents <$> h !! q = Some ps →
          ∃ extra, parents <$> h' !! q = Some (ps ++ extra) ∧
                   (q = a → Forall2 (λ p d, m !! d = Some p) extra deps) ∧
                   (q ≠ a → extra = []).
Proof.
  intros Ha Hm. revert h. induction deps as [|d deps IH]; intros h; simpl.
  - intros [= <-]. split; [done|]. split; [done|]. intros q ps Hq.
    exists []. rewrite app_nil_r. split; [done|]. split; [|done].
    intros _. constructor.
  - destruct (m !! d) as [p|] eqn:Hd; [|done].
    change (alter (AppendParent p) a (alter (AppendChild a) p h))
      with (addEdge p a h).
    intros Hlink. apply IH in Hlink as (Hst & Hch & Hpar).
    split; [by rewrite Hst, addEdge_status|]. split.
    { rewrite Hch, addEdge_children.
      destruct (decide (0 = p)) as [<-|_]; [by destruct (Hm _ _ Hd)|].
      by destruct (h !! 0). }
    intros q ps Hq.
    destruct (Hpar q (if decide (q = a) then ps ++ [p] else ps))
      as (extra & Hextra & Heq & Hne).
    { by rewrite addEdge_parents, Hq. }
    destruct (decide (q = a)) as [->|Hqa].
    + exists (p :: extra). rewrite Hextra, <- app_assoc. split; [done|].
      split; [|done]. intros _. constructor; [done|]. by apply Heq.
    + exists extra. split; [done|]. split; [done|]. by intros _; apply Hne.
Qed.

Section LinkExact.
Variable tasks : list T.
Variable m : gmap string ptr.
Hypothesis m_index : ∀ g a,
  m !! g = Some a ↔ ∃ i t, tasks !! i = Some t ∧ GetGraphID t = g ∧ a = S i.

Lemma linkTask_exact k t (h h' : heap) :
  tasks !! k = Some t → length h = S (length tasks) → linkExact tasks m k h →
  linkTask m 0 t h = Built h' → linkExact tasks m (S k) h'.
Proof.
  intros Hk Hlen (Hst & Hroot & Hpar).
  unfold linkTask. rewrite (m_lookup_task tasks m m_index _ _ Hk).
  assert (take (S k) tasks = take k tasks ++ [t]) as Htake.
  { by apply take_S_r. }
  assert (∀ h1 : heap,
    Status <$> h1 = Status <$> h →
    children <$> h1 !! 0 =
      (λ cs, cs ++ match GetDepend t with [] => [S k] | _ => [] end)
        <$> (children <$> h !! 0) →
    (∀ q ps, parents <$> h !! q = Some ps →
       ∃ extra, parents <$> h1 !! q = Some (ps ++ extra) ∧
         (q = S k → match GetDepend t with
                    | [] => extra = [0]
                    | deps => Forall2 (λ p d, m !! d = Some p) extra deps
                    end) ∧
         (q ≠ S k → extra = [])) →
    linkExact tasks m (S k) h1) as Hgoal.
  { intros h1 Hst1 Hroot1 Hpar1. split; [by rewrite Hst1|]. split.
    { rewrite Hroot1, Hroot. simpl. f_equal. rewrite Htake, omap_app. simpl.
      f_equal. rewrite (m_lookup_task tasks m m_index _ _ Hk).
      by destruct (GetDepend t). }
    intros i t' Hi. destruct (Hpar i t' Hi) as (nd & Hnd & Hps).
    destruct (Hpar1 (S i) (parents nd)) as (extra & Hex & Heq & Hne).
    { by rewrite Hnd. }
    destruct (h1 !! S i) as [nd1|]; [|done]. injection Hex as Hex.
    exists nd1. split; [done|]. rewrite Hex.
    destruct (decide (i = k)) as [->|Hik].
    - rewrite Hk in Hi. injection Hi as <-.
      rewrite decide_True by lia. rewrite decide_False in Hps by lia.
      rewrite Hps. simpl. specialize (Heq eq_refl).
      destruct (GetDepend t); [by subst|done].
    - rewrite (Hne ltac:(lia)), app_nil_r.
      destruct (decide (i < k)%nat).
      + by rewrite decide_True by lia.
      + by rewrite decide_False by lia. }
  destruct (GetDepend t) as [|d0 deps] eqn:Hdeps.
  - intros [= <-]. rewrite list_alter_alter_ne by done.
    change (alter (AppendParent 0) (S k) (alter (AppendChild (S k)) 0 h))
      with (addEdge 0 (S k) h).
    apply Hgoal.
    + apply addEdge_status.
    + rewrite addEdge_children. by destruct (decide (0 = 0)).
    + intros q ps Hq. rewrite addEdge_parents, Hq. simpl.
      destruct (decide (q = S k)); [by eexists [0]|].
      exists []. by rewrite app_nil_r.
  - intros Hlink. apply linkDepends_exact in Hlink as (Hst' & Hch' & Hpar').
    + apply Hgoal; [done| |done].
      rewrite Hch'. destruct (h !! 0); simpl; [|done]. by rewrite app_nil_r.
    + done.
    + intros d p (i & ti & _ & _ & ->)%m_index. done.
Qed.

Lemma linkTasks_exact done todo (h h' : heap) :
  tasks = done ++ todo → linkInv tasks (length done) h →
  linkExact tasks m (length done) h →
  linkTasks m 0 todo h = Built h' → linkExact tasks m (length tasks) h'.
Proof.
  revert done h. induction todo as [|t todo IH]; intros done h Htasks Hinv Hex;
    simpl.
  - intros [= <-]. rewrite app_nil_r in Htasks. by subst done.
  - assert (tasks !! length done = Some t) as Hk.
    { rewrite Htasks. by rewrite list_lookup_middle. }
    pose proof (linkTask_spec tasks m m_index _ _ _ Hk Hinv) as Hstep.
    destruct (linkTask m 0 t h) as [h1|e|] eqn:Hlink; simpl; [|done..].
    destruct Hstep as [Hinv1 _].
    apply (IH (done ++ [t]) h1).
    + by rewrite <- app_assoc.
    + by rewrite length_app, Nat.add_1_r.
    + rewrite length_app, Nat.add_1_r. eapply linkTask_exact; [done| |done..].
      by destruct Hinv as [? _].
Qed.
End LinkExact.

Lemma linkExact_initial (tasks : list T) m :
  linkExact tasks m 0
    ([ {| TaskInsID := virtualTaskRootID; Status := TaskInstanceStatusSuccess;
          children := []; parents := [] |} ]
       ++ (NewTaskNodeFromGetter <$> tasks)).
Proof.
  split; [|split].
  - simpl. f_equal. by rewrite <- list_fmap_compose.
  - done.
  - intros i t Hi. simpl. rewrite list_lookup_fmap, Hi. simpl.
    eexists. split; [done|]. done.
Qed.

Lemma BuildRootNode_exact (tasks : list T) h root :
  BuildRootNode tasks = Built (h, root) →
  ∃ m : gmap string ptr,
    (∀ g a, m !! g = Some a ↔
            ∃ i t, tasks !! i = Some t ∧ GetGraphID t = g ∧ a = S i) ∧
    linkExact tasks m (length tasks) h.
Proof.
  unfold BuildRootNode, buildGraphNodeMap.
  pose proof (buildGraphNodeMap_from_spec tasks
    [ {| TaskInsID := virtualTaskRootID; Status := TaskInstanceStatusSuccess;
         children := []; parents := [] |} ] ∅) as Hmap.
  destruct (buildGraphNodeMap_from tasks _ ∅) as [[h1 m]|e|]; simpl; [|done..].
  destruct Hmap as (_ & _ & -> & Hchar).
  assert (∀ g a, m !! g = Some a ↔
            ∃ i t, tasks !! i = Some t ∧ GetGraphID t = g ∧ a = S i) as Hm.
  { intros g a. rewrite Hchar. split; [|by eauto].
    intros [Hg|?]; [by rewrite lookup_empty in Hg|done]. }
  destruct (linkTasks m 0 tasks _) as [h2|e|] eqn:Hlink; simpl; [|done..].
  apply (linkTasks_exact tasks m Hm [] tasks) in Hlink;
    [|done|apply linkInv_initial|apply linkExact_initial].
  destruct (children <$> h2 !! 0) as [[|c cs]|]; [done| |done].
  intros [= <- <-]. by exists m.
Qed.

Lemma omap_start_nodes (m : gmap string ptr) (l : list T) (off : nat) :
  (∀ i t, l !! i = Some t → m !! GetGraphID t = Some (S (off + i))) →
  omap (λ t, match GetDepend t with
             | [] => m !! GetGraphID t | _ => None end) l =
  omap (λ it, match GetDepend it.2 with
              | [] => Some (S it.1) | _ => None end)
       (zip (seq off (length l)) l).
Proof.
  revert off. induction l as [|t l IH]; intros off Hm; [done|].
  cbn [omap list_omap length seq zip zip_with fst snd].
  rewrite (Hm 0 t eq_refl), Nat.add_0_r.
  rewrite <- (IH (S off)).
  - done.
  - intros i t' Hi. rewrite (Hm (S i) t' Hi). f_equal. lia.
Qed.

(** X1: a built graph holds the root followed by one node per task, in
    input order, each with the identity and the status its task reports. *)
Theorem BuildRootNode_nodes (tasks : list T) h root :
  BuildRootNode tasks = Built (h, root) →
  root = 0 ∧ length h = S (length tasks) ∧
  TaskInsID <$> h = virtualTaskRootID :: (GetID <$> tasks) ∧
  Status <$> h = TaskInstanceStatusSuccess :: (GetStatus <$> tasks).
Proof.
  intros Hb. destruct (BuildRootNode_shape tasks h root Hb) as (-> & _ & _ & _ & Hids).
  destruct (BuildRootNode_exact tasks h 0 Hb) as (m & _ & Hst & _).
  split; [done|]. split; [|done].
  rewrite <- (length_fmap TaskInsID), Hids. simpl. by rewrite length_fmap.
Qed.

(** X2: in a built graph the root has no parent and its children are the
    nodes of the tasks without dependencies, in input order; the node of
    such a task has the root as its only parent, and the parents of any
    other task's node are the nodes of its declared dependencies, in the
    order declared, repetitions included. *)
Theorem BuildRootNode_links (tasks : list T) h root :
  BuildRootNode tasks = Built (h, root) →
  (∃ rn, h !! root = Some rn ∧ parents rn = [] ∧
     children rn =
       omap (λ it, match GetDepend it.2 with
                   | [] => Some (S it.1) | _ => None end)
            (zip (seq 0 (length tasks)) tasks)) ∧
  ∀ i t, tasks !! i = Some t →
    ∃ nd, h !! S i = Some nd ∧
      match GetDepend t with
      | [] => parents nd = [root]
      | deps => Forall2 (isNodeOf tasks) (parents nd) deps
      end.
Proof.
  intros Hb. destruct (BuildRootNode_shape tasks h root Hb)
    as (-> & _ & _ & [[rn Hrn] Hroot] & _).
  destruct (BuildRootNode_exact tasks h 0 Hb) as (m & Hm & _ & Hch & Hpar).
  split.
  - exists rn. split; [done|]. split; [by apply (Hroot 0 rn Hrn)|].
    rewrite Hrn in Hch. injection Hch as ->.
    rewrite firstn_all. apply omap_start_nodes.
    intros i t Hi. apply Hm. by eauto.
  - intros i t Hi. destruct (Hpar i t Hi) as (nd & Hnd & Hps).
    exists nd. split; [done|].
    rewrite decide_True in Hps by (by eapply lookup_lt_Some).
    destruct (GetDepend t) as [|d deps]; [done|].
    eapply Forall2_impl; [done|]. intros p d' (j & tj & ? & ? & ->)%Hm.
    by exists j, tj.
Qed.

Lemma isNodeOf_inj (tasks : list T) p p' d :
  NoDup (GetGraphID <$> tasks) →
  isNodeOf tasks p d → isNodeOf tasks p' d → p = p'.
Proof.
  intros Hnd (j & tj & -> & Hj & Hd) (j' & tj' & -> & Hj' & Hd'). f_equal.
  eapply NoDup_lookup; [done| |].
  - by rewrite list_lookup_fmap, Hj.
  - rewrite list_lookup_fmap, Hj'. simpl. by rewrite Hd, Hd'.
Qed.

(** X3: in a built graph child links and parent links are two views of the
    same edges, and they are exactly the declared ones: [c] is a child of
    [p] if and only if [c] is the node of a task that either declares no
    dependency, with [p] the root, or declares the graph identity of the
    task of [p] among its dependencies. *)
Theorem BuildRootNode_edges (tasks : list T) h root :
  BuildRootNode tasks = Built (h, root) →
  ∀ p c,
    (edge h p c ↔ ∃ cn, h !! c = Some cn ∧ p ∈ parents cn) ∧
    (edge h p c ↔
       ∃ i t, c = S i ∧ tasks !! i = Some t ∧
         match GetDepend t with
         | [] => p = root
         | deps => ∃ d, d ∈ deps ∧ isNodeOf tasks p d
         end).
Proof.
  intros Hb p c.
  destruct (BuildRootNode_shape tasks h root Hb)
    as (-> & _ & Hsym & [[rn Hrn] Hroot] & Hids).
  destruct (BuildRootNode_exact tasks h 0 Hb) as (m & Hm & _ & _ & Hpar).
  pose proof (BuildRootNode_cases tasks) as Hc. rewrite Hb in Hc.
  destruct Hc as (_ & _ & Hnd & _).
  split; [apply Hsym|]. rewrite (Hsym p c). split.
  - intros (cn & Hcn & Hp). destruct c as [|i].
    + rewrite Hrn in Hcn. injection Hcn as <-.
      rewrite (proj2 (Hroot 0 rn Hrn) eq_refl) in Hp. by apply elem_of_nil in Hp.
    + assert (i < length tasks)%nat as Hi.
      { apply lookup_lt_Some in Hcn.
        rewrite <- (length_fmap TaskInsID), Hids in Hcn. simpl in Hcn.
        rewrite length_fmap in Hcn. lia. }
      destruct (lookup_lt_is_Some_2 tasks i Hi) as [t Ht].
      exists i, t. split; [done|]. split; [done|].
      destruct (Hpar i t Ht) as (nd & Hnd' & Hps).
      rewrite Hcn in Hnd'. injection Hnd' as <-.
      rewrite decide_True in Hps by done.
      destruct (GetDepend t) as [|d deps].
      * rewrite Hps in Hp. by apply list_elem_of_singleton in Hp.
      * apply list_elem_of_lookup_1 in Hp as (n & Hn).
        destruct (Forall2_lookup_l _ _ _ _ _ Hps Hn) as (d' & Hd' & Hmd).
        exists d'. split; [by eapply list_elem_of_lookup_2|].
        apply Hm in Hmd as (j & tj & ? & ? & ->). by exists j, tj.
  - intros (i & t & -> & Ht & Hrel).
    destruct (Hpar i t Ht) as (nd & Hnd' & Hps). exists nd. split; [done|].
    rewrite decide_True in Hps by (by eapply lookup_lt_Some).
    destruct (GetDepend t) as [|d deps].
    + rewrite Hps, Hrel. by apply list_elem_of_singleton.
    + destruct Hrel as (d' & (n & Hn)%list_elem_of_lookup_1 & Hnode).
      destruct (Forall2_lookup_r _ _ _ _ _ Hps Hn) as (p' & Hp' & Hmd).
      apply Hm in Hmd as (j & tj & ? & ? & ->).
      assert (p = S j) as ->.
      { eapply (isNodeOf_inj tasks); [done..|]. by exists j, tj. }
      by eapply list_elem_of_lookup_2.
Qed.

(** The node map fails at the first task whose graph identity was seen. *)
Lemma buildGraphNodeMap_from_error (tasks : list T) (h : heap)
    (m : gmap string ptr) e :
  buildGraphNodeMap_from tasks h m = BuildErr e →
  ∃ l1 t l2, tasks = l1 ++ t :: l2 ∧ e = ErrRepeat (GetGraphID t) ∧
    NoDup (GetGraphID <$> l1) ∧
    (∀ t', t' ∈ l1 → m !! GetGraphID t' = None) ∧
    (is_Some (m !! GetGraphID t) ∨ GetGraphID t ∈ GetGraphID <$> l1).
Proof.
  revert h m. induction tasks as [|t tasks IH]; intros h m; simpl; [done|].
  destruct (m !! GetGraphID t) as [a|] eqn:Hm.
  - intros [= <-]. exists [], t, tasks. split; [done|]. split; [done|].
    split; [constructor|]. split; [by intros ? ?%elem_of_nil|]. left. by eauto.
  - intros (l1 & t' & l2 & -> & -> & Hnd & Hnone & Hseen)%IH.
    exists (t :: l1), t', l2. split; [done|]. split; [done|].
    assert (∀ t'', t'' ∈ l1 → GetGraphID t'' ≠ GetGraphID t) as Hne.
    { intros t'' Hin Heq. specialize (Hnone _ Hin).
      by rewrite Heq, lookup_insert_eq in Hnone. }
    split; [|split].
    + simpl. constructor; [|done].
      intros (t'' & Heq & Hin)%list_elem_of_fmap. by eapply Hne.
    + intros t'' [->|Hin]%elem_of_cons; [done|].
      specialize (Hnone _ Hin). rewrite lookup_insert_ne in Hnone; [done|].
      by apply not_eq_sym, Hne.
    + destruct (decide (GetGraphID t = GetGraphID t')) as [Heq|Hneq].
      * right. simpl. rewrite Heq. by left.
      * rewrite lookup_insert_ne in Hseen by done.
        destruct Hseen as [?|?]; [by left|]. right. simpl. by right.
Qed.

Lemma linkDepends_resolved (m : gmap string ptr) task a deps (h h' : heap) :
  linkDepends m task a deps h = Built h' → ∀ d, d ∈ deps → is_Some (m !! d).
Proof.
  revert h. induction deps as [|d deps IH]; intros h; simpl.
  - by intros _ d ?%elem_of_nil.
  - destruct (m !! d) as [p|] eqn:Hd; [|done].
    intros Hl d' [->|Hin]%elem_of_cons; [by rewrite Hd|by eapply IH].
Qed.

Lemma linkDepends_error (m : gmap string ptr) task a deps (h : heap) e :
  linkDepends m task a deps h = BuildErr e →
  ∃ d1 d d2, deps = d1 ++ d :: d2 ∧ e = ErrMissingDepend task d ∧
    (∀ d', d' ∈ d1 → is_Some (m !! d')) ∧ m !! d = None.
Proof.
  revert h. induction deps as [|d deps IH]; intros h; simpl; [done|].
  destruct (m !! d) as [p|] eqn:Hd.
  - intros (d1 & d' & d2 & -> & -> & Hres & Hnone)%IH.
    exists (d :: d1), d', d2. split; [done|]. split; [done|]. split; [|done].
    intros d'' [->|Hin]%elem_of_cons; [by rewrite Hd|by apply Hres].
  - intros [= <-]. exists [], d, deps. split; [done|]. split; [done|].
    split; [|done]. by intros ? ?%elem_of_nil.
Qed.

Lemma linkTasks_error (m : gmap string ptr) (tasks : list T) (h : heap) e :
  linkTasks m 0 tasks h = BuildErr e →
  ∃ l1 t l2 d1 d d2,
    tasks = l1 ++ t :: l2 ∧ GetDepend t = d1 ++ d :: d2 ∧
    e = ErrMissingDepend (GetGraphID t) d ∧
    (∀ t' d', t' ∈ l1 → d' ∈ GetDepend t' → is_Some (m !! d')) ∧
    (∀ d', d' ∈ d1 → is_Some (m !! d')) ∧ m !! d = None.
Proof.
  revert h. induction tasks as [|t tasks IH]; intros h; simpl; [done|].
  destruct (linkTask m 0 t h) as [h1|e1|] eqn:Hlink; simpl; [| |done].
  - intros (l1 & t' & l2 & d1 & d & d2 & -> & Hd & -> & Hres & Hres1 & Hnone)%IH.
    exists (t :: l1), t', l2, d1, d, d2. split; [done|]. split; [done|].
    split; [done|]. split; [|done].
    intros t'' d' [->|Hin]%elem_of_cons Hd'; [|by eapply Hres].
    revert Hlink. unfold linkTask. destruct (m !! GetGraphID t); [|done].
    destruct (GetDepend t) as [|d0 deps] eqn:Hdeps;
      [by apply elem_of_nil in Hd'|].
    intros Hlink. by eapply linkDepends_resolved.
  - intros [= <-]. revert Hlink. unfold linkTask.
    destruct (m !! GetGraphID t); [|by intros [=]].
    destruct (GetDepend t) as [|d0 deps] eqn:Hdeps; [by intros [=]|].
    intros (d1 & d & d2 & Hd & -> & Hres & Hnone)%linkDepends_error.
    exists [], t, tasks, d1, d, d2. split; [done|]. split; [by rewrite Hdeps|].
    split; [done|]. split; [by intros ? ? ?%elem_of_nil|done].
Qed.

(** X4: a build error names the first offender.  [ErrRepeat] carries the
    graph identity of the first task whose identity already occurred
    earlier in the input; [ErrMissingDepend] carries the first task, in
    input order, with an unknown dependency and the first unknown one among
    its dependencies. *)
Theorem BuildRootNode_error_names (tasks : list T) :
  (∀ id, BuildRootNode tasks = BuildErr (ErrRepeat id) →
     ∃ l1 t l2, tasks = l1 ++ t :: l2 ∧ id = GetGraphID t ∧
       NoDup (GetGraphID <$> l1) ∧ id ∈ GetGraphID <$> l1) ∧
  (∀ task d, BuildRootNode tasks = BuildErr (ErrMissingDepend task d) →
     ∃ l1 t l2 d1 d2,
       tasks = l1 ++ t :: l2 ∧ task = GetGraphID t ∧
       GetDepend t = d1 ++ d :: d2 ∧
       (∀ t' d', t' ∈ l1 → d' ∈ GetDepend t' → d' ∈ GetGraphID <$> tasks) ∧
       (∀ d', d' ∈ d1 → d' ∈ GetGraphID <$> tasks) ∧
       d ∉ GetGraphID <$> tasks).
Proof.
  unfold BuildRootNode, buildGraphNodeMap.
  pose proof (buildGraphNodeMap_from_spec tasks
    [ {| TaskInsID := virtualTaskRootID; Status := TaskInstanceStatusSuccess;
         children := []; parents := [] |} ] ∅) as Hmap.
  destruct (buildGraphNodeMap_from tasks _ ∅) as [[h1 m]|e|] eqn:Hbuild; simpl.
  - destruct Hmap as (_ & _ & -> & Hchar).
    assert (∀ d, is_Some (m !! d) ↔ d ∈ GetGraphID <$> tasks) as Hdom.
    { intros d. rewrite list_elem_of_fmap. split.
      - intros [a [Ha|(i & t & Hi & Hg & _)]%Hchar];
          [by rewrite lookup_empty in Ha|].
        exists t. split; [done|]. by eapply list_elem_of_lookup_2.
      - intros (t & -> & (i & Hi)%list_elem_of_lookup_1).
        eexists. apply Hchar. right. by eauto. }
    destruct (linkTasks m 0 tasks _) as [h2|e|] eqn:Hlink; simpl.
    + split; intros; by repeat case_match.
    + apply linkTasks_error in Hlink
        as (l1 & t & l2 & d1 & d' & d2 & Ht & Hd & -> & Hres & Hres1 & Hnone).
      split; [by intros id [=]|]. intros task d [= <- <-].
      exists l1, t, l2, d1, d2. split; [done|]. split; [done|]. split; [done|].
      split; [|split].
      * intros t' d0 Ht' Hd0. apply Hdom. by eapply Hres.
      * intros d0 Hd0. by apply Hdom, Hres1.
      * intros Hin%Hdom. rewrite Hnone in Hin. by destruct Hin.
    + done.
  - apply buildGraphNodeMap_from_error in Hbuild
      as (l1 & t & l2 & -> & -> & Hnd & _ & Hseen).
    split; [|by intros task d [=]]. intros id [= <-].
    destruct Hseen as [Hs|Hin].
    + rewrite lookup_empty in Hs. by destruct Hs.
    + by exists l1, t, l2.
  - done.
Qed.

(** X5: [MustBuildRootNode] returns a graph exactly on the inputs on which
    [BuildRootNode] succeeds, and the same graph; on any other input it
    panics, and the panic carries the construction error. *)
Theorem MustBuildRootNode_spec (tasks : list T) :
  ((∃ r, MustBuildRootNode tasks = MustRoot r) ↔
     NoDup (GetGraphID <$> tasks) ∧
     (∀ t d, t ∈ tasks → d ∈ GetDepend t → d ∈ GetGraphID <$> tasks) ∧
     (∃ t, t ∈ tasks ∧ GetDepend t = [])) ∧
  (∀ r, MustBuildRootNode tasks = MustRoot r ↔ BuildRootNode tasks = Built r) ∧
  (∀ cause, MustBuildRootNode tasks = MustPanic cause →
     ∃ e, cause = Some e ∧ BuildRootNode tasks = BuildErr e).
Proof.
  unfold MustBuildRootNode. pose proof (BuildRootNode_cases tasks) as Hc.
  destruct (BuildRootNode tasks) as [[h root]|[id|task d|]|]; [| | | |done].
  - destruct Hc as (_ & _ & Hnd & Hres & Hstart).
    split; [by split; eauto|]. split; [|done].
    intros r. split; by intros [= <-].
  - destruct Hc as [_ Hdup].
    split; [by split; [intros [? [=]]|intros [? _]]|].
    split; [by split|]. intros cause [= <-]. by eauto.
  - destruct Hc as (_ & t & Ht & Hg & Hd & Hnin).
    split; [split; [by intros [? [=]]|]|].
    { intros (_ & Hres & _). by destruct Hnin; eapply Hres. }
    split; [by split|]. intros cause [= <-]. by eauto.
  - destruct Hc as (_ & _ & Hno).
    split; [by split; [intros [? [=]]|intros (_ & _ & ?)]|].
    split; [by split|]. intros cause [= <-]. by eauto.
Qed.
End ExactFacts.

Lemma readyDiamond_built :
  BuildRootNode readyDiamond = Built (readyDiamondHeap, 0).
Proof. by vm_compute. Qed.

Lemma BuildRootNode_nodes_witness :
  BuildRootNode readyDiamond = Built (readyDiamondHeap, 0) ∧
  length readyDiamondHeap = 5 ∧
  TaskInsID <$> readyDiamondHeap = [virtualTaskRootID; "A"; "B"; "C"; "D"].
Proof.
  split; [apply readyDiamond_built|].
  destruct (BuildRootNode_nodes readyDiamond readyDiamondHeap 0 readyDiamond_built)
    as (_ & Hlen & Hids & _).
  split; [exact Hlen|exact Hids].
Defined.

Lemma BuildRootNode_links_witness :
  BuildRootNode readyDiamond = Built (readyDiamondHeap, 0) ∧
  ∃ nd, readyDiamondHeap !! 4 = Some nd ∧
        Forall2 (isNodeOf readyDiamond) (parents nd) ["B"; "C"].
Proof.
  split; [apply readyDiamond_built|].
  destruct (BuildRootNode_links readyDiamond readyDiamondHeap 0 readyDiamond_built)
    as [_ Hpar].
  exact (Hpar 3 (mockTask "D" ["B"; "C"] TaskInstanceStatusInit) eq_refl).
Defined.

Lemma BuildRootNode_edges_witness :
  BuildRootNode readyDiamond = Built (readyDiamondHeap, 0) ∧
  (edge readyDiamondHeap 2 4 ↔
     ∃ cn, readyDiamondHeap !! 4 = Some cn ∧ 2 ∈ parents cn).
Proof.
  split; [apply readyDiamond_built|].
  exact (proj1 (BuildRootNode_edges readyDiamond readyDiamondHeap 0
                  readyDiamond_built 2 4)).
Defined.

(** * Which nodes the walk reaches *)

Lemma walkOrder_visits fuel ign h t l :
  walkOrder fuel ign h t = Some l ↔ visits fuel ign h t = Some l.
Proof.
  unfold walkOrder, walkNode. split.
  - destruct (dfsWalk visitFunc fuel ign t (h, [])) as [r|] eqn:E; [|done].
    destruct (dfsWalk_visits_is_Some _ _ _ _ _ _ E) as [l' Hl'].
    rewrite (dfsWalk_runStop _ visitFunc_quiet _ _ _ _ _ Hl'), runStop_visitFunc in E.
    injection E as <-. simpl. by intros [= <-].
  - intros Hv.
    by rewrite (dfsWalk_runStop _ visitFunc_quiet _ _ _ _ _ Hv), runStop_visitFunc.
Qed.

Lemma skipChild_false h a : skipChild h a = Some false → joinOpen h a.
Proof.
  unfold skipChild, joinOpen. destruct (h !! a) as [an|]; simpl; [|done].
  case_bool_decide as Hlen; [|intros _; exists an; split; [done|left; lia]].
  unfold CanBeExecuted. destruct (parents an) as [|q ps] eqn:Hps.
  { simpl in Hlen. lia. }
  destruct (parentsProceed h (q :: ps)) as [[|]|] eqn:Hpp; simpl; [|done..].
  intros _. exists an. split; [done|]. right. rewrite Hps.
  by apply parentsProceed_true.
Qed.

Lemma joinOpen_skipChild h a : joinOpen h a → skipChild h a = Some false.
Proof.
  intros (an & Han & Hopen). unfold skipChild. rewrite Han. simpl.
  case_bool_decide as Hlen; [|done].
  destruct Hopen as [?|Hall]; [lia|].
  unfold CanBeExecuted. destruct (parents an) as [|q ps] eqn:Hps; [done|].
  by rewrite (proj2 (parentsProceed_true h (q :: ps)) Hall).
Qed.

Lemma visitsChildren_from (walk : ptr → option (list ptr)) h cs l c :
  visitsChildren walk h cs = Some l → c ∈ l →
  ∃ a l1, a ∈ cs ∧ skipChild h a = Some false ∧ walk a = Some l1 ∧ c ∈ l1.
Proof.
  revert l. induction cs as [|a cs IH]; intros l; simpl.
  - intros [= <-] Hc. by apply elem_of_nil in Hc.
  - destruct (skipChild h a) as [[|]|] eqn:Hskip; simpl; [|  |done].
    + intros Hl Hc. destruct (IH _ Hl Hc) as (a' & l1 & ? & ? & ? & ?).
      exists a', l1. split; [by right|done].
    + destruct (walk a) as [l1|] eqn:Hw; simpl; [|done].
      destruct (visitsChildren walk h cs) as [l2|]; simpl; [|done].
      intros [= <-] [Hc|Hc]%elem_of_app.
      * exists a, l1. split; [by left|done].
      * destruct (IH _ eq_refl Hc) as (a' & l1' & ? & ? & ? & ?).
        exists a', l1'. split; [by right|done].
Qed.

Lemma visitsChildren_into (walk : ptr → option (list ptr)) h cs l a :
  visitsChildren walk h cs = Some l → a ∈ cs → skipChild h a = Some false →
  ∃ l1, walk a = Some l1 ∧ ∀ c, c ∈ l1 → c ∈ l.
Proof.
  revert l. induction cs as [|a' cs IH]; intros l; simpl.
  - intros _ Ha. by apply elem_of_nil in Ha.
  - intros Hl Ha Hskip. destruct (decide (a = a')) as [<-|Hne].
    + rewrite Hskip in Hl. simpl in Hl.
      destruct (walk a) as [l1|]; simpl in Hl; [|done].
      destruct (visitsChildren walk h cs) as [l2|]; simpl in Hl; [|done].
      injection Hl as <-. exists l1. split; [done|].
      intros c Hc. apply elem_of_app. by left.
    + apply elem_of_cons in Ha as [?|Ha]; [done|].
      destruct (skipChild h a') as [[|]|]; simpl in Hl; [| |done].
      * by apply IH.
      * destruct (walk a') as [l1|]; simpl in Hl; [|done].
        destruct (visitsChildren walk h cs) as [l2|] eqn:Hl2; simpl in Hl; [|done].
        injection Hl as <-. destruct (IH _ eq_refl Ha Hskip) as (l1' & ? & Hsub).
        exists l1'. split; [done|]. intros c Hc. apply elem_of_app. right.
        by apply Hsub.
Qed.

Lemma visits_gatedPath fuel ign h t l c :
  visits fuel ign h t = Some l → c ∈ l →
  gatedPath ign h t c ∧ ∃ cn, h !! c = Some cn ∧ TaskInsID cn ≠ virtualTaskRootID.
Proof.
  revert t l. induction fuel as [|fuel IH]; intros t l; simpl; [done|].
  destruct (h !! t) as [nd|] eqn:Hnd; simpl; [|done].
  assert (c ∈ (if bool_decide (TaskInsID nd ≠ virtualTaskRootID)
               then [t] else []) →
          gatedPath ign h t c ∧
          ∃ cn, h !! c = Some cn ∧ TaskInsID cn ≠ virtualTaskRootID) as Hown.
  { case_bool_decide; [|by intros ?%elem_of_nil].
    intros ->%list_elem_of_singleton. split; [by constructor; eauto|by eauto]. }
  destruct (negb ign && negb (CanExecuteChild nd)) eqn:Hgate.
  { intros [= <-]. apply Hown. }
  destruct (visitsChildren _ h (children nd)) as [l'|] eqn:Hl'; simpl; [|done].
  intros [= <-] [Hc|Hc]%elem_of_app; [by apply Hown|].
  destruct (visitsChildren_from _ _ _ _ _ Hl' Hc) as (a & l1 & Ha & Hskip & Hw & Hc1).
  destruct (IH _ _ Hw Hc1) as [Hpath Hcn]. split; [|done].
  eapply gatedPath_step; [done| |done|by apply skipChild_false|done].
  destruct ign; [by left|]. right. simpl in Hgate.
  by destruct (CanExecuteChild nd).
Qed.

Lemma gatedPath_visits fuel ign h t l c cn :
  visits fuel ign h t = Some l → gatedPath ign h t c →
  h !! c = Some cn → TaskInsID cn ≠ virtualTaskRootID → c ∈ l.
Proof.
  intros Hv Hpath Hcn Hid. revert t l Hv Hpath.
  induction fuel as [|fuel IH]; intros t l; simpl; [done|].
  destruct (h !! t) as [nd|] eqn:Hnd; simpl; [|done].
  intros Hv Hpath. destruct Hpath as [t _|t nd' a c Hnd' Hgate Ha Hopen Hpath].
  - rewrite Hnd in Hcn. injection Hcn as <-.
    rewrite bool_decide_eq_true_2 in Hv by done.
    destruct (negb ign && negb (CanExecuteChild nd)); [by injection Hv as <-; left|].
    destruct (visitsChildren _ h (children nd)); simpl in Hv; [|done].
    injection Hv as <-. by left.
  - rewrite Hnd in Hnd'. injection Hnd' as <-.
    assert (negb ign && negb (CanExecuteChild nd) = false) as Hg.
    { destruct Hgate as [->|Hp]; [done|].
      destruct (CanExecuteChild nd); [|done]. by rewrite andb_false_r. }
    rewrite Hg in Hv.
    destruct (visitsChildren _ h (children nd)) as [l'|] eqn:Hl'; simpl in Hv; [|done].
    injection Hv as <-.
    destruct (visitsChildren_into _ _ _ _ _ Hl' Ha (joinOpen_skipChild _ _ Hopen))
      as (l1 & Hw & Hsub).
    apply elem_of_app. right. apply Hsub. by eapply IH.
Qed.

(** X6: the walk hands to its callback exactly the nodes, other than nodes
    carrying the root's reserved identity, that a gated path from the start
    node reaches: a path of child links on which every node left has status
    Success or Skipped (when statuses are not ignored) and every node
    entered has at most one parent or only parents in Success or Skipped. *)
Theorem walkOrder_reaches fuel ign h t l :
  walkOrder fuel ign h t = Some l →
  ∀ c, c ∈ l ↔
       gatedPath ign h t c ∧
       ∃ cn, h !! c = Some cn ∧ TaskInsID cn ≠ virtualTaskRootID.
Proof.
  intros Hl%walkOrder_visits c. split.
  - by apply (visits_gatedPath fuel).
  - intros [Hpath (cn & Hcn & Hid)]. by eapply gatedPath_visits.
Qed.

Lemma walkOrder_reaches_witness :
  walkOrder 4 false readyDiamondHeap 0 = Some [1; 2; 4; 3; 4] ∧
  gatedPath false readyDiamondHeap 0 4.
Proof.
  assert (walkOrder 4 false readyDiamondHeap 0 = Some [1; 2; 4; 3; 4]) as Hl
    by (by vm_compute).
  split; [done|].
  apply (walkOrder_reaches 4 false readyDiamondHeap 0 _ Hl 4).
  repeat first [by apply list_elem_of_here | apply list_elem_of_further].
Defined.

Lemma gatedPath_parents h t c :
  linksSym h → gatedPath false h t c → c ≠ t →
  ∃ cn, h !! c = Some cn ∧ Forall (proceeds h) (parents cn).
Proof.
  intros Hsym Hpath. induction Hpath as [t _|t nd a c Hnd Hgate Ha Hopen _ IH];
    [done|].
  intros Hct. destruct (decide (c = a)) as [->|Hca]; [|by apply IH].
  destruct Hopen as (an & Han & Hopen). exists an. split; [done|].
  destruct Hopen as [Hlen|Hall]; [|done].
  assert (t ∈ parents an) as Ht.
  { destruct (proj1 (Hsym t a)) as (an' & Han' & Hin); [by exists nd|].
    rewrite Han in Han'. by injection Han' as <-. }
  destruct (parents an) as [|q [|q' ps]]; [by apply elem_of_nil in Ht| |simpl in Hlen; lia].
  apply list_elem_of_singleton in Ht as ->. apply Forall_singleton.
  exists nd. split; [done|]. by destruct Hgate.
Qed.

Lemma filter_ext_in {A} (P Q : A → Prop) `{∀ x, Decision (P x)}
    `{∀ x, Decision (Q x)} (l : list A) :
  (∀ x, x ∈ l → P x ↔ Q x) → filter P l = filter Q l.
Proof.
  induction l as [|x l IH]; intros Hpq; [done|].
  rewrite !filter_cons. rewrite IH by (intros y Hy; apply Hpq; by right).
  destruct (decide (P x)) as [Hp|Hp].
  - rewrite decide_True; [done|]. by apply (Hpq x); [left|].
  - rewrite decide_False; [done|]. intros Hq. apply Hp. by apply (Hpq x); [left|].
Qed.

Lemma nodesAt_elem h l nd :
  nd ∈ nodesAt h l → ∃ q, q ∈ l ∧ h !! q = Some nd.
Proof.
  unfold nodesAt. intros (q & Hq & Hnd)%list_elem_of_omap. by eauto.
Qed.

(** X7: when the walk starts at a node without parents in a graph whose
    child and parent links agree, every node it reaches has all its parents
    in status Success or Skipped; so the finder lists, in walk order,
    exactly the reached nodes whose own status is Init, Retrying, Continue
    or Ending. *)
Theorem GetExecutableTaskIds_runnable fuel h t tn l :
  linksValid h → linksSym h →
  h !! t = Some tn → parents tn = [] →
  gatedWalk fuel h t = Some l →
  (∀ q nd, q ∈ l → h !! q = Some nd → Forall (proceeds h) (parents nd)) ∧
  GetExecutableTaskIds fuel h t =
    Some (h, TaskInsID <$>
               filter (λ nd, Status nd ∈
                        [TaskInstanceStatusInit; TaskInstanceStatusRetrying;
                         TaskInstanceStatusContinue; TaskInstanceStatusEnding])
                 (nodesAt h l)).
Proof.
  intros Hval Hsym Ht Hroot Hl.
  assert (∀ q nd, q ∈ l → h !! q = Some nd → Forall (proceeds h) (parents nd))
    as Hpar.
  { intros q nd Hq Hnd. destruct (decide (q = t)) as [->|Hne].
    - rewrite Ht in Hnd. injection Hnd as <-. rewrite Hroot. constructor.
    - apply gatedWalk_visits in Hl.
      destruct (visits_gatedPath _ _ _ _ _ _ Hl Hq) as [Hpath _].
      destruct (gatedPath_parents h t q Hsym Hpath Hne) as (nd' & Hnd' & Hall).
      rewrite Hnd in Hnd'. by injection Hnd' as <-. }
  split; [done|].
  rewrite (GetExecutableTaskIds_walk fuel h t l Hval Hl). do 3 f_equal.
  apply filter_ext_in. intros nd (q & Hq & Hnd)%nodesAt_elem.
  rewrite Executable_true. split; [by intros [? _]|].
  intros Hs. split; [done|]. right. by eapply Hpar.
Qed.

Lemma GetExecutableTaskIds_runnable_witness :
  gatedWalk 4 readyDiamondHeap 0 = Some [1; 2; 4; 3; 4] ∧
  GetExecutableTaskIds 4 readyDiamondHeap 0 = Some (readyDiamondHeap, ["D"; "D"]).
Proof.
  assert (gatedWalk 4 readyDiamondHeap 0 = Some [1; 2; 4; 3; 4]) as Hl
    by (by vm_compute).
  split; [done|].
  destruct (BuildRootNode_shape readyDiamond readyDiamondHeap 0 readyDiamond_built)
    as (_ & Hval & Hsym & _).
  refine (proj2 (GetExecutableTaskIds_runnable 4 readyDiamondHeap 0
    {| TaskInsID := virtualTaskRootID; Status := TaskInstanceStatusSuccess;
       children := [1]; parents := [] |} _ Hval Hsym _ _ Hl)); by vm_compute.
Defined.

(** * More on the status aggregator *)

Section Invariant.
Context {A : Type}.
Variable walkFunc : ptr → heap * A → option ((heap * A) * bool).
(** A property of the walk state that every call of the callback keeps. *)
Variable J : heap * A → Prop.
Hypothesis walkFunc_keeps : ∀ p st st' b,
  J st → walkFunc p st = Some (st', b) → J st'.

Lemma walkChildren_invariant
    (walk : ptr → heap * A → option ((heap * A) * bool)) cs st st' b :
  (∀ c st st' b, J st → walk c st = Some (st', b) → J st') →
  J st → walkChildren walk cs st = Some (st', b) → J st'.
Proof.
  intros Hwalk. revert st. induction cs as [|c cs IH]; intros st HJ; simpl.
  - by intros [= <- <-].
  - destruct (skipChild st.1 c) as [[|]|]; simpl; try done; [by apply IH|].
    destruct (walk c st) as [[st1 b1]|] eqn:E; simpl; [|done].
    apply Hwalk in E; [|done]. destruct b1; [by apply IH|by intros [= <- <-]].
Qed.

Lemma dfsWalk_invariant fuel ign root st st' b :
  J st → dfsWalk walkFunc fuel ign root st = Some (st', b) → J st'.
Proof.
  revert root st st' b. induction fuel as [|fuel IH]; intros root st st' b HJ;
    simpl; [done|].
  destruct (st.1 !! root) as [nd|]; simpl; [|done].
  assert (∀ r, (if bool_decide (TaskInsID nd ≠ virtualTaskRootID)
                then walkFunc root st else Some (st, true)) = Some r → J r.1)
    as Hcb.
  { intros [st1 b1]. case_bool_decide; [by apply walkFunc_keeps|].
    by intros [= <- <-]. }
  destruct (if bool_decide (TaskInsID nd ≠ virtualTaskRootID)
            then walkFunc root st else Some (st, true)) as [[st1 b1]|];
    simpl; [|done].
  specialize (Hcb _ eq_refl). simpl in Hcb.
  destruct b1; simpl; [|by intros [= <- <-]].
  destruct (st1.1 !! root) as [nd1|]; simpl; [|done].
  destruct (negb ign && negb (CanExecuteChild nd1)); [by intros [= <- <-]|].
  apply walkChildren_invariant; [|done]. intros c. apply IH.
Qed.
End Invariant.

Lemma computeStatusFunc_accounts (h : heap) p acc st' b :
  (acc = (TreeStatusUnset, "") ∨
   ∃ q nd, h !! q = Some nd ∧ TaskInsID nd = acc.2 ∧ accountsFor acc.1 (Status nd)) →
  computeStatusFunc p (h, acc) = Some (st', b) →
  st'.1 = h ∧
  (st'.2 = (TreeStatusUnset, "") ∨
   ∃ q nd, h !! q = Some nd ∧ TaskInsID nd = st'.2.2 ∧
           accountsFor st'.2.1 (Status nd)).
Proof.
  intros Hacc. unfold computeStatusFunc. simpl.
  destruct (h !! p) as [nd|] eqn:Hp; simpl; [|done].
  unfold accountsFor.
  destruct (Status nd) eqn:Hs; intros [= <- <-]; simpl; (split; [done|]);
    try done; right; exists p, nd; rewrite Hs;
    (split; [done|]); (split; [done|]);
    rewrite !elem_of_cons; auto 10.
Qed.

(** X8: [ComputeStatus] returns either Success with an empty source, or one
    of Failed, Blocked and Running together with the non-empty identity of
    a node of the graph whose status accounts for it: Failed or Canceled
    for Failed, Blocked for Blocked, an in-flight status for Running. *)
Theorem ComputeStatus_result store fuel (h h' : heap) t s src :
  ComputeStatus store fuel h t = Some (h', (s, src)) →
  (s = TreeStatusSuccess ∧ src = "") ∨
  (src ≠ "" ∧
   ∃ q nd, h !! q = Some nd ∧ TaskInsID nd = src ∧ accountsFor s (Status nd)).
Proof.
  unfold ComputeStatus.
  destruct (fastPath store h t) as [[|]|]; simpl;
    [by intros [= <- <- <-]; left| |done].
  unfold computeStatusWalk, walkNode.
  destruct (dfsWalk _ _ _ _ _) as [[[h1 [s1 src1]] b]|] eqn:E; simpl; [|done].
  apply (dfsWalk_invariant computeStatusFunc
    (λ st, st.1 = h ∧
           (st.2 = (TreeStatusUnset, "") ∨
            ∃ q nd, h !! q = Some nd ∧ TaskInsID nd = st.2.2 ∧
                    accountsFor st.2.1 (Status nd)))) in E.
  - destruct E as [_ E]. simpl in E.
    case_bool_decide as Hsrc; [|by intros [= <- <- <-]; left].
    intros [= <- <- <-]. right. split; [done|].
    destruct E as [[= _ ->]|(q & nd & Hq & Hid & Hs)]; [done|].
    by exists q, nd.
  - intros p [h2 acc] st' b' [Hh HJ]. simpl in Hh. subst h2.
    by apply computeStatusFunc_accounts.
  - split; [done|]. by left.
Qed.

Lemma ComputeStatus_result_witness :
  ComputeStatus failingStore 3 failedThenBlockedHeap 0 =
    Some (failedThenBlockedHeap, (TreeStatusBlocked, "B")) ∧
  ((TreeStatusBlocked = TreeStatusSuccess ∧ "B" = "") ∨
   ("B" ≠ "" ∧
    ∃ q nd, failedThenBlockedHeap !! q = Some nd ∧ TaskInsID nd = "B" ∧
            accountsFor TreeStatusBlocked (Status nd))).
Proof.
  assert (ComputeStatus failingStore 3 failedThenBlockedHeap 0 =
            Some (failedThenBlockedHeap, (TreeStatusBlocked, "B"))) as Hrun
    by (by vm_compute).
  split; [done|]. exact (ComputeStatus_result _ _ _ _ _ _ _ Hrun).
Defined.

Lemma isInflight_not_proceed nd : isInflight nd = true → CanExecuteChild nd = false.
Proof. unfold isInflight, CanExecuteChild. by destruct (Status nd). Qed.

Lemma decider_spec nodes :
  match decider nodes with
  | None => Forall (λ nd, CanExecuteChild nd = true) nodes
  | Some nd => nd ∈ nodes ∧ CanExecuteChild nd = false
  end.
Proof.
  induction nodes as [|nd nodes IH]; [by constructor|].
  rewrite decider_cons. destruct (isInflight nd) eqn:Hi.
  - split; [by left|by apply isInflight_not_proceed].
  - destruct (decider nodes) as [x|].
    + destruct IH. split; [by right|done].
    + destruct (CanExecuteChild nd) eqn:Hc; [by constructor|].
      split; [by left|done].
Qed.

(** X9: on a walk that returns, without the fast path and with every
    reached node carrying a non-empty identity, [ComputeStatus] reports
    Success exactly when every node the walk reaches has status Success or
    Skipped. *)
Theorem ComputeStatus_success_iff store fuel (h : heap) t l :
  fastPath store h t = Some false →
  gatedWalk fuel h t = Some l →
  (∀ q nd, q ∈ l → h !! q = Some nd → TaskInsID nd ≠ "") →
  ComputeStatus store fuel h t = Some (h, (TreeStatusSuccess, "")) ↔
  ∀ q nd, q ∈ l → h !! q = Some nd →
          Status nd ∈ [TaskInstanceStatusSuccess; TaskInstanceStatusSkipped].
Proof.
  intros Hfast Hl Hids. unfold ComputeStatus. rewrite Hfast. simpl.
  rewrite (computeStatusWalk_rollup _ _ _ _ Hl). unfold rollup.
  pose proof (decider_spec (nodesAt h l)) as Hdec.
  assert (∀ nd, CanExecuteChild nd = true ↔
            Status nd ∈ [TaskInstanceStatusSuccess; TaskInstanceStatusSkipped])
    as Hok.
  { intros nd. unfold CanExecuteChild. rewrite !elem_of_cons, elem_of_nil.
    destruct (Status nd); simpl; split; try done; auto;
      by intros [?|[?|[]]]. }
  destruct (decider (nodesAt h l)) as [nd|].
  - destruct Hdec as [(q & Hq & Hnd)%nodesAt_elem Hno].
    rewrite bool_decide_eq_true_2 by (by eapply Hids). split.
    + intros [= _ Hid]. by destruct (Hids q nd Hq Hnd).
    + intros Hall. specialize (Hall q nd Hq Hnd). apply Hok in Hall.
      by rewrite Hall in Hno.
  - split; [|done]. intros _ q nd Hq Hnd. apply Hok.
    rewrite Forall_forall in Hdec. apply Hdec.
    unfold nodesAt. apply list_elem_of_omap. by exists q.
Qed.

Lemma ComputeStatus_success_iff_witness :
  fastPath failingStore readyDiamondHeap 0 = Some false ∧
  gatedWalk 4 readyDiamondHeap 0 = Some [1; 2; 4; 3; 4] ∧
  (ComputeStatus failingStore 4 readyDiamondHeap 0 =
     Some (readyDiamondHeap, (TreeStatusSuccess, "")) ↔
   ∀ q nd, q ∈ [1; 2; 4; 3; 4] → readyDiamondHeap !! q = Some nd →
           Status nd ∈ [TaskInstanceStatusSuccess; TaskInstanceStatusSkipped]).
Proof.
  assert (fastPath failingStore readyDiamondHeap 0 = Some false) as Hfast
    by (by vm_compute).
  assert (gatedWalk 4 readyDiamondHeap 0 = Some [1; 2; 4; 3; 4]) as Hl
    by (by vm_compute).
  split; [done|]. split; [done|].
  apply (ComputeStatus_success_iff failingStore 4 readyDiamondHeap 0 _ Hfast Hl).
  intros q nd Hq Hnd Hid.
  rewrite !elem_of_cons, elem_of_nil in Hq.
  destruct Hq as [->|[->|[->|[->|[->|[]]]]]]; vm_compute in Hnd;
    injection Hnd as <-; done.
Defined.

(** * More on the incremental advancer *)

(** X10: a record whose status is neither Init nor Success nor Skipped, on
    reaching its node, overwrites the node's status and returns no
    identity, with found=true: nothing below the node is offered for
    execution. *)
Theorem GetNextTaskIds_halt fuel (h : heap) t task l1 p l2 nd :
  gatedWalk fuel h t = Some (l1 ++ p :: l2) →
  (∀ q qn, q ∈ l1 → h !! q = Some qn → TaskInsID qn ≠ ID task) →
  h !! p = Some nd → TaskInsID nd = ID task →
  InsStatus task ∉ [TaskInstanceStatusInit; TaskInstanceStatusSuccess;
                    TaskInstanceStatusSkipped] →
  GetNextTaskIds fuel h t task =
    Some (<[p := setStatus (InsStatus task) nd]> h, ([], true)).
Proof.
  intros Hl Hne Hp Hid Hs.
  rewrite (GetNextTaskIds_reached _ _ _ _ _ _ _ _ Hl Hne Hp Hid).
  unfold nextTaskFunc. simpl. rewrite Hp. simpl.
  rewrite bool_decide_eq_true_2 by done.
  rewrite !not_elem_of_cons in Hs. destruct Hs as (Hi & Hsu & Hsk & _).
  rewrite bool_decide_eq_false_2 by done.
  rewrite CanExecuteChild_setStatus. unfold okStatus.
  by rewrite !bool_decide_eq_false_2.
Qed.

Lemma GetNextTaskIds_halt_witness :
  GetNextTaskIds 4 readyDiamondHeap 0 (report "B" TaskInstanceStatusFailed) =
    Some (<[2 := setStatus TaskInstanceStatusFailed
                   {| TaskInsID := "B"; Status := TaskInstanceStatusSuccess;
                      children := [4]; parents := [1] |}]> readyDiamondHeap,
          ([], true)).
Proof.
  apply (GetNextTaskIds_halt 4 readyDiamondHeap 0
           (report "B" TaskInstanceStatusFailed) [1] 2 [4; 3; 4]).
  - by vm_compute.
  - intros q qn ->%list_elem_of_singleton Hq. vm_compute in Hq.
    injection Hq as <-. done.
  - by vm_compute.
  - done.
  - simpl. rewrite !not_elem_of_cons.
    repeat split; try done. apply not_elem_of_nil.
Defined.

Lemma nextTaskFunc_match task (h : heap) p nd acc :
  linksValid h → h !! p = Some nd → TaskInsID nd = ID task →
  ∃ ids, nextTaskFunc task p (h, (acc, false)) =
           Some ((<[p := setStatus (InsStatus task) nd]> h, (ids, true)), false).
Proof.
  intros Hval Hp Hid. unfold nextTaskFunc. simpl. rewrite Hp. simpl.
  rewrite bool_decide_eq_true_2 by done.
  case_bool_decide; [by eauto|].
  destruct (negb _); [by eauto|].
  rewrite executableChildren_filter; [by simpl; eauto| |].
  - by apply linksValid_setStatus.
  - rewrite length_insert. by eapply Hval.
Qed.

Lemma runStop_nextTaskFunc_found task (h : heap) l :
  linksValid h → Forall (λ q, is_Some (h !! q)) l →
  ∃ h' ids (found b : bool),
    runStop (nextTaskFunc task) l (h, ([], false)) =
      Some ((h', (ids, found)), b) ∧
    if found
    then ∃ p nd, p ∈ l ∧ h !! p = Some nd ∧ TaskInsID nd = ID task ∧
                 h' = <[p := setStatus (InsStatus task) nd]> h
    else h' = h ∧ ids = [] ∧
         ∀ q nd, q ∈ l → h !! q = Some nd → TaskInsID nd ≠ ID task.
Proof.
  intros Hval. induction 1 as [|q l [nd Hq] _ IH].
  - exists h, [], false, true. split; [done|]. split; [done|]. split; [done|].
    by intros q nd ?%elem_of_nil.
  - destruct (decide (TaskInsID nd = ID task)) as [Hid|Hne].
    + destruct (nextTaskFunc_match task h q nd [] Hval Hq Hid) as [ids Hf].
      eexists _, ids, true, false. simpl. rewrite Hf. simpl. split; [done|].
      exists q, nd. split; [by left|done].
    + destruct IH as (h' & ids & found & b & Hrun & Hfound).
      exists h', ids, found, b. simpl.
      rewrite (nextTaskFunc_other _ _ _ _ _ Hq Hne). simpl. split; [done|].
      destruct found.
      * destruct Hfound as (p & pn & Hin & Hrest). exists p, pn.
        split; [by right|done].
      * destruct Hfound as (-> & -> & Hall). split; [done|]. split; [done|].
        intros q' nd' [->|Hin]%elem_of_cons Hq'; [|by eapply Hall].
        rewrite Hq in Hq'. by injection Hq' as <-.
Qed.

(** X11: on a heap with valid links on which the walk returns,
    [GetNextTaskIds] returns, and its found flag is exact: found=true
    comes with the status of a reached node carrying the record's identity
    overwritten by the record's status, found=false with an untouched
    heap, no identity returned and no reached node carrying the record's
    identity. *)
Theorem GetNextTaskIds_found fuel (h : heap) t task l :
  linksValid h → gatedWalk fuel h t = Some l →
  ∃ h' ids (found : bool),
    GetNextTaskIds fuel h t task = Some (h', (ids, found)) ∧
    if found
    then ∃ p nd, p ∈ l ∧ h !! p = Some nd ∧ TaskInsID nd = ID task ∧
                 h' = <[p := setStatus (InsStatus task) nd]> h
    else h' = h ∧ ids = [] ∧
         ∀ q nd, q ∈ l → h !! q = Some nd → TaskInsID nd ≠ ID task.
Proof.
  intros Hval Hl%gatedWalk_visits. unfold GetNextTaskIds, walkNode.
  rewrite (dfsWalk_runStop _ (nextTaskFunc_quiet task) _ _ _ _ _ Hl).
  destruct (runStop_nextTaskFunc_found task h l Hval (visits_valid _ _ _ _ _ Hl))
    as (h' & ids & found & b & -> & Hfound).
  by exists h', ids, found.
Qed.

Lemma GetNextTaskIds_found_witness :
  ∃ h' ids (found : bool),
    GetNextTaskIds 4 readyDiamondHeap 0 (report "C" TaskInstanceStatusFailed) =
      Some (h', (ids, found)) ∧
    if found
    then ∃ p nd, p ∈ [1; 2; 4; 3; 4] ∧ readyDiamondHeap !! p = Some nd ∧
                 TaskInsID nd = "C" ∧
                 h' = <[p := setStatus TaskInstanceStatusFailed nd]>
                        readyDiamondHeap
    else h' = readyDiamondHeap ∧ ids = [] ∧
         ∀ q nd, q ∈ [1; 2; 4; 3; 4] → readyDiamondHeap !! q = Some nd →
                 TaskInsID nd ≠ "C".
Proof.
  apply (GetNextTaskIds_found 4 readyDiamondHeap 0
           (report "C" TaskInstanceStatusFailed) [1; 2; 4; 3; 4]).
  - apply (BuildRootNode_linksValid readyDiamond _ 0). by vm_compute.
  - by vm_compute.
Defined.

(** * The status aggregator on a built graph *)

Lemma omap_head {A B} (f : A → option B) l c cs :
  omap f l = c :: cs →
  ∃ l1 x l2, l = l1 ++ x :: l2 ∧ Forall (λ y, f y = None) l1 ∧ f x = Some c.
Proof.
  induction l as [|x l IH]; [done|]. cbn [omap list_omap].
  destruct (f x) as [y|] eqn:Hx.
  - intros [= -> _]. by exists [], x, l.
  - intros (l1 & x' & l2 & -> & Hl1 & Hx')%IH.
    exists (x :: l1), x', l2. split; [done|]. split; [by constructor|done].
Qed.

Section BuiltStatus.
Context `{TaskInfoGetter T}.

Lemma BuildRootNode_start (tasks : list T) h root :
  BuildRootNode tasks = Built (h, root) →
  ∃ rn c cs, h !! root = Some rn ∧ children rn = c :: cs.
Proof.
  unfold BuildRootNode, buildGraphNodeMap.
  destruct (buildGraphNodeMap_from tasks _ ∅) as [[h1 m]|e|]; simpl; [|done..].
  destruct (linkTasks m 0 tasks _) as [h2|e|]; simpl; [|done..].
  destruct (h2 !! 0) as [rn|] eqn:Hrn; simpl; [|done].
  destruct (children rn) as [|c cs] eqn:Hch; [done|].
  intros [= <- <-]. by exists rn, c, cs.
Qed.

(** X13: on a built graph [ComputeStatus] never fails on [t.children[0]]:
    the first child of the root is the node of the first task without
    dependencies, the store is asked about that task's identity, and the
    result is Success with no source when the end marker has succeeded and
    that of the walk otherwise. *)
Theorem ComputeStatus_built (tasks : list T) h root store fuel :
  BuildRootNode tasks = Built (h, root) →
  ∃ i t ni, tasks !! i = Some t ∧ GetDepend t = [] ∧
    (∀ j tj, (j < i)%nat → tasks !! j = Some tj → GetDepend tj ≠ []) ∧
    h !! S i = Some ni ∧ TaskInsID ni = GetID t ∧
    ComputeStatus store fuel h root =
      if endMarkerSucceeded store ni then Some (h, (TreeStatusSuccess, ""))
      else computeStatusWalk fuel h root.
Proof.
  intros Hb.
  destruct (BuildRootNode_start tasks h root Hb) as (rn & c & cs & Hrn & Hcs).
  destruct (BuildRootNode_shape tasks h root Hb) as (-> & _ & _ & _ & Hids).
  destruct (BuildRootNode_exact tasks h 0 Hb) as (m & Hm & _ & Hch & _).
  rewrite Hrn, firstn_all in Hch. simpl in Hch. rewrite Hcs in Hch.
  injection Hch as Hch. symmetry in Hch.
  apply omap_head in Hch as (l1 & t & l2 & Htasks & Hl1 & Ht).
  assert (tasks !! length l1 = Some t) as Hi.
  { rewrite Htasks. by apply list_lookup_middle. }
  assert (∀ j tj, tasks !! j = Some tj → m !! GetGraphID tj = Some (S j)) as Hidx.
  { intros j tj Hj. apply Hm. by eauto. }
  assert (GetDepend t = [] ∧ c = S (length l1)) as [Hdep ->].
  { destruct (GetDepend t); [|done]. split; [done|].
    rewrite (Hidx _ _ Hi) in Ht. by injection Ht. }
  assert (∃ ni, h !! S (length l1) = Some ni ∧ TaskInsID ni = GetID t)
    as (ni & Hni & Hid).
  { assert ((TaskInsID <$> h) !! S (length l1) = Some (GetID t)) as Hl.
    { rewrite Hids. simpl. by rewrite list_lookup_fmap, Hi. }
    rewrite list_lookup_fmap in Hl.
    destruct (h !! S (length l1)) as [ni|]; [|done].
    injection Hl as Hl. by exists ni. }
  exists (length l1), t, ni. repeat split; try done.
  - intros j tj Hj Htj Hnil.
    assert (tj ∈ l1) as Hin.
    { rewrite Htasks, lookup_app_l in Htj by done.
      by eapply list_elem_of_lookup_2. }
    rewrite Forall_forall in Hl1. specialize (Hl1 _ Hin). simpl in Hl1.
    rewrite Hnil in Hl1.
    by rewrite (Hidx _ _ Htj) in Hl1.
  - unfold ComputeStatus, fastPath. rewrite Hrn. simpl. rewrite Hcs. simpl.
    by rewrite Hni.
Qed.

End BuiltStatus.

Lemma ComputeStatus_built_witness :
  ∃ i t ni, readyDiamond !! i = Some t ∧ GetDepend t = [] ∧
    (∀ j tj, (j < i)%nat → readyDiamond !! j = Some tj → GetDepend tj ≠ []) ∧
    readyDiamondHeap !! S i = Some ni ∧ TaskInsID ni = GetID t ∧
    ComputeStatus endedStore 4 readyDiamondHeap 0 =
      if endMarkerSucceeded endedStore ni
      then Some (readyDiamondHeap, (TreeStatusSuccess, ""))
      else computeStatusWalk 4 readyDiamondHeap 0.
Proof.
  apply (ComputeStatus_built readyDiamond readyDiamondHeap 0 endedStore 4).
  by vm_compute.
Defined.

(** * When the operations return *)

Lemma GetNextTaskIds_total fuel (h : heap) t task l :
  linksValid h → gatedWalk fuel h t = Some l →
  is_Some (GetNextTaskIds fuel h t task).
Proof.
  intros Hval Hl%gatedWalk_visits. unfold GetNextTaskIds, walkNode.
  rewrite (dfsWalk_runStop _ (nextTaskFunc_quiet task) _ _ _ _ _ Hl).
  destruct (runStop_nextTaskFunc_found task h l Hval (visits_valid _ _ _ _ _ Hl))
    as (h' & ids & found & b & -> & _).
  by eauto.
Qed.

(** X12: on a heap with valid links and no cycle among its child links,
    the three operations return once the fuel exceeds the rank of the
    start node; [ComputeStatus] needs a start node with a first child. *)
Theorem operations_return (h : heap) rk (fuel : nat) t :
  linksValid h → ranked h rk → (t < length h)%nat → (rk t < fuel)%nat →
  is_Some (GetExecutableTaskIds fuel h t) ∧
  (∀ task, is_Some (GetNextTaskIds fuel h t task)) ∧
  (∀ store tn c0, h !! t = Some tn → children tn !! 0 = Some c0 →
     is_Some (ComputeStatus store fuel h t)).
Proof.
  intros Hval Hrk Ht Hfuel.
  destruct (gatedWalk_total h rk fuel t Hval Hrk Ht Hfuel) as [l Hl].
  split; [|split].
  - rewrite (GetExecutableTaskIds_walk _ _ _ _ Hval Hl). by eauto.
  - intros task. by eapply GetNextTaskIds_total.
  - intros store tn c0 Htn Hc0. unfold ComputeStatus, fastPath.
    rewrite Htn. simpl. rewrite Hc0. simpl.
    destruct (lookup_lt_is_Some_2 h c0) as [cn ->].
    { destruct (Hval _ _ Htn) as [Hch _]. rewrite Forall_forall in Hch.
      apply Hch. by eapply list_elem_of_lookup_2. }
    simpl. destruct (endMarkerSucceeded store cn); [by eauto|].
    rewrite (computeStatusWalk_rollup _ _ _ _ Hl). by eauto.
Qed.

Lemma operations_return_witness :
  is_Some (GetExecutableTaskIds 6 readyDiamondHeap 0) ∧
  (∀ task, is_Some (GetNextTaskIds 6 readyDiamondHeap 0 task)) ∧
  (∀ store tn c0, readyDiamondHeap !! 0 = Some tn → children tn !! 0 = Some c0 →
     is_Some (ComputeStatus store 6 readyDiamondHeap 0)).
Proof.
  apply (operations_return readyDiamondHeap (λ p, 5 - p) 6 0).
  - apply (BuildRootNode_linksValid readyDiamond _ 0). by vm_compute.
  - intros p c (nd & Hp & Hc).
    destruct p as [|[|[|[|[|p]]]]]; vm_compute in Hp; try done;
      injection Hp as <-; simpl in Hc;
      rewrite ?elem_of_cons, elem_of_nil in Hc; lia.
  - vm_compute. lia.
  - simpl. lia.
Defined.

(** * When the walk does not return *)

Section GoesOn.
Context {A : Type}.
Variable walkFunc : ptr → heap * A → option ((heap * A) * bool).
(** The callback never stops the walk and leaves the heap alone. *)
Hypothesis walkFunc_on : ∀ p st st' b,
  walkFunc p st = Some (st', b) → st'.1 = st.1 ∧ b = true.

Lemma walkChildren_goes_on fuel ign cs st r :
  (∀ c st r, dfsWalk walkFunc fuel ign c st = Some r →
             r.1.1 = st.1 ∧ r.2 = true ∧ is_Some (visits fuel ign st.1 c)) →
  walkChildren (dfsWalk walkFunc fuel ign) cs st = Some r →
  r.1.1 = st.1 ∧ r.2 = true ∧
  is_Some (visitsChildren (visits fuel ign st.1) st.1 cs).
Proof.
  intros IH. revert st.
  induction cs as [|c cs IHcs]; intros st; simpl.
  - intros [= <-]. by eauto.
  - destruct (skipChild st.1 c) as [[|]|]; simpl; [by apply IHcs| |done].
    destruct (dfsWalk walkFunc fuel ign c st) as [r1|] eqn:E; simpl; [|done].
    destruct (IH _ _ _ E) as (Hh & -> & [l1 ->]). simpl.
    intros (Hh' & Hb & [l2 Hl2])%IHcs. rewrite Hh in Hh', Hl2.
    rewrite Hl2. simpl. by eauto.
Qed.

Lemma dfsWalk_goes_on fuel ign root st r :
  dfsWalk walkFunc fuel ign root st = Some r →
  r.1.1 = st.1 ∧ r.2 = true ∧ is_Some (visits fuel ign st.1 root).
Proof.
  revert root st r. induction fuel as [|fuel IH]; intros root st r; simpl; [done|].
  destruct (st.1 !! root) as [nd|] eqn:Hnd; simpl; [|done].
  assert (∀ r0 : (heap * A) * bool,
            r0.1.1 = st.1 → r0.2 = true →
            (if negb r0.2 then Some (r0.1, false) else
             nd1 ← r0.1.1 !! root;
             if negb ign && negb (CanExecuteChild nd1) then Some (r0.1, true)
             else walkChildren (dfsWalk walkFunc fuel ign) (children nd1) r0.1)
              = Some r →
            r.1.1 = st.1 ∧ r.2 = true ∧
            is_Some (if negb ign && negb (CanExecuteChild nd)
                     then Some (if bool_decide (TaskInsID nd ≠ virtualTaskRootID)
                                then [root] else [])
                     else l ← visitsChildren (visits fuel ign st.1) st.1
                                (children nd);
                          Some ((if bool_decide (TaskInsID nd ≠ virtualTaskRootID)
                                 then [root] else []) ++ l))) as Hrest.
  { intros [st0 b0] Hh Hb. simpl in Hh, Hb. subst b0. simpl.
    rewrite Hh, Hnd. simpl.
    destruct (negb ign && negb (CanExecuteChild nd)).
    - intros [= <-]. by eauto.
    - intros (Hh' & Hb & [l Hl])%(walkChildren_goes_on _ _ _ _ _ IH).
      rewrite Hh in Hh', Hl. rewrite Hl. simpl. by eauto. }
  case_bool_decide; simpl.
  - destruct (walkFunc root st) as [[st0 b0]|] eqn:E; simpl; [|done].
    destruct (walkFunc_on _ _ _ _ E) as [Hh ->]. by apply (Hrest (st0, true)).
  - by apply (Hrest (st, true)).
Qed.

End GoesOn.

Lemma visitFunc_on p st st' b :
  visitFunc p st = Some (st', b) → st'.1 = st.1 ∧ b = true.
Proof. unfold visitFunc. by intros [= <- <-]. Qed.

Lemma executableFunc_on p st st' b :
  executableFunc p st = Some (st', b) → st'.1 = st.1 ∧ b = true.
Proof.
  unfold executableFunc. destruct (st.1 !! p) as [nd|]; simpl; [|done].
  destruct (Executable st.1 nd); simpl; [|done]. by intros [= <- <-].
Qed.

Lemma descends_pred ign h n t : descends ign h (S n) t → descends ign h n t.
Proof.
  revert t. induction n as [|n IH]; intros t; [by constructor|].
  inversion 1 as [|? ? a Hstep Hd]; subst.
  eapply descends_S; [done|]. by apply IH.
Qed.

Lemma descends_gatedPath ign h n t c :
  gatedPath ign h t c → descends ign h n c → descends ign h n t.
Proof.
  induction 1 as [|t nd a c Hnd Hgate Ha Hopen _ IH]; [done|].
  intros Hd%IH. apply descends_pred. eapply descends_S; [|done].
  by exists nd.
Qed.

Lemma descends_cycle ign h t c a n :
  gatedPath ign h t c → gatedStep ign h c a → gatedPath ign h a c →
  descends ign h n t.
Proof.
  intros Htc Hca Hac. apply (descends_gatedPath _ _ _ _ _ Htc).
  induction n as [|n IH]; [by constructor|].
  eapply descends_S; [done|]. by eapply descends_gatedPath.
Qed.

Lemma visits_descends fuel ign h t n :
  is_Some (visits fuel ign h t) → descends ign h n t → (n < fuel)%nat.
Proof.
  revert t n. induction fuel as [|fuel IH]; intros t n [l Hl]; [done|].
  destruct 1 as [|n t a (nd & Hnd & Hgate & Ha & Hopen) Hd]; [lia|].
  assert (is_Some (visits fuel ign h a)) as Hsome; [|apply IH in Hd; [lia|done]].
  simpl in Hl. rewrite Hnd in Hl. simpl in Hl.
  assert (negb ign && negb (CanExecuteChild nd) = false) as Hg.
  { destruct Hgate as [->|Hp]; [done|].
    destruct (CanExecuteChild nd); [|done]. by rewrite andb_false_r. }
  rewrite Hg in Hl.
  destruct (visitsChildren _ h (children nd)) as [l'|] eqn:Hl'; simpl in Hl; [|done].
  destruct (visitsChildren_into _ _ _ _ _ Hl' Ha (joinOpen_skipChild _ _ Hopen))
    as (l1 & Hw & _).
  by eauto.
Qed.

(** X14: the walk keeps no record of the nodes it has entered.  When a
    gated path leads from the start node to a node that a gated path
    leads back to, the walk order is never produced, and with statuses
    gating the descent [GetExecutableTaskIds] does not return, whatever
    the fuel. *)
Theorem walk_diverges_on_cycle (fuel : nat) ign (h : heap) t c a :
  gatedPath ign h t c → gatedStep ign h c a → gatedPath ign h a c →
  walkOrder fuel ign h t = None ∧
  (ign = false → GetExecutableTaskIds fuel h t = None).
Proof.
  intros Htc Hca Hac.
  assert (¬ is_Some (visits fuel ign h t)) as Hno.
  { intros Hsome.
    pose proof (visits_descends _ _ _ _ fuel Hsome
                  (descends_cycle _ _ _ _ _ _ Htc Hca Hac)). lia. }
  split.
  - unfold walkOrder, walkNode.
    destruct (dfsWalk visitFunc fuel ign t (h, [])) as [r|] eqn:E; [|done].
    destruct Hno. by apply (dfsWalk_goes_on _ visitFunc_on) in E as (_ & _ & ?).
  - intros ->. unfold GetExecutableTaskIds, walkNode.
    destruct (dfsWalk executableFunc fuel false t (h, [])) as [r|] eqn:E; [|done].
    destruct Hno. by apply (dfsWalk_goes_on _ executableFunc_on) in E as (_ & _ & ?).
Qed.

Lemma walk_diverges_on_cycle_witness :
  walkOrder 100 false doneCycleHeap 0 = None ∧
  (false = false → GetExecutableTaskIds 100 doneCycleHeap 0 = None).
Proof.
  apply (walk_diverges_on_cycle 100 false doneCycleHeap 0 2 3).
  - eapply (gatedPath_step _ _ 0 _ 1); [by vm_compute|by right| | |].
    + simpl. by apply list_elem_of_here.
    + eexists. split; [by vm_compute|]. left. simpl. lia.
    + eapply (gatedPath_step _ _ 1 _ 2); [by vm_compute|by right| | |].
      * simpl. by apply list_elem_of_here.
      * eexists. split; [by vm_compute|]. right. simpl.
        repeat constructor; eexists; (split; [by vm_compute|done]).
      * apply gatedPath_here. by vm_compute; eauto.
  - eexists. split; [by vm_compute|]. split; [by right|]. split.
    + simpl. by apply list_elem_of_here.
    + eexists. split; [by vm_compute|]. left. simpl. lia.
  - eapply (gatedPath_step _ _ 3 _ 2); [by vm_compute|by right| | |].
    + simpl. by apply list_elem_of_here.
    + eexists. split; [by vm_compute|]. right. simpl.
      repeat constructor; eexists; (split; [by vm_compute|done]).
    + apply gatedPath_here. by vm_compute; eauto.
Defined.

(** * The cycle check and the walk *)

(** Where the start node reaches no cycle, the walk returns on any fuel
    above the size of the heap: [path] lists the nodes the walk is inside
    of when it enters [cur]. *)
Lemma visits_acyclic (h : heap) ign t (fuel : nat) path cur :
  linksValid h → (∀ c, rtc (edge h) t c → ¬ onCycle h c) →
  rtc (edge h) t cur → NoDup (path ++ [cur]) →
  Forall (λ x, x < length h)%nat (path ++ [cur]) →
  (∀ x, x ∈ path → tc (edge h) x cur) →
  (length h < fuel + length path)%nat →
  is_Some (visits fuel ign h cur).
Proof.
  intros Hval Hacyc. revert path cur.
  induction fuel as [|fuel IH]; intros path cur Hreach Hnd Hall Hanc Hfuel.
  { apply NoDup_app in Hnd as (Hnd & _ & _).
    apply Forall_app in Hall as [Hall _].
    pose proof (NoDup_bounded_length _ _ Hnd Hall). simpl in Hfuel. lia. }
  simpl.
  destruct (lookup_lt_is_Some_2 h cur) as [nd Hnd'].
  { apply Forall_app in Hall as [_ Hcur]. by inversion Hcur. }
  rewrite Hnd'. simpl.
  destruct (negb ign && negb (CanExecuteChild nd)); [by eauto|].
  destruct (visitsChildren_total (visits fuel ign h) h (children nd)) as [l ->];
    [done|by eapply Hval| |by simpl; eauto].
  intros c Hc.
  assert (edge h cur c) as He by (by exists nd).
  assert (rtc (edge h) t c) as Hreach'.
  { eapply rtc_r; [done|done]. }
  apply (IH (path ++ [cur]) c).
  - done.
  - apply NoDup_app. split; [done|]. split; [|by apply NoDup_singleton].
    intros x Hx ->%list_elem_of_singleton.
    apply (Hacyc c Hreach'). unfold onCycle.
    apply elem_of_app in Hx as [Hx|Hx].
    + eapply tc_r; [by apply Hanc|done].
    + apply list_elem_of_singleton in Hx. subst. by apply tc_once.
  - apply Forall_app. split; [done|]. apply Forall_cons. split; [|done].
    destruct (Hval _ _ Hnd') as [Hch _]. rewrite Forall_forall in Hch.
    by apply Hch.
  - intros x [Hx|Hx%list_elem_of_singleton]%elem_of_app.
    + eapply tc_r; [by apply Hanc|done].
    + subst. by apply tc_once.
  - rewrite length_app. simpl. lia.
Qed.

Section CheckedGraph.
Context `{TaskInfoGetter T}.

Lemma HasCycle_none_acyclic (tasks : list T) h root (cfuel : nat) :
  BuildRootNode tasks = Built (h, root) →
  NoDup (virtualTaskRootID :: (GetID <$> tasks)) →
  HasCycle cfuel h root None →
  ∀ c, rtc (edge h) root c → ¬ onCycle h c.
Proof.
  intros Hb Hnd (inc & Hinc & ->) c Hreach Hc.
  pose proof (BuildRootNode_idsDistinct tasks h root Hb Hnd) as Hids.
  destruct (BuildRootNode_shape tasks h root Hb) as (-> & Hval & Hsym & Hroot & _).
  destruct (cycleInv_initial h Hsym 0 Hroot) as [Hinv0 Hw0].
  destruct (bfsCheckCycle_inv h Hval Hsym Hids (cfuel + (length h + 2)) 0 [0] [] ∅ ∅
              Hinv0 Hw0) as (visited & incomplete & vs & Hrun & Hinv); [lia|lia|].
  apply (HasCycle_mono _ (cfuel + (length h + 2))) in Hinc; [|lia].
  unfold HasCycle_incomplete in Hinc. rewrite Hrun in Hinc.
  injection Hinc as ->.
  destruct (reachable_cycle_incomplete h Hsym vs visited ∅ 0 c)
    as (k & n & Hk); [done..|]. by rewrite lookup_empty in Hk.
Qed.

(** X16: the cycle check guards the walk.  On a graph built from tasks
    whose identities are pairwise distinct and differ from the root's, if
    [HasCycle] on the root returns no node, the three operations return on
    any fuel above the size of the graph. *)
Theorem HasCycle_none_operations_return (tasks : list T) h root
    (cfuel fuel : nat) :
  BuildRootNode tasks = Built (h, root) →
  NoDup (virtualTaskRootID :: (GetID <$> tasks)) →
  HasCycle cfuel h root None →
  (length h < fuel)%nat →
  is_Some (GetExecutableTaskIds fuel h root) ∧
  (∀ task, is_Some (GetNextTaskIds fuel h root task)) ∧
  (∀ store, is_Some (ComputeStatus store fuel h root)).
Proof.
  intros Hb Hnd Hcheck Hfuel.
  pose proof (HasCycle_none_acyclic tasks h root cfuel Hb Hnd Hcheck) as Hacyc.
  destruct (BuildRootNode_start tasks h root Hb) as (rn & c & cs & Hrn & Hcs).
  destruct (BuildRootNode_shape tasks h root Hb) as (-> & Hval & _ & _ & _).
  assert (0 < length h)%nat as Hroot by (by eapply lookup_lt_Some).
  destruct (visits_acyclic h false 0 fuel [] 0 Hval Hacyc) as [l Hl].
  { done. }
  { simpl. apply NoDup_singleton. }
  { simpl. by repeat constructor. }
  { by intros x ?%elem_of_nil. }
  { simpl. lia. }
  apply gatedWalk_visits in Hl.
  split; [|split].
  - rewrite (GetExecutableTaskIds_walk _ _ _ _ Hval Hl). by eauto.
  - intros task. by eapply GetNextTaskIds_total.
  - intros store. unfold ComputeStatus, fastPath.
    rewrite Hrn. simpl. rewrite Hcs. simpl.
    destruct (lookup_lt_is_Some_2 h c) as [cn ->].
    { destruct (Hval _ _ Hrn) as [Hch _]. rewrite Forall_forall in Hch.
      apply Hch. rewrite Hcs. by left. }
    simpl. destruct (endMarkerSucceeded store cn); [by eauto|].
    rewrite (computeStatusWalk_rollup _ _ _ _ Hl). by eauto.
Qed.

End CheckedGraph.

Lemma HasCycle_none_operations_return_witness :
  BuildRootNode readyDiamond = Built (readyDiamondHeap, 0) ∧
  HasCycle 7 readyDiamondHeap 0 None ∧
  is_Some (GetExecutableTaskIds 6 readyDiamondHeap 0) ∧
  (∀ task, is_Some (GetNextTaskIds 6 readyDiamondHeap 0 task)) ∧
  (∀ store, is_Some (ComputeStatus store 6 readyDiamondHeap 0)).
Proof.
  assert (BuildRootNode readyDiamond = Built (readyDiamondHeap, 0)) as Hb
    by (by vm_compute).
  assert (NoDup (virtualTaskRootID :: (GetID <$> readyDiamond))) as Hnd.
  { apply (bool_decide_unpack _). by vm_compute. }
  assert (HasCycle 7 readyDiamondHeap 0 None) as Hcheck.
  { exists ∅. split; [by vm_compute|done]. }
  split; [done|]. split; [done|].
  apply (HasCycle_none_operations_return readyDiamond readyDiamondHeap 0 7 6
           Hb Hnd Hcheck).
  vm_compute. lia.
Defined.

(** * The first executable set *)

Lemma runnableStatus_not_proceed nd :
  runnableStatus (Status nd) = true → CanExecuteChild nd = false.
Proof. unfold runnableStatus, CanExecuteChild. by destruct (Status nd). Qed.

Lemma visits_S (fuel : nat) ign (h : heap) root :
  visits (S fuel) ign h root =
    nd ← h !! root;
    let own := if bool_decide (TaskInsID nd ≠ virtualTaskRootID)
               then [root] else [] in
    if negb ign && negb (CanExecuteChild nd) then Some own
    else l ← visitsChildren (visits fuel ign h) h (children nd);
         Some (own ++ l).
Proof. done. Qed.

Lemma visitsChildren_startNodes (h : heap) (fuel : nat) cs :
  Forall (startNode h) cs →
  visitsChildren (visits (S fuel) false h) h cs = Some cs.
Proof.
  induction 1 as [|c cs (nd & Hnd & Hps & Hst & Hid) _ IH]; [done|].
  assert (skipChild h c = Some false) as Hskip.
  { unfold skipChild. rewrite Hnd. simpl. by rewrite Hps. }
  assert (visits (S fuel) false h c = Some [c]) as Hv.
  { cbn [visits]. rewrite Hnd. simpl.
    rewrite bool_decide_eq_true_2 by done.
    by rewrite (runnableStatus_not_proceed _ Hst). }
  cbn [visitsChildren]. rewrite Hskip. cbn [mbind option_bind].
  rewrite Hv. cbn [mbind option_bind]. by rewrite IH.
Qed.

Lemma filter_startNodes (h : heap) rn cs :
  h !! 0 = Some rn → CanExecuteChild rn = true →
  Forall (startNode h) cs →
  filter (λ nd, Executable h nd = Some true) (nodesAt h cs) = nodesAt h cs.
Proof.
  intros Hrn Hok. unfold nodesAt.
  induction 1 as [|c cs (nd & Hnd & Hps & Hst & Hid) _ IH]; [done|].
  cbn [omap list_omap]. rewrite Hnd. rewrite filter_cons, IH.
  rewrite decide_True; [done|].
  apply Executable_true. split; [by apply runnableStatus_elem_of|].
  right. rewrite Hps. repeat constructor. exists rn. split; [done|].
  by rewrite Hok.
Qed.

Section FreshRun.
Context `{TaskInfoGetter T}.

Lemma start_identities (m : gmap string ptr) (h : heap) (l : list T) :
  (∀ t, t ∈ l → ∃ a nd, m !! GetGraphID t = Some a ∧ h !! a = Some nd ∧
                        TaskInsID nd = GetID t) →
  TaskInsID <$> nodesAt h
    (omap (λ t, match GetDepend t with
                | [] => m !! GetGraphID t | _ => None end) l) =
  GetID <$> filter (λ t, GetDepend t = []) l.
Proof.
  unfold nodesAt. induction l as [|t l IH]; intros Hl; [done|].
  cbn [omap list_omap]. rewrite filter_cons.
  assert (∀ t', t' ∈ l → ∃ a nd, m !! GetGraphID t' = Some a ∧
            h !! a = Some nd ∧ TaskInsID nd = GetID t') as Hl'.
  { intros t' Ht'. apply Hl. by right. }
  destruct (GetDepend t) as [|d ds] eqn:Hd.
  - destruct (Hl t) as (a & nd & -> & Hnd & Hid); [by left|].
    rewrite decide_True by done. cbn [omap list_omap]. rewrite Hnd.
    cbn [fmap list_fmap]. by rewrite Hid, <- IH.
  - rewrite decide_False by done. by apply IH.
Qed.

(** X15: the first executable set.  On a built graph in which every task
    without dependencies reports a runnable status and an identity other
    than the root's reserved one, [GetExecutableTaskIds] on the root
    returns, on any fuel from 2 on and whatever lies below, the identities
    of the tasks without dependencies, in input order. *)
Theorem GetExecutableTaskIds_fresh (tasks : list T) h root (fuel : nat) :
  BuildRootNode tasks = Built (h, root) →
  (∀ t, t ∈ tasks → GetDepend t = [] →
     GetStatus t ∈ [TaskInstanceStatusInit; TaskInstanceStatusRetrying;
                    TaskInstanceStatusContinue; TaskInstanceStatusEnding] ∧
     GetID t ≠ virtualTaskRootID) →
  (2 ≤ fuel)%nat →
  GetExecutableTaskIds fuel h root =
    Some (h, GetID <$> filter (λ t, GetDepend t = []) tasks).
Proof.
  intros Hb Hstart Hfuel.
  destruct (BuildRootNode_shape tasks h root Hb)
    as (-> & Hval & _ & [[rn Hrn] _] & Hids).
  destruct (BuildRootNode_exact tasks h 0 Hb) as (m & Hm & Hst & Hch & Hpar).
  rewrite Hrn, firstn_all in Hch. simpl in Hch. injection Hch as Hch.
  assert (∀ i t, tasks !! i = Some t →
            ∃ nd, m !! GetGraphID t = Some (S i) ∧ h !! S i = Some nd ∧
                  TaskInsID nd = GetID t ∧ Status nd = GetStatus t ∧
                  (GetDepend t = [] → parents nd = [0])) as Hnode.
  { intros i t Hi. destruct (Hpar i t Hi) as (nd & Hnd & Hps).
    exists nd. split; [by apply Hm; eauto|]. split; [done|].
    assert ((TaskInsID <$> h) !! S i = Some (GetID t)) as Hid.
    { rewrite Hids. simpl. by rewrite list_lookup_fmap, Hi. }
    assert ((Status <$> h) !! S i = Some (GetStatus t)) as Hs.
    { rewrite Hst. simpl. by rewrite list_lookup_fmap, Hi. }
    rewrite list_lookup_fmap, Hnd in Hid. rewrite list_lookup_fmap, Hnd in Hs.
    injection Hid as Hid. injection Hs as Hs.
    split; [done|]. split; [done|]. intros Hd.
    rewrite decide_True in Hps by (by eapply lookup_lt_Some).
    by rewrite Hd in Hps. }
  assert (CanExecuteChild rn = true ∧ TaskInsID rn = virtualTaskRootID)
    as [Hok Hrid].
  { assert ((TaskInsID <$> h) !! 0 = Some virtualTaskRootID) as Hid
      by (by rewrite Hids).
    assert ((Status <$> h) !! 0 = Some TaskInstanceStatusSuccess) as Hs
      by (by rewrite Hst).
    rewrite list_lookup_fmap, Hrn in Hid. rewrite list_lookup_fmap, Hrn in Hs.
    injection Hid as Hid. injection Hs as Hs.
    split; [|done]. unfold CanExecuteChild. by rewrite Hs. }
  assert (Forall (startNode h) (children rn)) as Hcs.
  { rewrite Hch. apply Forall_forall. intros c Hc.
    apply list_elem_of_omap in Hc as (t & Ht & Hc).
    destruct (GetDepend t) as [|d ds] eqn:Hd; [|done].
    pose proof Ht as (i & Hi)%list_elem_of_lookup_1.
    destruct (Hnode i t Hi) as (nd & Hmi & Hnd & Hid & Hs & Hps).
    rewrite Hmi in Hc. injection Hc as <-.
    destruct (Hstart t Ht Hd) as [Hrun Hne].
    exists nd. split; [done|]. split; [by apply Hps|].
    split; [|by rewrite Hid].
    rewrite Hs. by apply runnableStatus_elem_of. }
  assert (gatedWalk fuel h 0 = Some (children rn)) as Hl.
  { apply gatedWalk_visits. destruct fuel as [|[|fuel]]; [lia..|].
    rewrite visits_S, Hrn. cbn [mbind option_bind].
    rewrite bool_decide_eq_false_2 by (by intros []).
    rewrite Hok. cbn [negb andb].
    by rewrite (visitsChildren_startNodes h fuel _ Hcs). }
  rewrite (GetExecutableTaskIds_walk _ _ _ _ Hval Hl).
  rewrite (filter_startNodes h rn _ Hrn Hok Hcs), Hch.
  rewrite (start_identities m h tasks); [done|].
  intros t (i & Hi)%list_elem_of_lookup_1.
  destruct (Hnode i t Hi) as (nd & Hmi & Hnd & Hid & _).
  by exists (S i), nd.
Qed.

End FreshRun.

Lemma GetExecutableTaskIds_fresh_witness :
  GetExecutableTaskIds 2 freshCycleHeap 0 =
    Some (freshCycleHeap,
          GetID <$> filter (λ t : MockTaskInfoGetter, GetDepend t = [])
                      freshCycle) ∧
  GetExecutableTaskIds 2 freshCycleHeap 0 = Some (freshCycleHeap, ["S"; "R"]).
Proof.
  split; [|by vm_compute].
  apply (GetExecutableTaskIds_fresh freshCycle freshCycleHeap 0 2).
  - by vm_compute.
  - intros t Ht Hd. unfold freshCycle in Ht.
    rewrite !elem_of_cons, elem_of_nil in Ht.
    destruct Ht as [->|[->|[->|[->|[]]]]]; try done;
      (split; [|done]); simpl;
      repeat first [by apply list_elem_of_here | apply list_elem_of_further].
  - lia.
Defined.
